(** * go-cubic: notation parser, move model and cube engine

    A shallow embedding of package [cube] (notation.go, helper.go and the
    cube engine) together with the properties of its specification.

    Conventions of the embedding:
    - a Go [int] is a [Z] kept in the signed 64-bit range; every arithmetic
      operation of the source is followed by [wrap], Go's [%] is [Z.rem] and
      Go's [/] is [Z.quot] (both truncate towards zero);
    - a [rune] is its code point, a [Z]; a [byte] is an [ascii];
    - a Go [string] is the list of its bytes;
    - a value of type [error] is an [option error] ([None] is [nil]);
    - the cube is mutated in place by the source; here every method takes the
      cube and returns the cube after the call (explicit state passing). *)

From Stdlib Require Import String Ascii ZArith List Bool Lia.
From Stdlib Require Import Permutation.
Import ListNotations.
Open Scope Z_scope.

(* ================================================================= *)
(** ** Machine integers *)

Definition wrap (z : Z) : Z := (z + 2 ^ 63) mod 2 ^ 64 - 2 ^ 63.

Definition in_int (z : Z) : Prop := - 2 ^ 63 <= z < 2 ^ 63.

Definition rune := Z.

(** [rune(b)] for a byte [b]. *)
Definition rune_of_byte (b : ascii) : rune := Z.of_N (N_of_ascii b).

(** A rune literal such as ['R']. *)
Definition rlit (b : ascii) : rune := rune_of_byte b.

(* ================================================================= *)
(** ** Errors *)

Inductive error : Type :=
  | ErrUnexpectedGroupClosure
  | ErrUnclosedGroup
  | ErrTokenExtraction
  | ErrRotationMove
  | ErrSlicesMove
  | ErrMultipleSeparators
  | ErrSeparatorGroup
  | ErrFaceLengthsDiffer
  | ErrFaceNotPerfectSquare
  | ErrSliceParam
  | ErrAtoi.

(** A pair (value, error) of which the caller reads the value only when the
    error is nil. *)
Inductive result (A : Type) : Type :=
  | Ok (a : A)
  | Err (e : error).
Arguments Ok {A} a.
Arguments Err {A} e.

(* ================================================================= *)
(** ** helper.go *)

Definition isDigit (ch : ascii) : bool :=
  (Ascii.leb "0" ch && Ascii.leb ch "9")%char.

(** [reverse]: copy the slice, then swap positions [i] and [len-1-i] for
    [i = len/2 - 1] down to [0]. *)
Fixpoint set_nth {A : Type} (i : nat) (v : A) (l : list A) : list A :=
  match l, i with
  | [], _ => []
  | _ :: l', O => v :: l'
  | a :: l', S i' => a :: set_nth i' v l'
  end.

Definition swap_at {A : Type} (i j : nat) (l : list A) : list A :=
  match nth_error l i, nth_error l j with
  | Some a, Some b => set_nth j a (set_nth i b l)
  | _, _ => l
  end.

(** [reverse_from k l] runs the loop body for [i = k-1, k-2, ..., 0]. *)
Fixpoint reverse_from {A : Type} (k : nat) (reversed : list A) : list A :=
  match k with
  | O => reversed
  | S i => let tmp := (List.length reversed - 1 - i)%nat in
           reverse_from i (swap_at i tmp reversed)
  end.

Definition reverse {A : Type} (original : list A) : list A :=
  reverse_from (Nat.div (List.length original) 2) original.

(** [pow]: [x := 1; for range exp { x *= v }]. *)
Definition pow (v exp : Z) : Z :=
  Nat.iter (Z.to_nat exp) (fun x => wrap (x * v)) 1.

(** [strconv.Atoi] on an optional sign followed by decimal digits. *)
Definition digit_val (ch : ascii) : Z := Z.of_N (N_of_ascii ch) - 48.

Fixpoint atoi_digits (acc : Z) (s : list ascii) : option Z :=
  match s with
  | [] => Some acc
  | ch :: s' => if isDigit ch then atoi_digits (10 * acc + digit_val ch) s'
                else None
  end.

Definition Atoi (s : list ascii) : result Z :=
  let '(neg, ds) :=
    match s with
    | "-"%char :: ds => (true, ds)
    | "+"%char :: ds => (false, ds)
    | _ => (false, s)
    end in
  match ds with
  | [] => Err ErrAtoi
  | _ => match atoi_digits 0 ds with
         | None => Err ErrAtoi
         | Some v => let v' := if neg then - v else v in
                     if (- 2 ^ 63 <=? v') && (v' <? 2 ^ 63) then Ok v'
                     else Err ErrAtoi
         end
  end.

Definition strToInt (s : list ascii) : result Z :=
  match s with
  | [] => Ok 0
  | _ => match Atoi s with
         | Err e => Err e
         | Ok value => Ok value
         end
  end.

(* ================================================================= *)
(** ** The move model (notation.go) *)

Record Move : Type := mkMove {
  Slices : Z;
  Operator : rune;
  Wide : bool;
  Rotations : Z;
  Inverted : bool
}.

Definition with_Slices (t : Move) (v : Z) : Move :=
  mkMove v (Operator t) (Wide t) (Rotations t) (Inverted t).
Definition with_Rotations (t : Move) (v : Z) : Move :=
  mkMove (Slices t) (Operator t) (Wide t) v (Inverted t).
Definition with_Inverted (t : Move) (v : bool) : Move :=
  mkMove (Slices t) (Operator t) (Wide t) (Rotations t) v.

(** [CombineMove] returns a pointer to a move together with a bool; the
    pointer is an [option Move] ([None] is [nil]). *)
Definition CombineMove (t combo : Move) : option Move * bool :=
  if negb (Operator t =? Operator combo)
     || negb (Slices t =? Slices combo)
     || negb (Bool.eqb (Wide t) (Wide combo))
  then (None, false)
  else
    let out :=
      if Bool.eqb (Inverted t) (Inverted combo)
      then with_Rotations t (wrap (Rotations t + Rotations combo))
      else with_Rotations t (wrap (Rotations t - Rotations combo)) in
    if Z.rem (Rotations out) 4 =? 0 then (None, true) else (Some out, true).

Definition isAny (t : Move) (runes : list rune) : bool :=
  existsb (Z.eqb (Operator t)) runes.

Definition validate (t : Move) : option error :=
  if isAny t [rlit "x"; rlit "y"; rlit "z"] && ((Slices t >? 0) || Wide t)
  then Some ErrRotationMove
  else if negb (Slices t =? 0) && negb (Wide t)
  then Some ErrSlicesMove
  else None.

Definition Normalize (t : Move) : Move :=
  let t := if (Slices t =? 0) && Wide t then with_Slices t 2 else t in
  let t := with_Rotations t (Z.rem (Rotations t) 4) in
  if Rotations t =? 0 then with_Rotations t 1
  else if Rotations t =? 3
  then with_Inverted (with_Rotations t 1) (negb (Inverted t))
  else if Rotations t <? 0
  then with_Inverted (with_Rotations t (wrap (Rotations t * -1)))
                     (negb (Inverted t))
  else t.

Definition ReverseMoves (moves : list Move) : list Move :=
  map (fun m => with_Inverted m (negb (Inverted m))) (reverse moves).

(** The slice [normalized] is kept as a list whose last element is
    [normalized[len-1]]. *)
Definition unsnoc {A : Type} (l : list A) : option (list A * A) :=
  match rev l with
  | [] => None
  | a :: l' => Some (rev l', a)
  end.

Definition normalizeStep (normalized : list Move) (t : Move) : list Move :=
  match unsnoc normalized with
  | None => normalized ++ [t]
  | Some (init, lastMove) =>
      match CombineMove lastMove t with
      | (_, false) => normalized ++ [t]
      | (None, true) => init
      | (Some combined, true) => init ++ [Normalize combined]
      end
  end.

Definition NormalizeMoves (moves : list Move) : result (list Move) :=
  Ok (fold_left normalizeStep moves []).

(* ================================================================= *)
(** ** Tokens and groups (notation.go) *)

Inductive GroupType : Type :=
  | groupTypeNil
  | GroupTypeMove
  | GroupTypeComm.

Definition GroupType_eqb (a b : GroupType) : bool :=
  match a, b with
  | groupTypeNil, groupTypeNil => true
  | GroupTypeMove, GroupTypeMove => true
  | GroupTypeComm, GroupTypeComm => true
  | _, _ => false
  end.

(** The two package-level separators; a token of type [*Separator] is a
    pointer to one of them (the parser takes them from the map
    [Separators]). *)
Inductive Separator : Type :=
  | SepCommutator
  | SepConjugate.

(** [Tokenizable] is implemented by [*Move], [*Separator] and [*Group]. *)
Inductive Tokenizable : Type :=
  | TMove (v : Move)
  | TSeparator (v : Separator)
  | TGroup (v : Group)
with Group : Type :=
  | mkGroup (Tokens : list Tokenizable) (Factor : Z) (GroupType : GroupType).

Definition Tokens (g : Group) : list Tokenizable :=
  match g with mkGroup ts _ _ => ts end.
Definition Factor (g : Group) : Z :=
  match g with mkGroup _ f _ => f end.
Definition GroupTypeOf (g : Group) : GroupType :=
  match g with mkGroup _ _ gt => gt end.

Definition NewGroup (groupType : GroupType) : Group :=
  mkGroup [] 1 groupType.

Definition AddToken (g : Group) (t : Tokenizable) : Group :=
  mkGroup (Tokens g ++ [t]) (Factor g) (GroupTypeOf g).

Definition OpenGroupTypes (ch : ascii) : option GroupType :=
  if Ascii.eqb ch "(" then Some GroupTypeMove
  else if Ascii.eqb ch "[" then Some GroupTypeComm
  else None.

Definition CloseGroupTypes (ch : ascii) : option GroupType :=
  if Ascii.eqb ch ")" then Some GroupTypeMove
  else if Ascii.eqb ch "]" then Some GroupTypeComm
  else None.

Definition Separators (ch : ascii) : option Separator :=
  if Ascii.eqb ch ":" then Some SepConjugate
  else if Ascii.eqb ch "," then Some SepCommutator
  else None.

(* ----------------------------------------------------------------- *)
(** *** Expand *)

(** The state of the loop of [Expand]: [head], [tail] and [separator]. *)
Definition expandState : Type := (list Move * list Move * option Separator)%type.

(** The loop over [g.Tokens]; [expand] is [Expand] on the sub-groups. *)
Definition expandLoop (expand : Group -> result (list Move)) :=
  fix loop (tokens : list Tokenizable) (st : expandState)
    {struct tokens} : result expandState :=
    let '(head, tail, separator) := st in
    match tokens with
    | [] => Ok st
    | TMove v :: tokens' =>
        match separator with
        | None => loop tokens' (head ++ [v], tail, separator)
        | Some _ => loop tokens' (head, tail ++ [v], separator)
        end
    | TSeparator v :: tokens' =>
        match separator with
        | Some _ => Err ErrMultipleSeparators
        | None => loop tokens' (head, tail, Some v)
        end
    | TGroup v :: tokens' =>
        match expand v with
        | Err e => Err e
        | Ok toks =>
            match separator with
            | None => loop tokens' (head ++ toks, tail, separator)
            | Some _ => loop tokens' (head, tail ++ toks, separator)
            end
        end
    end.

(** [out]: [res] repeated [Factor] times when [Factor > 1].  This is the
    value of [out] once [make([]Move, 0, len(res)*g.Factor)] has returned;
    the panic of that call is in [expandFinish_run] and [Expand_run]
    below. *)
Definition repeatMoves (res : list Move) (factor : Z) : list Move :=
  if factor >? 1
  then Nat.iter (Z.to_nat factor) (fun out => out ++ res) []
  else res.

Definition isSome {A : Type} (o : option A) : bool :=
  match o with Some _ => true | None => false end.

(** What [Expand] does after its loop. *)
Definition expandFinish (gt : GroupType) (factor : Z) (st : expandState)
  : result (list Move) :=
  let '(head, tail, separator) := st in
  let res := head ++ tail in
  if isSome separator && negb (GroupType_eqb gt GroupTypeComm)
  then Err ErrSeparatorGroup
  else
    let res :=
      match separator with
      | Some SepConjugate => res ++ ReverseMoves head
      | _ => res
      end in
    let res :=
      match separator with
      | Some SepCommutator => (res ++ ReverseMoves head) ++ ReverseMoves tail
      | _ => res
      end in
    NormalizeMoves (repeatMoves res factor).

Fixpoint Expand (g : Group) : result (list Move) :=
  match g with
  | mkGroup tokens factor gt =>
      match expandLoop Expand tokens ([], [], None) with
      | Err e => Err e
      | Ok st => expandFinish gt factor st
      end
  end.

(* ----------------------------------------------------------------- *)
(** *** The tokenizer *)

(** The capture groups of [reToken]; [FindStringSubmatch] returns them after
    the whole match, whose length is the sum of theirs. *)
Record submatches : Type := mkSubmatches {
  sm_slices : list ascii;
  sm_face : ascii;
  sm_wide : list ascii;
  sm_rotations : list ascii;
  sm_prime : list ascii;
  sm_end : list ascii
}.

Definition isFace (ch : ascii) : bool :=
  existsb (Ascii.eqb ch)
    ["U"; "L"; "F"; "R"; "B"; "D"; "M"; "E"; "S"; "x"; "y"; "z"]%char.

Definition isEnd (ch : ascii) : bool :=
  existsb (Ascii.eqb ch) [" "; "]"; ")"; ","; ":"]%char.

(** A greedy [c?]: the character when the class [p] accepts it. *)
Definition optional (p : ascii -> bool) (input : list ascii)
  : list ascii * list ascii :=
  match input with
  | ch :: rest => if p ch then ([ch], rest) else ([], input)
  | [] => ([], input)
  end.

(** The pattern after the group [slices]: the face is the only mandatory
    character, every later group is a greedy optional that cannot fail. *)
Definition reToken_face (slices input : list ascii) : option submatches :=
  match input with
  | f :: rest =>
      if isFace f then
        let '(wide, rest) := optional (Ascii.eqb "w") rest in
        let '(rotations, rest) := optional isDigit rest in
        let '(prime, rest) := optional (Ascii.eqb "'") rest in
        let '(end_, _) := optional isEnd rest in
        Some (mkSubmatches slices f wide rotations prime end_)
      else None
  | [] => None
  end.

(** [reToken.FindStringSubmatch]: the pattern is anchored at the start; the
    leading [\d?] first takes a digit and gives it back when the rest of
    the pattern fails (leftmost-first matching). *)
Definition reToken (input : list ascii) : option submatches :=
  match input with
  | d :: rest =>
      if isDigit d then
        match reToken_face [d] rest with
        | Some m => Some m
        | None => reToken_face [] input
        end
      else reToken_face [] input
  | [] => reToken_face [] input
  end.

Definition len {A : Type} (l : list A) : Z := Z.of_nat (List.length l).

Definition match0 (m : submatches) : list ascii :=
  sm_slices m ++ [sm_face m] ++ sm_wide m ++ sm_rotations m ++ sm_prime m
  ++ sm_end m.

Definition bytes_eqb (a b : list ascii) : bool :=
  String.eqb (string_of_list_ascii a) (string_of_list_ascii b).

(** [extractToken] returns (token, length, err); its caller reads token and
    length only when err is nil, so the three are a [result]. *)
Definition extractToken (input : list ascii) : result (Move * Z) :=
  match reToken input with
  | Some matches =>
      match strToInt (sm_slices matches) with
      | Err e => Err e
      | Ok slices =>
          match strToInt (sm_rotations matches) with
          | Err e => Err e
          | Ok rotations =>
              let t := mkMove slices (rune_of_byte (sm_face matches))
                         (bytes_eqb (sm_wide matches) ["w"%char])
                         rotations
                         (bytes_eqb (sm_prime matches) ["'"%char]) in
              let length := len (match0 matches) - len (sm_end matches) in
              let t := Normalize t in
              match validate t with
              | Some e => Err e
              | None => Ok (t, length)
              end
          end
      end
  | None => Err ErrTokenExtraction
  end.

(* ----------------------------------------------------------------- *)
(** *** ParseNotation *)

Definition with_Factor (g : Group) (f : Z) : Group :=
  mkGroup (Tokens g) f (GroupTypeOf g).

(** The loop of [ParseNotation].  [rest] is [input[i:]]: the loop only reads
    [input[i]], [input[i+1]] and [input[i:]], and [i < len(input)] says that
    [rest] is not empty.  [stack] has its top first.  An iteration always
    moves [i] forward; [fuel] bounds the number of iterations and [None]
    means that it ran out. *)
Fixpoint parseLoop (fuel : nat) (rest : list ascii) (stack : list Group)
  (currentGroup : Group) : option (result Group) :=
  match fuel with
  | O => None
  | S fuel =>
      match rest with
      | [] =>
          if len stack >? 0 then Some (Err ErrUnclosedGroup)
          else Some (Ok currentGroup)
      | ch :: rest' =>
          if Ascii.eqb ch " " then parseLoop fuel rest' stack currentGroup
          else
            match OpenGroupTypes ch with
            | Some v => parseLoop fuel rest' (currentGroup :: stack) (NewGroup v)
            | None =>
                match CloseGroupTypes ch with
                | Some _ =>
                    let group := currentGroup in
                    match stack with
                    | [] => Some (Err ErrUnexpectedGroupClosure)
                    | top :: stack' =>
                        let currentGroup := top in
                        match rest' with
                        | d :: rest'' =>
                            if isDigit d then
                              let group := with_Factor group (digit_val d) in
                              parseLoop fuel rest'' stack'
                                (AddToken currentGroup (TGroup group))
                            else
                              parseLoop fuel rest' stack'
                                (AddToken currentGroup (TGroup group))
                        | [] =>
                            parseLoop fuel rest' stack'
                              (AddToken currentGroup (TGroup group))
                        end
                    end
                | None =>
                    match Separators ch with
                    | Some v =>
                        parseLoop fuel rest' stack
                          (AddToken currentGroup (TSeparator v))
                    | None =>
                        match extractToken rest with
                        | Err e => Some (Err e)
                        | Ok (token, end_) =>
                            parseLoop fuel (skipn (Z.to_nat end_) rest) stack
                              (AddToken currentGroup (TMove token))
                        end
                    end
                end
            end
      end
  end.

Definition ParseNotation (input : list ascii) : option (result Group) :=
  parseLoop (S (List.length input)) input [] (NewGroup groupTypeNil).

(** A Go string literal. *)
Definition str (s : string) : list ascii := list_ascii_of_string s.

(** Parse, then expand. *)
Definition parseExpand (input : list ascii) : option (result (list Move)) :=
  match ParseNotation input with
  | None => None
  | Some (Err e) => Some (Err e)
  | Some (Ok g) => Some (Expand g)
  end.

Definition mv (op : ascii) (rot : Z) (inv : bool) : Move :=
  mkMove 0 (rlit op) false rot inv.


(* ================================================================= *)
(** ** The cube engine *)

Inductive axis : Type :=
  | axisX
  | axisY
  | axisZ.

Record tile : Type := mkTile {
  coordinate : Z;
  coordinateStart : Z;
  color : rune
}.

(** A piece owns its three tiles: [newPiece] allocates them and no other
    piece ever refers to them, so a piece is the triple of their values. *)
Record piece : Type := mkPiece {
  p_x : tile;
  p_y : tile;
  p_z : tile
}.

Record turn : Type := mkTurn {
  turn_axis : axis;
  layerMin : Z;
  layerMax : Z;
  rotations : Z;
  clockwise : bool
}.

Record Cube : Type := mkCube {
  max : Z;
  pieces : list piece
}.

Definition Dimension (c : Cube) : Z := wrap (max c + 1).

Definition newTile (coord : Z) (color : rune) : tile :=
  mkTile coord coord color.

Definition colorize (max coord : Z) (c0 cMax : rune) : rune :=
  if coord =? 0 then c0
  else if coord =? max then cMax
  else 0.

Definition newPiece (max x y z : Z) : piece :=
  mkPiece (newTile x (colorize max x (rlit "o") (rlit "r")))
          (newTile y (colorize max y (rlit "y") (rlit "w")))
          (newTile z (colorize max z (rlit "b") (rlit "g"))).

(** The closure [isInner] of [NewCube]. *)
Fixpoint isInner (max : Z) (pos : list Z) : bool :=
  match pos with
  | [] => true
  | p :: pos' => if (p =? 0) || (p =? max) then false else isInner max pos'
  end.

(** [for x := range size]: the values [0, 1, ..., size-1]. *)
Definition range (size : Z) : list Z :=
  map Z.of_nat (seq 0 (Z.to_nat size)).

(** The cube that [NewCube] builds: its three loops and the struct it
    returns.  The call [make([]*piece, 0, n)] that comes before the loops
    can panic; the whole function, with that call, is [NewCube_run]
    below. *)
Definition NewCube (size : Z) : Cube :=
  let max := wrap (size - 1) in
  mkCube max
    (flat_map (fun x =>
       flat_map (fun y =>
         flat_map (fun z =>
           if isInner max [x; y; z] then []
           else [newPiece max x y z])
         (range size))
       (range size))
     (range size)).

(** The capacity [n] that [NewCube] asks for its slice of pieces. *)
Definition NewCube_n (size : Z) : Z :=
  wrap (pow size 3 - pow (wrap (size - 2)) 3).

(** [make([]T, 0, n)] panics when the capacity [n] is negative.  (The limit
    that the runtime puts on the size of one allocation depends on the
    machine and is not modelled.) *)
Definition makePanics (n : Z) : bool := n <? 0.

(** [NewCube] as a run of the function: [None] is the panic of
    [make([]*piece, 0, n)]; when [make] returns, the loops build the cube
    [NewCube size]. *)
Definition NewCube_run (size : Z) : option Cube :=
  if makePanics (NewCube_n size) then None else Some (NewCube size).

(** One pass of the loop of [turnAxis] on the tiles [t1] and [t2]. *)
Definition turnAxisStep (c_max : Z) (direction : bool) (ts : tile * tile)
  : tile * tile :=
  let '(t1, t2) := ts in
  let '(c1, c2) :=
    if direction
    then (wrap (c_max - coordinate t2), coordinate t1)
    else (coordinate t2, wrap (c_max - coordinate t1)) in
  (mkTile c1 (coordinateStart t1) (color t2),
   mkTile c2 (coordinateStart t2) (color t1)).

(** [turnAxis]: the tiles after the call; [for range rotations] runs
    [rotations] times, and not at all when [rotations <= 0]. *)
Definition turnAxis (c : Cube) (t1 t2 : tile) (direction : bool)
  (rotations : Z) : tile * tile :=
  Nat.iter (Z.to_nat rotations) (turnAxisStep (max c) direction) (t1, t2).

Definition inRange (t : turn) (n : Z) : bool :=
  (layerMin t <=? n) && (n <=? layerMax t).

(** The body of the loop of [turn] for the piece [p]. *)
Definition turnPiece (c : Cube) (t : turn) (p : piece) : piece :=
  match turn_axis t with
  | axisX =>
      if inRange t (coordinate (p_x p)) then
        let '(y', z') := turnAxis c (p_y p) (p_z p) (clockwise t) (rotations t) in
        mkPiece (p_x p) y' z'
      else p
  | axisY =>
      if inRange t (coordinate (p_y p)) then
        let '(x', z') := turnAxis c (p_x p) (p_z p) (clockwise t) (rotations t) in
        mkPiece x' (p_y p) z'
      else p
  | axisZ =>
      if inRange t (coordinate (p_z p)) then
        let '(x', y') := turnAxis c (p_x p) (p_y p) (clockwise t) (rotations t) in
        mkPiece x' y' (p_z p)
      else p
  end.

(** The method [turn] of [Cube]. *)
Definition Cube_turn (c : Cube) (t : turn) : Cube :=
  mkCube (max c) (map (turnPiece c t) (pieces c)).

(** [ExecuteMove]: the cube after the call and the error returned. *)
Definition ExecuteMove (c : Cube) (move : Move) : Cube * option error :=
  let layerMin := max c in
  let layerMax := max c in
  let layerMin :=
    if Wide move then wrap (layerMin - wrap (Slices move - 1)) else layerMin in
  if layerMin <? 0 then (c, Some ErrSliceParam)
  else
    let '(layerMin, layerMax) :=
      if isAny move [rlit "L"; rlit "B"; rlit "D"; rlit "E"]
      then (wrap (max c - layerMax), wrap (max c - layerMin))
      else if isAny move [rlit "x"; rlit "y"; rlit "z"]
      then (0, max c)
      else (layerMin, layerMax) in
    let clockwise := negb (Inverted move) in
    let clockwise :=
      if isAny move [rlit "R"; rlit "F"; rlit "D"; rlit "E"; rlit "S";
                     rlit "x"; rlit "z"]
      then negb clockwise else clockwise in
    let axis :=
      if isAny move [rlit "F"; rlit "B"; rlit "S"; rlit "z"] then axisZ
      else if isAny move [rlit "U"; rlit "D"; rlit "E"; rlit "y"] then axisY
      else axisX in
    if isAny move [rlit "M"; rlit "E"; rlit "S"] then
      if Z.rem (max c) 2 =? 1 then (c, None)
      else
        let layerMin := Z.quot (max c) 2 in
        let layerMax := layerMin in
        (Cube_turn c (mkTurn axis layerMin layerMax (Rotations move) clockwise),
         None)
    else
      (Cube_turn c (mkTurn axis layerMin layerMax (Rotations move) clockwise),
       None).

(** [ExecuteMoves]: the cube after the call, which is also the receiver the
    method returns; the error of each [ExecuteMove] is dropped. *)
Definition ExecuteMoves (c : Cube) (moves : list Move) : Cube :=
  fold_left (fun c m => fst (ExecuteMove c m)) moves c.


(* ================================================================= *)
(** ** Definitions used by the statements *)




(** The bracket group [[A : B]] of two move sequences, and the group that
    holds one move sequence. *)
Definition conjugateGroup (A B : list Move) : Group :=
  mkGroup (map TMove A ++ TSeparator SepConjugate :: map TMove B)
          1 GroupTypeComm.

Definition movesGroup (A : list Move) : Group :=
  mkGroup (map TMove A) 1 GroupTypeComm.

(** The three tiles of a piece. *)
Definition tiles (p : piece) : list tile := [p_x p; p_y p; p_z p].

Definition axisCoordinate (a : axis) (p : piece) : Z :=
  match a with
  | axisX => coordinate (p_x p)
  | axisY => coordinate (p_y p)
  | axisZ => coordinate (p_z p)
  end.

(** A cube of size [N] is well shaped when [max] is [N-1], every piece has
    three tiles and every tile coordinate is in [[0, N-1]]. *)
Definition tile_ok (N : Z) (t : tile) : Prop := 0 <= coordinate t <= N - 1.

Definition piece_ok (N : Z) (p : piece) : Prop :=
  List.length (tiles p) = 3%nat /\ Forall (tile_ok N) (tiles p).

Definition cube_ok (N : Z) (c : Cube) : Prop :=
  max c = N - 1 /\ Forall (piece_ok N) (pieces c).

(** The cubes that a program can hold: made by [NewCube], then changed by
    [ExecuteMove] and [ExecuteMoves] only (the fields are not exported). *)
Inductive reachable (N : Z) : Cube -> Prop :=
  | reach_NewCube : reachable N (NewCube N)
  | reach_ExecuteMove (c : Cube) (m : Move) :
      reachable N c -> reachable N (fst (ExecuteMove c m))
  | reach_ExecuteMoves (c : Cube) (ms : list Move) :
      reachable N c -> reachable N (ExecuteMoves c ms).

(** Every [int] held by the cube is a 64-bit value. *)
Definition tile_int (t : tile) : Prop := in_int (coordinate t).

Definition cube_int (c : Cube) : Prop :=
  in_int (max c)
  /\ Forall (fun p => Forall tile_int (tiles p)) (pieces c).

(** [layerMin] when [ExecuteMove] tests it against 0. *)
Definition guardLayerMin (c : Cube) (move : Move) : Z :=
  if Wide move then wrap (max c - wrap (Slices move - 1)) else max c.

(** The turn of the centre layer that a middle-slice move asks for. *)
Definition centerTurn (c : Cube) (move : Move) (a : axis) : turn :=
  mkTurn a (Z.quot (max c) 2) (Z.quot (max c) 2) (Rotations move)
    (if Operator move =? rlit "M" then negb (Inverted move)
     else Inverted move).

(** The faces M, E and S with their axes. *)
Definition middleSlice (move : Move) (a : axis) : Prop :=
  (Operator move = rlit "M" /\ a = axisX)
  \/ (Operator move = rlit "E" /\ a = axisY)
  \/ (Operator move = rlit "S" /\ a = axisZ).

(** A shell point of the lattice of a cube of size [N]. *)
Definition shellPoint (N x y z : Z) : Prop :=
  (0 <= x <= N - 1 /\ 0 <= y <= N - 1 /\ 0 <= z <= N - 1)
  /\ (x = 0 \/ x = N - 1 \/ y = 0 \/ y = N - 1 \/ z = 0 \/ z = N - 1).

(** The piece [p] with its two tiles off the axis [a] passed to
    [turnAxis]. *)
Definition rotatePiece (c : Cube) (a : axis) (direction : bool) (rots : Z)
  (p : piece) : piece :=
  match a with
  | axisX =>
      let '(y', z') := turnAxis c (p_y p) (p_z p) direction rots in
      mkPiece (p_x p) y' z'
  | axisY =>
      let '(x', z') := turnAxis c (p_x p) (p_z p) direction rots in
      mkPiece x' (p_y p) z'
  | axisZ =>
      let '(x', y') := turnAxis c (p_x p) (p_y p) direction rots in
      mkPiece x' y' (p_z p)
  end.

(** What [Normalize] makes of the rotation count, once reduced by [% 4],
    and of the inverted flag. *)
Definition normRotations (q : Z) (inv : bool) : Z * bool :=
  if q =? 0 then (1, inv)
  else if q =? 3 then (1, negb inv)
  else if q <? 0 then (wrap (q * -1), negb inv)
  else (q, inv).

(** [cube_int], decided. *)
Definition in_intb (z : Z) : bool := (- 2 ^ 63 <=? z) && (z <? 2 ^ 63).

Definition cube_intb (c : Cube) : bool :=
  in_intb (max c)
  && forallb (fun p => forallb (fun t => in_intb (coordinate t)) (tiles p))
       (pieces c).

(** A coordinate strictly between the two ends. *)
Definition inner1 (max v : Z) : bool := negb ((v =? 0) || (v =? max)).

(* ----------------------------------------------------------------- *)
(** *** Expand as a run, with the panic of [make] *)

(** The loop over [g.Tokens] when the expansion of a sub-group can panic:
    [None] is a panic, which ends the run. *)
Definition expandLoop_run (expand : Group -> option (result (list Move))) :=
  fix loop (tokens : list Tokenizable) (st : expandState)
    {struct tokens} : option (result expandState) :=
    let '(head, tail, separator) := st in
    match tokens with
    | [] => Some (Ok st)
    | TMove v :: tokens' =>
        match separator with
        | None => loop tokens' (head ++ [v], tail, separator)
        | Some _ => loop tokens' (head, tail ++ [v], separator)
        end
    | TSeparator v :: tokens' =>
        match separator with
        | Some _ => Some (Err ErrMultipleSeparators)
        | None => loop tokens' (head, tail, Some v)
        end
    | TGroup v :: tokens' =>
        match expand v with
        | None => None
        | Some (Err e) => Some (Err e)
        | Some (Ok toks) =>
            match separator with
            | None => loop tokens' (head ++ toks, tail, separator)
            | Some _ => loop tokens' (head, tail ++ toks, separator)
            end
        end
    end.

(** What [Expand] does after its loop.  When [Factor > 1] it calls
    [make([]Move, 0, len(res)*g.Factor)]; the product is an [int] and the
    call panics when it is negative. *)
Definition expandFinish_run (gt : GroupType) (factor : Z) (st : expandState)
  : option (result (list Move)) :=
  let '(head, tail, separator) := st in
  let res := head ++ tail in
  if isSome separator && negb (GroupType_eqb gt GroupTypeComm)
  then Some (Err ErrSeparatorGroup)
  else
    let res :=
      match separator with
      | Some SepConjugate => res ++ ReverseMoves head
      | _ => res
      end in
    let res :=
      match separator with
      | Some SepCommutator => (res ++ ReverseMoves head) ++ ReverseMoves tail
      | _ => res
      end in
    if (factor >? 1) && makePanics (wrap (len res * factor)) then None
    else Some (NormalizeMoves (repeatMoves res factor)).

Fixpoint Expand_run (g : Group) : option (result (list Move)) :=
  match g with
  | mkGroup tokens factor gt =>
      match expandLoop_run Expand_run tokens ([], [], None) with
      | None => None
      | Some (Err e) => Some (Err e)
      | Some (Ok st) => expandFinish_run gt factor st
      end
  end.

(* ----------------------------------------------------------------- *)
(** *** Further definitions used by the statements *)

(** What the loop of [ReverseMoves] does to one move. *)
Definition invertMove (m : Move) : Move :=
  with_Inverted m (negb (Inverted m)).

(** The bracket group [[A , B]] of two move sequences. *)
Definition commutatorGroup (A B : list Move) : Group :=
  mkGroup (map TMove A ++ TSeparator SepCommutator :: map TMove B)
          1 GroupTypeComm.

(** A move as [extractToken] returns it. *)
Definition canonicalMove (t : Move) : Prop :=
  (Rotations t = 1 \/ Rotations t = 2)
  /\ 0 <= Slices t <= 9
  /\ (Wide t = false -> Slices t = 0)
  /\ (Wide t = true -> 1 <= Slices t)
  /\ (isAny t [rlit "x"; rlit "y"; rlit "z"] = true ->
      Slices t = 0 /\ Wide t = false)
  /\ Normalize t = t.

(** The turn that [ExecuteMove] passes to [turn]; [None] when it returns
    before (the slice error, or a middle-slice move on a cube of even
    size). *)
Definition moveTurn (c : Cube) (move : Move) : option turn :=
  let layerMin := max c in
  let layerMax := max c in
  let layerMin :=
    if Wide move then wrap (layerMin - wrap (Slices move - 1)) else layerMin in
  if layerMin <? 0 then None
  else
    let '(layerMin, layerMax) :=
      if isAny move [rlit "L"; rlit "B"; rlit "D"; rlit "E"]
      then (wrap (max c - layerMax), wrap (max c - layerMin))
      else if isAny move [rlit "x"; rlit "y"; rlit "z"]
      then (0, max c)
      else (layerMin, layerMax) in
    let clockwise := negb (Inverted move) in
    let clockwise :=
      if isAny move [rlit "R"; rlit "F"; rlit "D"; rlit "E"; rlit "S";
                     rlit "x"; rlit "z"]
      then negb clockwise else clockwise in
    let axis :=
      if isAny move [rlit "F"; rlit "B"; rlit "S"; rlit "z"] then axisZ
      else if isAny move [rlit "U"; rlit "D"; rlit "E"; rlit "y"] then axisY
      else axisX in
    if isAny move [rlit "M"; rlit "E"; rlit "S"] then
      if Z.rem (max c) 2 =? 1 then None
      else
        let layerMin := Z.quot (max c) 2 in
        let layerMax := layerMin in
        Some (mkTurn axis layerMin layerMax (Rotations move) clockwise)
    else Some (mkTurn axis layerMin layerMax (Rotations move) clockwise).

(** The same turn in the other direction. *)
Definition flipTurn (t : turn) : turn :=
  mkTurn (turn_axis t) (layerMin t) (layerMax t) (rotations t)
         (negb (clockwise t)).

(** The colors and the start coordinates of the three tiles of a piece. *)
Definition pieceColors (p : piece) : list rune := map color (tiles p).

Definition pieceStarts (p : piece) : list Z := map coordinateStart (tiles p).

(* ----------------------------------------------------------------- *)
(** *** Face buffers *)

Record CubeFaces : Type := mkCubeFaces {
  Up : list rune;
  Left : list rune;
  Front : list rune;
  Right : list rune;
  Back : list rune;
  Down : list rune
}.

(** [All] returns pointers to the six fields; a pointer is modelled by the
    slice it points to. *)
Definition All (cf : CubeFaces) : list (list rune) :=
  [Up cf; Left cf; Front cf; Right cf; Back cf; Down cf].

(** [isEqualLength]: the variadic parameter [slices] is the list of its
    arguments. *)
Definition isEqualLength {T : Type} (slices : list (list T)) : bool :=
  match slices with
  | [] => true
  | first :: rest =>
      forallb (fun slice => len slice =? len first) rest
  end.

(** [Validate].  The call [isEqualLength(cf.All())] passes the slice of six
    pointers as the one and only variadic argument ([T] is the pointer
    type), so [slices] has the single element [cf.All()].
    [isPerfectSquare] rounds through a float64 square root and is taken as
    a parameter. *)
Definition Validate (isPerfectSquare : Z -> bool) (cf : CubeFaces)
  : option error :=
  if negb (isEqualLength [All cf]) then Some ErrFaceLengthsDiffer
  else if negb (isPerfectSquare (len (Left cf)))
  then Some ErrFaceNotPerfectSquare
  else None.

(* ----------------------------------------------------------------- *)
(** *** Faces *)

(** [make([]rune, n)]: [n] zero runes; it panics ([None]) for a negative
    [n]. *)
Definition makeRunes (n : Z) : option (list rune) :=
  if n <? 0 then None else Some (repeat 0 (Z.to_nat n)).

(** [buf[index] = v]; an index out of range panics ([None]). *)
Definition writeAt (buf : list rune) (index : Z) (v : rune)
  : option (list rune) :=
  if (0 <=? index) && (index <? len buf)
  then Some (set_nth (Z.to_nat index) v buf)
  else None.

(** One [if] of the loop of [Faces]: the index and the color that it
    writes for the piece [p], if its condition holds. *)
Definition upWrite (c : Cube) (numSide : Z) (p : piece) : option (Z * rune) :=
  if coordinate (p_y p) =? max c
  then Some (wrap (coordinate (p_x p) + wrap (coordinate (p_z p) * numSide)),
             color (p_y p))
  else None.

Definition downWrite (c : Cube) (numSide : Z) (p : piece)
  : option (Z * rune) :=
  if coordinate (p_y p) =? 0
  then Some (wrap (wrap (wrap (max c - coordinate (p_z p)) * numSide)
                   + coordinate (p_x p)),
             color (p_y p))
  else None.

Definition leftWrite (c : Cube) (numSide : Z) (p : piece)
  : option (Z * rune) :=
  if coordinate (p_x p) =? 0
  then Some (wrap (wrap (wrap (max c - coordinate (p_y p)) * numSide)
                   + coordinate (p_z p)),
             color (p_x p))
  else None.

Definition rightWrite (c : Cube) (numSide : Z) (p : piece)
  : option (Z * rune) :=
  if coordinate (p_x p) =? max c
  then Some (wrap (wrap (wrap (max c - coordinate (p_y p)) * numSide)
                   + wrap (max c - coordinate (p_z p))),
             color (p_x p))
  else None.

Definition backWrite (c : Cube) (numSide : Z) (p : piece)
  : option (Z * rune) :=
  if coordinate (p_z p) =? 0
  then Some (wrap (wrap (max c - coordinate (p_x p))
                   + wrap (wrap (max c - coordinate (p_y p)) * numSide)),
             color (p_z p))
  else None.

Definition frontWrite (c : Cube) (numSide : Z) (p : piece)
  : option (Z * rune) :=
  if coordinate (p_z p) =? max c
  then Some (wrap (coordinate (p_x p)
                   + wrap (wrap (max c - coordinate (p_y p)) * numSide)),
             color (p_z p))
  else None.

Definition applyWrite (buf : list rune) (w : option (Z * rune))
  : option (list rune) :=
  match w with
  | Some (index, v) => writeAt buf index v
  | None => Some buf
  end.

(** The body of the loop of [Faces], in the order of the source: up, down,
    left, right, back, front. *)
Definition facesStep (c : Cube) (numSide : Z) (f : CubeFaces) (p : piece)
  : option CubeFaces :=
  match applyWrite (Up f) (upWrite c numSide p) with
  | None => None
  | Some up' =>
  match applyWrite (Down f) (downWrite c numSide p) with
  | None => None
  | Some down' =>
  match applyWrite (Left f) (leftWrite c numSide p) with
  | None => None
  | Some left' =>
  match applyWrite (Right f) (rightWrite c numSide p) with
  | None => None
  | Some right' =>
  match applyWrite (Back f) (backWrite c numSide p) with
  | None => None
  | Some back' =>
  match applyWrite (Front f) (frontWrite c numSide p) with
  | None => None
  | Some front' => Some (mkCubeFaces up' left' front' right' back' down')
  end end end end end end.

Fixpoint facesLoop (c : Cube) (numSide : Z) (ps : list piece) (f : CubeFaces)
  : option CubeFaces :=
  match ps with
  | [] => Some f
  | p :: ps' =>
      match facesStep c numSide f p with
      | None => None
      | Some f' => facesLoop c numSide ps' f'
      end
  end.

(** [Faces]; [None] stands for a run-time panic. *)
Definition Faces (c : Cube) : option CubeFaces :=
  let numSide := Dimension c in
  let numTiles := wrap (numSide * numSide) in
  match makeRunes numTiles with
  | None => None
  | Some zero =>
      facesLoop c numSide (pieces c)
        (mkCubeFaces zero zero zero zero zero zero)
  end.

(** The writes of one face alone. *)
Fixpoint faceWrites (sel : piece -> option (Z * rune)) (ps : list piece)
  (buf : list rune) : option (list rune) :=
  match ps with
  | [] => Some buf
  | p :: ps' =>
      match applyWrite buf (sel p) with
      | None => None
      | Some buf' => faceWrites sel ps' buf'
      end
  end.

(* ----------------------------------------------------------------- *)
(** *** Well-formed parse trees *)

(** The tokens that [ParseNotation] puts in a group: canonical moves,
    separators, and nested groups that come from a delimiter, with a factor
    of one digit. *)
Inductive wfToken : Tokenizable -> Prop :=
  | wf_move (m : Move) : canonicalMove m -> wfToken (TMove m)
  | wf_separator (v : Separator) : wfToken (TSeparator v)
  | wf_group (ts : list Tokenizable) (factor : Z) (gt : GroupType) :
      gt <> groupTypeNil -> 0 <= factor <= 9 -> Forall wfToken ts ->
      wfToken (TGroup (mkGroup ts factor gt)).

(** The groups in progress: the one at the bottom of the stack (or the
    current one when the stack is empty) is the root, of type nil; every
    other one was opened by a delimiter. *)
Fixpoint chain (currentType : GroupType) (stack : list Group) : Prop :=
  match stack with
  | [] => currentType = groupTypeNil
  | top :: stack' =>
      currentType <> groupTypeNil /\ chain (GroupTypeOf top) stack'
  end.

Definition inProgress (g : Group) : Prop :=
  Factor g = 1 /\ Forall wfToken (Tokens g).

(** Opening and closing delimiters, counted. *)
Definition isOpen (ch : ascii) : bool := isSome (OpenGroupTypes ch).

Definition isClose (ch : ascii) : bool := isSome (CloseGroupTypes ch).

Definition countIf (p : ascii -> bool) (input : list ascii) : nat :=
  List.length (filter p input).

(** The characters of a token: what [reToken] captures before [end]. *)
Definition tokenChar (ch : ascii) : bool :=
  isDigit ch || isFace ch || Ascii.eqb "w" ch || Ascii.eqb "'" ch.

Definition tokenBody (m : submatches) : list ascii :=
  sm_slices m ++ [sm_face m] ++ sm_wide m ++ sm_rotations m ++ sm_prime m.

(** The turn [t] with another rotation count and, if [flip], the other
    direction. *)
Definition retarget (t : turn) (rots : Z) (flip : bool) : turn :=
  mkTurn (turn_axis t) (layerMin t) (layerMax t) rots
         (if flip then negb (clockwise t) else clockwise t).

(* ----------------------------------------------------------------- *)
(** *** Invariants of the two tiles of a turn *)

(** Both coordinates are 64-bit values. *)
Definition pair_int (s : tile * tile) : Prop :=
  tile_int (fst s) /\ tile_int (snd s).

(** What a turn keeps of two tiles, and of a piece: the start
    coordinates, and the colors up to their order. *)
Definition pair_kept (s s' : tile * tile) : Prop :=
  coordinateStart (fst s') = coordinateStart (fst s)
  /\ coordinateStart (snd s') = coordinateStart (snd s)
  /\ Permutation [color (fst s'); color (snd s')]
                 [color (fst s); color (snd s)].

Definition piece_kept (p q : piece) : Prop :=
  pieceStarts q = pieceStarts p
  /\ Permutation (pieceColors q) (pieceColors p).

(* ----------------------------------------------------------------- *)
(** *** Stickers *)

(** The six colors that [newPiece] gives out. *)
Definition isColor (v : rune) : bool :=
  existsb (Z.eqb v)
    [rlit "w"; rlit "o"; rlit "g"; rlit "r"; rlit "b"; rlit "y"].

(** A coordinate on one of the two faces of its axis. *)
Definition onFace (N v : Z) : bool := (v =? 0) || (v =? N - 1).

(** A tile carries a color exactly when it is on a face of its axis;
    elsewhere it has the zero rune that [colorize] returns. *)
Definition sticker (N : Z) (t : tile) : Prop :=
  if onFace N (coordinate t) then isColor (color t) = true else color t = 0.

(** The position of a piece, and a piece on the shell. *)
Definition coords (p : piece) : Z * Z * Z :=
  (coordinate (p_x p), coordinate (p_y p), coordinate (p_z p)).

Definition onShell (N : Z) (p : piece) : bool :=
  onFace N (coordinate (p_x p)) || onFace N (coordinate (p_y p))
  || onFace N (coordinate (p_z p)).

(** Every shell point holds a piece. *)
Definition covered (N : Z) (c : Cube) : Prop :=
  forall x y z, shellPoint N x y z ->
    exists p, In p (pieces c) /\ coords p = (x, y, z).

Definition solid (N : Z) (c : Cube) : Prop :=
  cube_ok N c
  /\ Forall (fun p => Forall (sticker N) (tiles p) /\ onShell N p = true)
       (pieces c)
  /\ covered N c.

(** Two tiles as [turnAxis] holds them. *)
Definition pairCoords (s : tile * tile) : Z * Z :=
  (coordinate (fst s), coordinate (snd s)).

Definition pair_sticker (N : Z) (s : tile * tile) : Prop :=
  tile_ok N (fst s) /\ tile_ok N (snd s)
  /\ sticker N (fst s) /\ sticker N (snd s).

Definition pair_face (N : Z) (e : bool) (s : tile * tile) : Prop :=
  tile_ok N (fst s) /\ tile_ok N (snd s)
  /\ onFace N (coordinate (fst s)) || onFace N (coordinate (snd s)) = e.

(** A piece at a position, without colors. *)
Definition pieceAt (x y z : Z) : piece :=
  mkPiece (mkTile x x 0) (mkTile y y 0) (mkTile z z 0).

(** No two pieces at one position. *)
Definition distinct (c : Cube) : Prop := NoDup (map coords (pieces c)).

(** What one [if] of the loop of [Faces] writes, as a list, and the writes
    of all the pieces on one face, in the order of the loop. *)
Definition oneWrite (w : option (Z * rune)) : list (Z * rune) :=
  match w with
  | Some iv => [iv]
  | None => []
  end.

Definition written (sel : piece -> option (Z * rune)) (ps : list piece)
  : list (Z * rune) :=
  flat_map (fun p => oneWrite (sel p)) ps.

(** The six writes of the loop of [Faces]. *)
Definition faceSels (c : Cube) (numSide : Z)
  : list (piece -> option (Z * rune)) :=
  [upWrite c numSide; downWrite c numSide; leftWrite c numSide;
   rightWrite c numSide; backWrite c numSide; frontWrite c numSide].

(** The colors of all the tiles of a cube, and the cells of its six
    faces. *)
Definition tileColors (ps : list piece) : list rune :=
  flat_map pieceColors ps.

Definition faceCells (cf : CubeFaces) : list rune := concat (All cf).

(** How often the rune [k] occurs. *)
Definition countRune (k : rune) (l : list rune) : nat :=
  count_occ Z.eq_dec l k.

(* ================================================================= *)
(** * Properties *)

(* ================================================================= *)
(** ** Machine integers *)

Lemma wrap_small (z : Z) : in_int z -> wrap z = z.
Proof.
  unfold in_int, wrap. intros H.
  rewrite Z.mod_small; lia.
Qed.

Lemma wrap_in_int (z : Z) : in_int (wrap z).
Proof.
  unfold in_int, wrap.
  pose proof (Z.mod_pos_bound (z + 2 ^ 63) (2 ^ 64) ltac:(lia)). lia.
Qed.

Lemma wrap_sub_wrap_r (a b : Z) : wrap (a - wrap b) = wrap (a - b).
Proof.
  unfold wrap.
  replace (a - ((b + 2 ^ 63) mod 2 ^ 64 - 2 ^ 63) + 2 ^ 63)
    with ((a + 2 ^ 63 + 2 ^ 63) - (b + 2 ^ 63) mod 2 ^ 64) by lia.
  rewrite Zminus_mod_idemp_r. f_equal. f_equal. lia.
Qed.

(* ================================================================= *)
(** ** Move normalization *)

Lemma rem4_cases (z : Z) :
  let q := Z.rem z 4 in
  q = -3 \/ q = -2 \/ q = -1 \/ q = 0 \/ q = 1 \/ q = 2 \/ q = 3.
Proof.
  intros q. subst q.
  destruct (Z_lt_le_dec z 0) as [Hneg | Hpos].
  - pose proof (Z.rem_bound_pos_neg z 4 ltac:(lia) ltac:(lia)). lia.
  - pose proof (Z.rem_bound_pos z 4 Hpos ltac:(lia)). lia.
Qed.

(** [Normalize] field by field. *)
Lemma Normalize_fields (m : Move) :
  Normalize m
  = mkMove (if (Slices m =? 0) && Wide m then 2 else Slices m)
           (Operator m) (Wide m)
           (fst (normRotations (Z.rem (Rotations m) 4) (Inverted m)))
           (snd (normRotations (Z.rem (Rotations m) 4) (Inverted m))).
Proof.
  destruct m as [sl op wd rot inv].
  cbv [Normalize normRotations with_Rotations with_Slices with_Inverted
       Rotations Slices Wide Inverted Operator].
  destruct ((sl =? 0) && wd);
    cbv [Rotations Slices Wide Inverted Operator];
    destruct (Z.rem rot 4 =? 0); try reflexivity;
    destruct (Z.rem rot 4 =? 3); try reflexivity;
    destruct (Z.rem rot 4 <? 0); reflexivity.
Qed.

Lemma normRotations_again (q : Z) (inv : bool) :
  q = -2 \/ q = -1 \/ q = 0 \/ q = 1 \/ q = 2 \/ q = 3 ->
  normRotations (Z.rem (fst (normRotations q inv)) 4)
                (snd (normRotations q inv))
  = normRotations q inv.
Proof.
  intros [-> | [-> | [-> | [-> | [-> | ->]]]]]; destruct inv;
    vm_compute; reflexivity.
Qed.

(** Outside the residue [-3] a second [Normalize] changes nothing. *)
Lemma Normalize_idempotent_except (m : Move) :
  Z.rem (Rotations m) 4 <> -3 ->
  Normalize (Normalize m) = Normalize m.
Proof.
  intros Hne.
  rewrite (Normalize_fields (Normalize m)), (Normalize_fields m).
  cbn [Rotations Slices Wide Inverted Operator].
  rewrite normRotations_again
    by (pose proof (rem4_cases (Rotations m)) as H; cbv zeta in H; lia).
  f_equal.
  destruct (Z.eqb_spec (Slices m) 0) as [H0 | H0], (Wide m); cbn [andb];
    try reflexivity.
  - destruct (Z.eqb_spec (Slices m) 0); [reflexivity | contradiction].
  - destruct (Z.eqb_spec (Slices m) 0); [contradiction | reflexivity].
  - destruct (Z.eqb_spec (Slices m) 0); [contradiction | reflexivity].
Qed.

(** A normalized move has its rotation count in 1, 2 or 3, and 3 only from
    the residue [-3]. *)
Lemma Normalize_Rotations (m : Move) :
  Rotations (Normalize m) = 1 \/ Rotations (Normalize m) = 2
  \/ (Rotations (Normalize m) = 3 /\ Z.rem (Rotations m) 4 = -3).
Proof.
  rewrite Normalize_fields. cbn [Rotations].
  destruct (rem4_cases (Rotations m)) as [H | [H | [H | [H | [H | [H | H]]]]]];
    rewrite H; destruct (Inverted m); vm_compute; auto.
Qed.

(** C5 (the code at the failing input).  For the move R with
    [Rotations = -3] one call of [Normalize] returns rotation count 3 with the
    inverted flag set, and a second call returns rotation count 1 with the
    flag cleared: the two results differ, so normalizing twice is not the
    same as normalizing once. *)
Theorem Normalize_twice_at_minus_three :
  Normalize (mkMove 0 (rlit "R") false (-3) false)
  = mkMove 0 (rlit "R") false 3 true
  /\ Normalize (Normalize (mkMove 0 (rlit "R") false (-3) false))
     = mkMove 0 (rlit "R") false 1 false
  /\ Normalize (Normalize (mkMove 0 (rlit "R") false (-3) false))
     <> Normalize (mkMove 0 (rlit "R") false (-3) false).
Proof.
  repeat split; try reflexivity. discriminate.
Qed.

(** The residue [-3] arises in [NormalizeMoves] when a move R is followed
    by an inverted R of rotation count 4: the combined move keeps rotation
    count 3. *)
Example NormalizeMoves_keeps_three :
  NormalizeMoves [mkMove 0 (rlit "R") false 1 false;
                  mkMove 0 (rlit "R") false 4 true]
  = Ok [mkMove 0 (rlit "R") false 3 true].
Proof. reflexivity. Qed.

(* ================================================================= *)
(** ** The tokenizer and the parser *)




(** The captures [slices] and [rotations] are empty or one digit, so
    [strToInt] never fails on them. *)
Lemma strToInt_digit (ch : ascii) :
  isDigit ch = true -> strToInt [ch] = Ok (digit_val ch).
Proof.
  destruct ch as [[] [] [] [] [] [] [] []]; cbv; congruence.
Qed.


Lemma reToken_face_Some (slices input : list ascii) (m : submatches) :
  reToken_face slices input = Some m ->
  sm_slices m = slices
  /\ (exists rest, sm_rotations m = fst (optional isDigit rest)).
Proof.
  unfold reToken_face. destruct input as [| f rest]; [discriminate |].
  destruct (isFace f); [| discriminate].
  destruct (optional (Ascii.eqb "w") rest) as [w r1].
  destruct (optional isDigit r1) as [d r2] eqn:Hd.
  destruct (optional (Ascii.eqb "'") r2) as [q r3].
  destruct (optional isEnd r3) as [e r4].
  intros H. injection H as <-. simpl. split; [reflexivity |].
  exists r1. rewrite Hd. reflexivity.
Qed.




(** A token that is read has at least one character. *)
Lemma extractToken_length (input : list ascii) (t : Move) (n : Z) :
  extractToken input = Ok (t, n) -> 1 <= n <= len input.
Proof.
  unfold extractToken.
  destruct (reToken input) as [m |] eqn:Hm; [| discriminate].
  destruct (strToInt (sm_slices m)); [| discriminate].
  destruct (strToInt (sm_rotations m)); [| discriminate].
  destruct (validate _); [discriminate |].
  intros H. injection H as _ <-.
  assert (Hpre : exists tl, input = match0 m ++ tl).
  { clear - Hm. unfold reToken in Hm.
    assert (Hface : forall sl inp, reToken_face sl inp = Some m ->
              exists tl, sl ++ inp = match0 m ++ tl).
    { clear. intros sl inp H. unfold reToken_face in H.
      destruct inp as [| f rest]; [discriminate |].
      destruct (isFace f); [| discriminate].
      unfold optional in H.
      destruct rest as [| c1 r1];
        [| destruct (Ascii.eqb "w" c1)];
        repeat match type of H with
        | context [match ?l with [] => _ | _ :: _ => _ end] =>
            destruct l as [| ? ?]
        | context [if ?b then _ else _] => destruct b
        end;
        injection H as <-; unfold match0; simpl;
        eexists; rewrite <- ?app_assoc; simpl; reflexivity. }
    destruct input as [| d rest]; [apply (Hface [] []), Hm |].
    destruct (isDigit d).
    - destruct (reToken_face [d] rest) eqn:Hr.
      + injection Hm as ->. apply (Hface [d] rest), Hr.
      + apply (Hface [] (d :: rest)), Hm.
    - apply (Hface [] (d :: rest)), Hm. }
  destruct Hpre as [tl ->]. unfold len, match0.
  rewrite !length_app. simpl. lia.
Qed.

(** The loop of [ParseNotation] returns once it has more fuel than
    characters to read. *)
Lemma parseLoop_total (fuel : nat) :
  forall rest stack currentGroup,
    (List.length rest < fuel)%nat ->
    exists res, parseLoop fuel rest stack currentGroup = Some res.
Proof.
  induction fuel as [| fuel IH]; intros rest stack cur Hlt; [lia |].
  destruct rest as [| ch rest']; cbn [parseLoop].
  - destruct (len stack >? 0); eauto.
  - cbn [List.length] in Hlt.
    destruct (Ascii.eqb ch " "); [apply IH; lia |].
    destruct (OpenGroupTypes ch); [apply IH; lia |].
    destruct (CloseGroupTypes ch).
    + destruct stack as [| top stack']; [eauto |].
      destruct rest' as [| d rest'']; [apply IH; simpl; lia |].
      destruct (isDigit d); apply IH; simpl in *; lia.
    + destruct (Separators ch); [apply IH; lia |].
      destruct (extractToken (ch :: rest')) as [[t n] | e] eqn:He; [| eauto].
      apply extractToken_length in He. apply IH.
      rewrite length_skipn. cbn [List.length]. lia.
Qed.

(** [ParseNotation] returns on every input. *)
Lemma ParseNotation_total (input : list ascii) :
  exists res, ParseNotation input = Some res.
Proof.
  apply parseLoop_total. lia.
Qed.




(* ================================================================= *)
(** ** Examples of the notation *)

(** C3 (as amended).  [ParseNotation] on the text (R L2 U')2 followed by
    [Expand] yields the six moves R, L2, U', R, L2, U', where L2 is one move
    whose rotation count is 2: no two neighbours have the same face, so the
    normalization combines nothing. *)
Theorem parseExpand_R_L2_U_twice :
  parseExpand (str "(R L2 U')2")
  = Some (Ok [mv "R" 1 false; mv "L" 2 false; mv "U" 1 true;
              mv "R" 1 false; mv "L" 2 false; mv "U" 1 true]).
Proof. reflexivity. Qed.

(** C3 (counterexample).  The result is not the four moves R, U', R, U'. *)
Lemma parseExpand_R_L2_U_twice_not_four :
  parseExpand (str "(R L2 U')2")
  <> Some (Ok [mv "R" 1 false; mv "U" 1 true;
               mv "R" 1 false; mv "U" 1 true]).
Proof. discriminate. Qed.

(** The parse tree of the same text: a repeat group of factor 2 under the
    root. *)
Example ParseNotation_R_L2_U_twice :
  ParseNotation (str "(R L2 U')2")
  = Some (Ok (mkGroup
       [TGroup (mkGroup [TMove (mv "R" 1 false); TMove (mv "L" 2 false);
                         TMove (mv "U" 1 true)] 2 GroupTypeMove)]
       1 groupTypeNil)).
Proof. reflexivity. Qed.

(* ================================================================= *)
(** ** [reverse] *)

Section Reverse.
Local Open Scope nat_scope.
Context {A : Type}.

Lemma length_set_nth (l : list A) : forall i v,
  List.length (set_nth i v l) = List.length l.
Proof.
  induction l as [| a l IH]; intros [| i] v; simpl; auto.
Qed.

Lemma nth_error_set_nth (l : list A) : forall i j v,
  i < List.length l ->
  nth_error (set_nth i v l) j = if j =? i then Some v else nth_error l j.
Proof.
  induction l as [| a l IH]; intros i j v Hi; simpl in Hi; [lia |].
  destruct i as [| i], j as [| j]; simpl; try reflexivity.
  apply IH. lia.
Qed.

Lemma length_swap_at (l : list A) (i j : nat) :
  List.length (swap_at i j l) = List.length l.
Proof.
  unfold swap_at.
  destruct (nth_error l i), (nth_error l j); try reflexivity.
  rewrite !length_set_nth. reflexivity.
Qed.

Lemma nth_error_swap_at (l : list A) (i j m : nat) :
  i < List.length l -> j < List.length l ->
  nth_error (swap_at i j l) m
  = if m =? j then nth_error l i
    else if m =? i then nth_error l j
    else nth_error l m.
Proof.
  intros Hi Hj. unfold swap_at.
  destruct (nth_error l i) as [a |] eqn:Ha;
    [| apply nth_error_None in Ha; lia].
  destruct (nth_error l j) as [b |] eqn:Hb;
    [| apply nth_error_None in Hb; lia].
  rewrite nth_error_set_nth by (rewrite length_set_nth; exact Hj).
  destruct (m =? j); [reflexivity |].
  rewrite nth_error_set_nth by exact Hi. reflexivity.
Qed.

(** After the passes [i = k-1, ..., 0] the first [k] and the last [k]
    positions are mirrored and the middle is untouched. *)
Lemma reverse_from_spec (k : nat) : forall l : list A,
  2 * k <= List.length l ->
  List.length (reverse_from k l) = List.length l
  /\ forall j, j < List.length l ->
       nth_error (reverse_from k l) j
       = if (j <? k) || (List.length l - k <=? j)
         then nth_error l (List.length l - 1 - j)
         else nth_error l j.
Proof.
  induction k as [| k IH]; intros l Hk.
  - split; [reflexivity |]. intros j Hj. simpl.
    destruct (Nat.leb_spec (List.length l - 0) j); [lia | reflexivity].
  - cbn [reverse_from].
    set (n := List.length l) in *.
    destruct (IH (swap_at k (n - 1 - k) l)) as [Hlen Hnth].
    { rewrite length_swap_at. fold n. lia. }
    rewrite length_swap_at in Hlen, Hnth. fold n in Hlen, Hnth.
    split; [exact Hlen |]. intros j Hj.
    rewrite (Hnth j Hj).
    rewrite !nth_error_swap_at by (fold n; lia).
    destruct (Nat.ltb_spec j k), (Nat.leb_spec (n - k) j),
      (Nat.ltb_spec j (S k)), (Nat.leb_spec (n - S k) j);
      cbn [orb]; try lia;
      repeat match goal with
      | |- context [?a =? ?b] => destruct (Nat.eqb_spec a b); try lia
      end;
      try reflexivity; f_equal; lia.
Qed.

(** The swap loop of [reverse] reverses the list. *)
Lemma reverse_rev (l : list A) : reverse l = rev l.
Proof.
  unfold reverse.
  set (n := List.length l).
  pose proof (Nat.div_mod_eq n 2) as Hdiv.
  pose proof (Nat.mod_upper_bound n 2 ltac:(lia)) as Hmod.
  destruct (reverse_from_spec (n / 2) l) as [Hlen Hnth]; [fold n; lia |].
  fold n in Hlen, Hnth.
  apply nth_error_ext. intros j.
  rewrite nth_error_rev. fold n.
  destruct (Nat.ltb_spec j n) as [Hj | Hj].
  - rewrite (Hnth j Hj).
    destruct (Nat.ltb_spec j (n / 2)), (Nat.leb_spec (n - n / 2) j);
      cbn [orb]; f_equal; lia.
  - apply nth_error_None. lia.
Qed.
End Reverse.

Lemma ReverseMoves_rev (moves : list Move) :
  ReverseMoves moves
  = map (fun m => with_Inverted m (negb (Inverted m))) (rev moves).
Proof.
  unfold ReverseMoves. rewrite reverse_rev. reflexivity.
Qed.

(* ================================================================= *)
(** ** Group expansion *)

Section ExpandLoop.
Variable expand : Group -> result (list Move).

Lemma expandLoop_app (ts1 ts2 : list Tokenizable) : forall st,
  expandLoop expand (ts1 ++ ts2) st
  = match expandLoop expand ts1 st with
    | Err e => Err e
    | Ok st' => expandLoop expand ts2 st'
    end.
Proof.
  induction ts1 as [| t ts1 IH]; intros [[head tail] separator]; simpl.
  - reflexivity.
  - destruct t as [v | v | v].
    + destruct separator; apply IH.
    + destruct separator; [reflexivity | apply IH].
    + destruct (expand v); [| reflexivity].
      destruct separator; apply IH.
Qed.

(** Moves met before the separator go to [head]. *)
Lemma expandLoop_moves_head (A : list Move) : forall head tail,
  expandLoop expand (map TMove A) (head, tail, None)
  = Ok (head ++ A, tail, None).
Proof.
  induction A as [| a A IH]; intros head tail; simpl.
  - rewrite app_nil_r. reflexivity.
  - rewrite IH, <- app_assoc. reflexivity.
Qed.

(** Moves met after the separator go to [tail]. *)
Lemma expandLoop_moves_tail (B : list Move) : forall head tail sep,
  expandLoop expand (map TMove B) (head, tail, Some sep)
  = Ok (head, tail ++ B, Some sep).
Proof.
  induction B as [| b B IH]; intros head tail sep; simpl.
  - rewrite app_nil_r. reflexivity.
  - rewrite IH, <- app_assoc. reflexivity.
Qed.

(** Once a separator is recorded it stays. *)
Lemma expandLoop_separator_stays (ts : list Tokenizable) :
  forall head tail sep head' tail' sep',
    expandLoop expand ts (head, tail, Some sep) = Ok (head', tail', sep') ->
    sep' = Some sep.
Proof.
  induction ts as [| t ts IH]; intros head tail sep head' tail' sep'; simpl.
  - intros H. injection H as _ _ <-. reflexivity.
  - destruct t as [v | v | v]; [apply IH | discriminate |].
    destruct (expand v); [apply IH | discriminate].
Qed.

(** A run of tokens without separator appends the same moves [d] to
    [head], or to [tail] when a separator is already recorded. *)
Lemma expandLoop_no_separator (ts : list Tokenizable) :
  forall head tail head' tail',
    expandLoop expand ts (head, tail, None) = Ok (head', tail', None) ->
    exists d,
      head' = head ++ d /\ tail' = tail
      /\ (forall h t,
            expandLoop expand ts (h, t, None) = Ok (h ++ d, t, None))
      /\ (forall h t sep,
            expandLoop expand ts (h, t, Some sep) = Ok (h, t ++ d, Some sep)).
Proof.
  induction ts as [| t ts IH]; intros head tail head' tail'; simpl.
  - intros H. injection H as <- <-. exists [].
    repeat split; intros; rewrite ?app_nil_r; reflexivity.
  - destruct t as [v | v | v].
    + intros H. destruct (IH _ _ _ _ H) as [d [-> [-> [Hh Ht]]]].
      exists (v :: d). rewrite <- app_assoc.
      repeat split; intros.
      * rewrite Hh, <- app_assoc. reflexivity.
      * rewrite Ht, <- app_assoc. reflexivity.
    + intros H. apply expandLoop_separator_stays in H. discriminate.
    + destruct (expand v) as [toks | e]; [| discriminate].
      intros H. destruct (IH _ _ _ _ H) as [d [-> [-> [Hh Ht]]]].
      exists (toks ++ d). rewrite <- app_assoc.
      repeat split; intros.
      * rewrite Hh, <- app_assoc. reflexivity.
      * rewrite Ht, <- app_assoc. reflexivity.
Qed.
End ExpandLoop.

(** Expansion of a bracket group whose two sides are token sequences
    without separator (moves or nested groups): with [a] and [b] what the
    two sides contribute to [head] and [tail], the result is the
    normalization of [a ++ b ++ ReverseMoves a]. *)
Lemma Expand_conjugate_tokens (A B : list Tokenizable) (a b : list Move) :
  expandLoop Expand A ([], [], None) = Ok (a, [], None) ->
  expandLoop Expand B ([], [], None) = Ok (b, [], None) ->
  Expand (mkGroup (A ++ TSeparator SepConjugate :: B) 1 GroupTypeComm)
  = NormalizeMoves (a ++ b ++ ReverseMoves a).
Proof.
  intros HA HB.
  destruct (expandLoop_no_separator _ _ _ _ _ _ HA) as [da [Ha [_ [HAh _]]]].
  destruct (expandLoop_no_separator _ _ _ _ _ _ HB) as [db [Hb [_ [_ HBt]]]].
  simpl in Ha, Hb. subst da db.
  cbn [Expand]. rewrite expandLoop_app, HAh. cbn [expandLoop].
  change (expandLoop Expand B ([] ++ a, [], Some SepConjugate))
    with (expandLoop Expand B (a, [], Some SepConjugate)).
  rewrite HBt. cbn. rewrite <- app_assoc. reflexivity.
Qed.

(** C6 (as amended).  For all move sequences A and B, expanding the
    conjugate group [[A : B]] equals the sequence normalization
    ([NormalizeMoves]) of the concatenation
    [A ++ B ++ reverse_inverted A]; [reverse_inverted] is [ReverseMoves],
    which reverses the sequence and flips the inverted flag of each move. *)
Theorem Expand_conjugate (A B : list Move) :
  Expand (conjugateGroup A B) = NormalizeMoves (A ++ B ++ ReverseMoves A)
  /\ ReverseMoves A
     = map (fun m => with_Inverted m (negb (Inverted m))) (rev A).
Proof.
  split; [| apply ReverseMoves_rev].
  unfold conjugateGroup. cbn [Expand].
  rewrite expandLoop_app, expandLoop_moves_head. cbn [expandLoop].
  rewrite expandLoop_moves_tail. cbn. rewrite <- app_assoc. reflexivity.
Qed.

(** C6 (counterexample).  With A the move R and B the move R', the
    expansion of [[A : B]] is the single move R', while
    [expand(A) ++ expand(B) ++ reverse_inverted(expand(A))] has the three
    moves R, R', R'. *)
Lemma Expand_conjugate_not_concatenation :
  Expand (movesGroup [mv "R" 1 false]) = Ok [mv "R" 1 false]
  /\ Expand (movesGroup [mv "R" 1 true]) = Ok [mv "R" 1 true]
  /\ Expand (conjugateGroup [mv "R" 1 false] [mv "R" 1 true])
     = Ok [mv "R" 1 true]
  /\ parseExpand (str "[R : R']") = Some (Ok [mv "R" 1 true])
  /\ Expand (conjugateGroup [mv "R" 1 false] [mv "R" 1 true])
     <> Ok ([mv "R" 1 false] ++ [mv "R" 1 true]
            ++ ReverseMoves [mv "R" 1 false]).
Proof.
  repeat split; try reflexivity. discriminate.
Qed.

(* ================================================================= *)
(** ** The cube engine: single moves *)

(** Any error of [ExecuteMove] is the slice error, it is returned exactly
    when the guard fails, and the cube is then the one passed in. *)
Lemma ExecuteMove_error (c : Cube) (move : Move) (e : error) :
  snd (ExecuteMove c move) = Some e ->
  e = ErrSliceParam /\ guardLayerMin c move < 0
  /\ fst (ExecuteMove c move) = c.
Proof.
  unfold ExecuteMove, guardLayerMin.
  destruct ((if Wide move then _ else _) <? 0) eqn:Hg.
  - simpl. intros H. injection H as <-. apply Z.ltb_lt in Hg. auto.
  - destruct (if isAny move [rlit "L"; rlit "B"; rlit "D"; rlit "E"]
              then _ else _) as [lo hi].
    destruct (isAny move [rlit "M"; rlit "E"; rlit "S"]);
      [destruct (Z.rem (max c) 2 =? 1) |]; simpl; discriminate.
Qed.

Lemma ExecuteMove_guard_fails (c : Cube) (move : Move) :
  guardLayerMin c move < 0 ->
  ExecuteMove c move = (c, Some ErrSliceParam).
Proof.
  unfold ExecuteMove, guardLayerMin. intros H.
  apply Z.ltb_lt in H. rewrite H. reflexivity.
Qed.

(** C10.  Whenever [ExecuteMove] returns the SliceParam error the cube is
    unchanged: the cube after the call is the cube before it.  The error is
    returned exactly when the layer minimum, computed before any turn, is
    below 0, and [ExecuteMove] returns no other error. *)
Theorem ExecuteMove_SliceParam_atomic (c : Cube) (move : Move) :
  (snd (ExecuteMove c move) = Some ErrSliceParam ->
   fst (ExecuteMove c move) = c)
  /\ (snd (ExecuteMove c move) = Some ErrSliceParam
      <-> guardLayerMin c move < 0)
  /\ (forall e, snd (ExecuteMove c move) = Some e -> e = ErrSliceParam).
Proof.
  split; [| split].
  - intros H. destruct (ExecuteMove_error _ _ _ H) as [_ [_ Hc]]. exact Hc.
  - split.
    + intros H. destruct (ExecuteMove_error _ _ _ H) as [_ [Hg _]]. exact Hg.
    + intros Hg. rewrite (ExecuteMove_guard_fails _ _ Hg). reflexivity.
  - intros e H. destruct (ExecuteMove_error _ _ _ H) as [He _]. exact He.
Qed.

Lemma ExecuteMove_SliceParam_atomic_witness :
  snd (ExecuteMove (ExecuteMoves (NewCube 3) [mv "U" 1 false])
         (mkMove 5 (rlit "R") true 1 false))
    = Some ErrSliceParam
  /\ fst (ExecuteMove (ExecuteMoves (NewCube 3) [mv "U" 1 false])
            (mkMove 5 (rlit "R") true 1 false))
     = ExecuteMoves (NewCube 3) [mv "U" 1 false].
Proof.
  split; [reflexivity |].
  exact (proj1 (ExecuteMove_SliceParam_atomic
                  (ExecuteMoves (NewCube 3) [mv "U" 1 false])
                  (mkMove 5 (rlit "R") true 1 false)) eq_refl).
Defined.

(* ================================================================= *)
(** ** The cube engine: batches *)

Lemma ExecuteMoves_app (c : Cube) (ms1 ms2 : list Move) :
  ExecuteMoves c (ms1 ++ ms2) = ExecuteMoves (ExecuteMoves c ms1) ms2.
Proof.
  unfold ExecuteMoves. apply fold_left_app.
Qed.

(** C9.  [ExecuteMoves] runs [ExecuteMove] on every move of its list in
    order and returns the cube it was called on: the batch up to and with a
    move [m] continues with all later moves from the cube that
    [ExecuteMove] left, whatever error [ExecuteMove] returned for [m]; and
    when [m] fails, the later moves run on the cube as it was before [m]. *)
Theorem ExecuteMoves_sequential (c : Cube) (ms1 ms2 : list Move) (m : Move) :
  ExecuteMoves c [] = c
  /\ ExecuteMoves c (ms1 ++ m :: ms2)
     = ExecuteMoves (fst (ExecuteMove (ExecuteMoves c ms1) m)) ms2
  /\ (snd (ExecuteMove (ExecuteMoves c ms1) m) <> None ->
      ExecuteMoves c (ms1 ++ m :: ms2)
      = ExecuteMoves (ExecuteMoves c ms1) ms2).
Proof.
  split; [reflexivity |].
  assert (Hstep : ExecuteMoves c (ms1 ++ m :: ms2)
                  = ExecuteMoves (fst (ExecuteMove (ExecuteMoves c ms1) m)) ms2).
  { rewrite ExecuteMoves_app. reflexivity. }
  split; [exact Hstep |].
  intros Herr. rewrite Hstep.
  destruct (snd (ExecuteMove (ExecuteMoves c ms1) m)) as [e |] eqn:He;
    [| contradiction].
  destruct (ExecuteMove_error _ _ _ He) as [_ [_ ->]]. reflexivity.
Qed.

(** A batch on the 3-cube whose second move fails: the third move is still
    executed, and the result is that of the batch without the failing
    move. *)
Lemma ExecuteMoves_sequential_witness :
  snd (ExecuteMove (ExecuteMoves (NewCube 3) [mv "U" 1 false])
                   (mkMove 5 (rlit "R") true 1 false)) <> None
  /\ ExecuteMoves (NewCube 3)
       ([mv "U" 1 false] ++ mkMove 5 (rlit "R") true 1 false
          :: [mv "F" 1 false])
     = ExecuteMoves (ExecuteMoves (NewCube 3) [mv "U" 1 false])
         [mv "F" 1 false].
Proof.
  split; [discriminate |].
  apply (ExecuteMoves_sequential (NewCube 3) [mv "U" 1 false]
           [mv "F" 1 false] (mkMove 5 (rlit "R") true 1 false)).
  discriminate.
Defined.

(* ================================================================= *)
(** ** Turns *)

Lemma turnPiece_rotatePiece (c : Cube) (t : turn) (p : piece) :
  turnPiece c t p
  = if inRange t (axisCoordinate (turn_axis t) p)
    then rotatePiece c (turn_axis t) (clockwise t) (rotations t) p
    else p.
Proof.
  unfold turnPiece, rotatePiece. destruct (turn_axis t); reflexivity.
Qed.

(** A range of one layer holds that layer only. *)
Lemma inRange_single (a : axis) (k rots n : Z) (cw : bool) :
  inRange (mkTurn a k k rots cw) n = (n =? k).
Proof.
  unfold inRange. simpl.
  destruct (Z.eqb_spec n k), (Z.leb_spec k n), (Z.leb_spec n k);
    simpl; try reflexivity; lia.
Qed.

(** C7 (as amended).  A middle-slice move (face M, E or S) that passes the
    slice guard of [ExecuteMove] (it is not wide, or it is wide and its
    slice count leaves the layer minimum at 0 or above): on a cube of even
    size it returns no error and leaves the cube as it is; on a cube of odd
    size [N] it returns no error and turns, by [turnAxis], exactly the pieces
    whose coordinate along the axis of the move (x for M, y for E, z for S)
    is [(N-1)/2], every other piece staying as it is.  A middle-slice move
    that fails the guard is wide, and it returns the SliceParam error and
    leaves the cube as it is, on a cube of even size as on one of odd size.
    The guard compares with 0 the layer minimum, which is [max] for a move
    that is not wide and [max - (Slices - 1)] for a wide one (when nothing
    wraps around). *)
Theorem ExecuteMove_middle_slice
  (N : Z) (c : Cube) (move : Move) (a : axis) :
  1 <= N ->
  max c = N - 1 ->
  middleSlice move a ->
  (0 <= guardLayerMin c move ->
   (Z.even N = true -> ExecuteMove c move = (c, None))
   /\ (Z.odd N = true ->
       ExecuteMove c move
       = (mkCube (max c)
            (map (fun p =>
                    if axisCoordinate a p =? (N - 1) / 2
                    then rotatePiece c a (clockwise (centerTurn c move a))
                           (Rotations move) p
                    else p)
               (pieces c)),
          None)))
  /\ (guardLayerMin c move < 0 ->
      Wide move = true /\ ExecuteMove c move = (c, Some ErrSliceParam))
  /\ (Wide move = false -> guardLayerMin c move = max c)
  /\ (Wide move = true -> N < 2 ^ 62 -> - 2 ^ 62 < Slices move < 2 ^ 62 ->
      guardLayerMin c move = max c - (Slices move - 1)).
Proof.
  intros HN Hmax Hmid. split; [| split; [| split]].
  - intros Hguard.
    assert (Hg : (guardLayerMin c move <? 0) = false)
      by (apply Z.ltb_ge; lia).
    assert (Hquot : Z.quot (max c) 2 = (N - 1) / 2).
    { rewrite Hmax. apply Z.quot_div_nonneg; lia. }
    assert (Hrem : Z.rem (max c) 2 = (N - 1) mod 2).
    { rewrite Hmax. apply Z.rem_mod_nonneg; lia. }
    assert (Hexec :
      ExecuteMove c move
      = if Z.rem (max c) 2 =? 1 then (c, None)
        else (Cube_turn c (centerTurn c move a), None)).
    { unfold ExecuteMove, guardLayerMin in *. rewrite Hg.
      destruct (if isAny move [rlit "L"; rlit "B"; rlit "D"; rlit "E"]
                then _ else _) as [lo hi].
      unfold centerTurn, isAny.
      destruct Hmid as [[-> ->] | [[-> ->] | [-> ->]]];
        destruct (Inverted move); reflexivity. }
    rewrite Hexec, Hrem. split; intros Hpar.
    + assert (Hm : (N - 1) mod 2 = 1).
      { rewrite Zeven_bool_iff, Zeven_ex_iff in Hpar. destruct Hpar as [k Hk].
        replace (N - 1) with (1 + (k - 1) * 2) by lia.
        apply Z_mod_plus_full. }
      destruct (Z.eqb_spec ((N - 1) mod 2) 1); [reflexivity | lia].
    + assert (Hm : (N - 1) mod 2 = 0).
      { rewrite Zodd_bool_iff, Zodd_ex_iff in Hpar. destruct Hpar as [k Hk].
        replace (N - 1) with (0 + k * 2) by lia.
        apply Z_mod_plus_full. }
      destruct (Z.eqb_spec ((N - 1) mod 2) 1); [lia |].
      unfold Cube_turn. f_equal. f_equal. apply map_ext. intros p.
      rewrite turnPiece_rotatePiece. unfold centerTurn at 1 2.
      cbn [turn_axis rotations]. rewrite inRange_single, Hquot. reflexivity.
  - intros Hguard. split; [| apply ExecuteMove_guard_fails, Hguard].
    unfold guardLayerMin in Hguard.
    destruct (Wide move); [reflexivity | lia].
  - intros Hw. unfold guardLayerMin. rewrite Hw. reflexivity.
  - intros Hw HN62 Hs. unfold guardLayerMin. rewrite Hw, Hmax.
    rewrite (wrap_small (Slices move - 1)) by (unfold in_int; lia).
    apply wrap_small. unfold in_int. lia.
Qed.

Lemma ExecuteMove_middle_slice_witness :
  ExecuteMove (NewCube 4) (mv "M" 1 false) = (NewCube 4, None)
  /\ ExecuteMove (NewCube 3) (mv "M" 1 false)
     = (mkCube (max (NewCube 3))
          (map (fun p =>
                  if axisCoordinate axisX p =? (3 - 1) / 2
                  then rotatePiece (NewCube 3) axisX
                         (clockwise
                            (centerTurn (NewCube 3) (mv "M" 1 false) axisX))
                         (Rotations (mv "M" 1 false)) p
                  else p)
             (pieces (NewCube 3))),
        None)
  /\ ExecuteMove (NewCube 3) (mkMove 5 (rlit "M") true 1 false)
     = (NewCube 3, Some ErrSliceParam).
Proof.
  split; [| split].
  - refine (proj1 (proj1 (ExecuteMove_middle_slice 4 (NewCube 4)
                            (mv "M" 1 false) axisX _ _ _) _) _).
    + lia.
    + reflexivity.
    + left. split; reflexivity.
    + apply Z.leb_le. reflexivity.
    + reflexivity.
  - refine (proj2 (proj1 (ExecuteMove_middle_slice 3 (NewCube 3)
                            (mv "M" 1 false) axisX _ _ _) _) _).
    + lia.
    + reflexivity.
    + left. split; reflexivity.
    + apply Z.leb_le. reflexivity.
    + reflexivity.
  - refine (proj2 (proj1 (proj2 (ExecuteMove_middle_slice 3 (NewCube 3)
                                   (mkMove 5 (rlit "M") true 1 false)
                                   axisX _ _ _)) _)).
    + lia.
    + reflexivity.
    + left. split; reflexivity.
    + apply Z.ltb_lt. reflexivity.
Defined.

(** C7 (counterexample).  The text 3Mw parses to a wide middle-slice move
    of three slices; on the cube of size 2 (even) [ExecuteMove] returns the
    SliceParam error for it, not success. *)
Lemma ExecuteMove_wide_M_even_cube_error :
  parseExpand (str "3Mw") = Some (Ok [mkMove 3 (rlit "M") true 1 false])
  /\ Dimension (NewCube 2) = 2
  /\ ExecuteMove (NewCube 2) (mkMove 3 (rlit "M") true 1 false)
     = (NewCube 2, Some ErrSliceParam)
  /\ snd (ExecuteMove (NewCube 2) (mkMove 3 (rlit "M") true 1 false))
     <> None.
Proof.
  repeat split; try reflexivity. discriminate.
Qed.

(* ================================================================= *)
(** ** Four quarter turns *)

Lemma wrap_sub_sub (m v : Z) : in_int v -> wrap (m - wrap (m - v)) = v.
Proof.
  intros Hv. rewrite wrap_sub_wrap_r.
  replace (m - (m - v)) with v by lia. apply wrap_small, Hv.
Qed.

(** Four passes of the loop of [turnAxis] bring both tiles back. *)
Lemma turnAxisStep_four (m : Z) (d : bool) (t1 t2 : tile) :
  tile_int t1 -> tile_int t2 ->
  turnAxisStep m d (turnAxisStep m d (turnAxisStep m d
    (turnAxisStep m d (t1, t2)))) = (t1, t2).
Proof.
  destruct t1 as [c1 s1 k1], t2 as [c2 s2 k2].
  unfold tile_int. cbn [coordinate]. intros H1 H2.
  destruct d; cbn [turnAxisStep coordinate coordinateStart color];
    rewrite !wrap_sub_sub by assumption; reflexivity.
Qed.

Lemma turnPiece_max_ext (c c' : Cube) (t : turn) (p : piece) :
  max c = max c' -> turnPiece c t p = turnPiece c' t p.
Proof.
  intros H. unfold turnPiece, turnAxis. rewrite H. reflexivity.
Qed.

Lemma rotatePiece_axisCoordinate
  (c : Cube) (a : axis) (d : bool) (rots : Z) (p : piece) :
  axisCoordinate a (rotatePiece c a d rots p) = axisCoordinate a p.
Proof.
  unfold rotatePiece. destruct a;
    match goal with |- context [turnAxis ?c ?u ?v ?d ?r] =>
      destruct (turnAxis c u v d r) end; reflexivity.
Qed.

Lemma turnAxis_one (c : Cube) (t1 t2 : tile) (d : bool) :
  turnAxis c t1 t2 d 1 = turnAxisStep (max c) d (t1, t2).
Proof. reflexivity. Qed.

Lemma rotatePiece_one (c : Cube) (a : axis) (d : bool) (tx ty tz : tile) :
  rotatePiece c a d 1 (mkPiece tx ty tz)
  = match a with
    | axisX => mkPiece tx (fst (turnAxisStep (max c) d (ty, tz)))
                          (snd (turnAxisStep (max c) d (ty, tz)))
    | axisY => mkPiece (fst (turnAxisStep (max c) d (tx, tz))) ty
                       (snd (turnAxisStep (max c) d (tx, tz)))
    | axisZ => mkPiece (fst (turnAxisStep (max c) d (tx, ty)))
                       (snd (turnAxisStep (max c) d (tx, ty))) tz
    end.
Proof.
  unfold rotatePiece. rewrite !turnAxis_one. cbn [p_x p_y p_z].
  destruct a;
    match goal with |- context [turnAxisStep ?m d ?s] =>
      destruct (turnAxisStep m d s) end; reflexivity.
Qed.

Lemma rotatePiece_four (c : Cube) (a : axis) (d : bool) (p : piece) :
  Forall tile_int (tiles p) ->
  rotatePiece c a d 1 (rotatePiece c a d 1 (rotatePiece c a d 1
    (rotatePiece c a d 1 p))) = p.
Proof.
  destruct p as [tx ty tz]. unfold tiles. cbn [p_x p_y p_z].
  intros Hint.
  inversion Hint as [| ? ? Hx Hint1]; subst.
  inversion Hint1 as [| ? ? Hy Hint2]; subst.
  inversion Hint2 as [| ? ? Hz _]; subst.
  destruct a; repeat (rewrite rotatePiece_one; rewrite <- ?surjective_pairing);
    rewrite turnAxisStep_four by assumption; reflexivity.
Qed.

(** A turn of one rotation applied four times to a piece brings it back:
    the tile along the axis is never written, so the piece is in the layer
    range all four times or never. *)
Lemma turnPiece_four (c : Cube) (a : axis) (lo hi : Z) (d : bool) (p : piece) :
  Forall tile_int (tiles p) ->
  let f := turnPiece c (mkTurn a lo hi 1 d) in
  f (f (f (f p))) = p.
Proof.
  intros Hint f. subst f.
  destruct (inRange (mkTurn a lo hi 1 d) (axisCoordinate a p)) eqn:Hr.
  - assert (Hstep : forall q, axisCoordinate a q = axisCoordinate a p ->
              turnPiece c (mkTurn a lo hi 1 d) q = rotatePiece c a d 1 q).
    { intros q Hq. rewrite turnPiece_rotatePiece.
      cbn [turn_axis clockwise rotations]. rewrite Hq, Hr. reflexivity. }
    rewrite (Hstep p) by reflexivity.
    rewrite (Hstep (rotatePiece c a d 1 p))
      by (rewrite rotatePiece_axisCoordinate; reflexivity).
    rewrite (Hstep (rotatePiece c a d 1 (rotatePiece c a d 1 p)))
      by (rewrite !rotatePiece_axisCoordinate; reflexivity).
    rewrite (Hstep (rotatePiece c a d 1 (rotatePiece c a d 1
                      (rotatePiece c a d 1 p))))
      by (rewrite !rotatePiece_axisCoordinate; reflexivity).
    apply rotatePiece_four, Hint.
  - assert (Hstep : turnPiece c (mkTurn a lo hi 1 d) p = p).
    { rewrite turnPiece_rotatePiece. cbn [turn_axis]. rewrite Hr.
      reflexivity. }
    rewrite !Hstep. reflexivity.
Qed.

Lemma Cube_turn_four (c : Cube) (a : axis) (lo hi : Z) (d : bool) :
  cube_int c ->
  let t := mkTurn a lo hi 1 d in
  Cube_turn (Cube_turn (Cube_turn (Cube_turn c t) t) t) t = c.
Proof.
  intros [_ Hint] t. destruct c as [m ps]. unfold Cube_turn.
  cbn [max pieces] in *. f_equal.
  rewrite !map_map.
  rewrite <- (map_id ps) at 2. apply map_ext_in. intros p Hp.
  rewrite Forall_forall in Hint. specialize (Hint p Hp).
  rewrite !(turnPiece_max_ext (mkCube m (map _ _)) (mkCube m ps)) by reflexivity.
  apply (turnPiece_four (mkCube m ps) a lo hi d p Hint).
Qed.

(** The move R is a turn of the last layer along x, or the slice error on
    a cube without layer. *)
Lemma ExecuteMove_R (c : Cube) :
  ExecuteMove c (mv "R" 1 false)
  = if max c <? 0 then (c, Some ErrSliceParam)
    else (Cube_turn c (mkTurn axisX (max c) (max c) 1 false), None).
Proof.
  unfold ExecuteMove. cbn [Wide mv]. destruct (max c <? 0); reflexivity.
Qed.

(** C2.  The text R R R R is read as four moves R, each a clockwise quarter
    turn; executing the four on any cube gives back the cube, with every
    tile coordinate and every tile color as before.  (Expanded, the four
    moves cancel to the empty sequence, which changes nothing either.) *)
Theorem ExecuteMoves_R_four_times (c : Cube) :
  cube_int c ->
  ParseNotation (str "R R R R")
  = Some (Ok (mkGroup [TMove (mv "R" 1 false); TMove (mv "R" 1 false);
                       TMove (mv "R" 1 false); TMove (mv "R" 1 false)]
                      1 groupTypeNil))
  /\ ExecuteMoves c [mv "R" 1 false; mv "R" 1 false;
                     mv "R" 1 false; mv "R" 1 false] = c
  /\ parseExpand (str "R R R R") = Some (Ok [])
  /\ ExecuteMoves c [] = c.
Proof.
  intros Hint. split; [reflexivity |]. split; [| split; reflexivity].
  unfold ExecuteMoves. cbn [fold_left].
  destruct (max c <? 0) eqn:Hm.
  - assert (H : fst (ExecuteMove c (mv "R" 1 false)) = c)
      by (rewrite ExecuteMove_R, Hm; reflexivity).
    rewrite !H. reflexivity.
  - set (t := mkTurn axisX (max c) (max c) 1 false).
    assert (H : forall c', max c' = max c ->
              fst (ExecuteMove c' (mv "R" 1 false)) = Cube_turn c' t).
    { intros c' Hc'. rewrite ExecuteMove_R, Hc', Hm. reflexivity. }
    rewrite (H c) by reflexivity.
    rewrite (H (Cube_turn c t)) by reflexivity.
    rewrite (H (Cube_turn (Cube_turn c t) t)) by reflexivity.
    rewrite (H (Cube_turn (Cube_turn (Cube_turn c t) t) t)) by reflexivity.
    apply (Cube_turn_four c axisX (max c) (max c) false Hint).
Qed.

Lemma cube_intb_sound (c : Cube) : cube_intb c = true -> cube_int c.
Proof.
  unfold cube_intb, cube_int, in_intb, tile_int, in_int.
  intros H. apply andb_prop in H. destruct H as [Hm Hp].
  split; [lia |].
  rewrite forallb_forall in Hp. apply Forall_forall. intros p Hin.
  specialize (Hp p Hin). rewrite forallb_forall in Hp.
  apply Forall_forall. intros t Ht. specialize (Hp t Ht). lia.
Qed.

Lemma ExecuteMoves_R_four_times_witness :
  ExecuteMoves (ExecuteMoves (NewCube 3) [mv "U" 1 false; mv "F" 1 true])
    [mv "R" 1 false; mv "R" 1 false; mv "R" 1 false; mv "R" 1 false]
  = ExecuteMoves (NewCube 3) [mv "U" 1 false; mv "F" 1 true].
Proof.
  refine (proj1 (proj2 (ExecuteMoves_R_four_times
            (ExecuteMoves (NewCube 3) [mv "U" 1 false; mv "F" 1 true]) _))).
  apply cube_intb_sound. vm_compute. reflexivity.
Defined.

(* ================================================================= *)
(** ** The invariant of the cube *)

Lemma In_range (size x : Z) : In x (range size) <-> 0 <= x < size.
Proof.
  unfold range. rewrite in_map_iff. split.
  - intros [n [<- Hn]]. apply in_seq in Hn. lia.
  - intros Hx. exists (Z.to_nat x). split; [lia |]. apply in_seq. lia.
Qed.

Lemma piece_ok_iff (N : Z) (p : piece) :
  piece_ok N p
  <-> tile_ok N (p_x p) /\ tile_ok N (p_y p) /\ tile_ok N (p_z p).
Proof.
  unfold piece_ok, tiles. split.
  - intros [_ H].
    inversion H as [| ? ? Hx H1]; subst.
    inversion H1 as [| ? ? Hy H2]; subst.
    inversion H2 as [| ? ? Hz _]; subst. auto.
  - intros [Hx [Hy Hz]]. split; [reflexivity |].
    apply Forall_cons; [exact Hx |]. apply Forall_cons; [exact Hy |].
    apply Forall_cons; [exact Hz |]. apply Forall_nil.
Qed.

Section Invariant.
Variable N : Z.
Hypothesis N_pos : 1 <= N.
Hypothesis N_int : in_int N.

Lemma newPiece_ok (x y z : Z) :
  0 <= x < N -> 0 <= y < N -> 0 <= z < N ->
  piece_ok N (newPiece (N - 1) x y z).
Proof.
  intros Hx Hy Hz. apply piece_ok_iff. unfold tile_ok. simpl. lia.
Qed.

Lemma NewCube_max : max (NewCube N) = N - 1.
Proof.
  unfold NewCube. cbn [max]. apply wrap_small.
  unfold in_int in *. lia.
Qed.

Lemma NewCube_ok : cube_ok N (NewCube N).
Proof.
  split; [apply NewCube_max |].
  pose proof NewCube_max as Hmax. unfold NewCube in *. cbn [max pieces] in *.
  rewrite Hmax. apply Forall_forall. intros p Hp.
  apply in_flat_map in Hp. destruct Hp as [x [Hx Hp]].
  apply in_flat_map in Hp. destruct Hp as [y [Hy Hp]].
  apply in_flat_map in Hp. destruct Hp as [z [Hz Hp]].
  apply In_range in Hx, Hy, Hz.
  destruct (isInner (N - 1) [x; y; z]); [contradiction |].
  destruct Hp as [<- | []]. apply newPiece_ok; assumption.
Qed.

Lemma turnAxisStep_ok (d : bool) (t1 t2 : tile) :
  tile_ok N t1 -> tile_ok N t2 ->
  tile_ok N (fst (turnAxisStep (N - 1) d (t1, t2)))
  /\ tile_ok N (snd (turnAxisStep (N - 1) d (t1, t2))).
Proof.
  unfold tile_ok, turnAxisStep. intros H1 H2.
  destruct d; cbn [fst snd coordinate];
    rewrite wrap_small by (unfold in_int in *; lia); lia.
Qed.

Lemma turnAxis_ok (c : Cube) (d : bool) (rots : Z) (t1 t2 : tile) :
  max c = N - 1 ->
  tile_ok N t1 -> tile_ok N t2 ->
  tile_ok N (fst (turnAxis c t1 t2 d rots))
  /\ tile_ok N (snd (turnAxis c t1 t2 d rots)).
Proof.
  intros Hmax H1 H2. unfold turnAxis. rewrite Hmax.
  induction (Z.to_nat rots) as [| n IH].
  - exact (conj H1 H2).
  - rewrite Nat.iter_succ. destruct IH as [IH1 IH2].
    destruct (Nat.iter n (turnAxisStep (N - 1) d) (t1, t2)) as [u v].
    apply turnAxisStep_ok; assumption.
Qed.

Lemma rotatePiece_ok (c : Cube) (a : axis) (d : bool) (rots : Z) (p : piece) :
  max c = N - 1 -> piece_ok N p -> piece_ok N (rotatePiece c a d rots p).
Proof.
  intros Hmax Hp. apply piece_ok_iff in Hp. destruct Hp as [Hx [Hy Hz]].
  apply piece_ok_iff. unfold rotatePiece.
  destruct a;
    match goal with |- context [turnAxis c ?u ?v d rots] =>
      destruct (turnAxis_ok c d rots u v Hmax) as [H1 H2];
        [assumption | assumption |];
      destruct (turnAxis c u v d rots) end;
    cbn [p_x p_y p_z fst snd] in *; auto.
Qed.

Lemma turnPiece_ok (c : Cube) (t : turn) (p : piece) :
  max c = N - 1 -> piece_ok N p -> piece_ok N (turnPiece c t p).
Proof.
  intros Hmax Hp. rewrite turnPiece_rotatePiece.
  destruct (inRange t _); [apply rotatePiece_ok |]; assumption.
Qed.

Lemma Cube_turn_ok (c : Cube) (t : turn) :
  cube_ok N c -> cube_ok N (Cube_turn c t).
Proof.
  intros [Hmax Hps]. split; [exact Hmax |].
  unfold Cube_turn. cbn [pieces].
  apply Forall_forall. intros q Hq. apply in_map_iff in Hq.
  destruct Hq as [p [<- Hp]]. rewrite Forall_forall in Hps.
  apply turnPiece_ok; auto.
Qed.

Lemma Cube_turn_length (c : Cube) (t : turn) :
  List.length (pieces (Cube_turn c t)) = List.length (pieces c).
Proof.
  unfold Cube_turn. cbn [pieces]. apply length_map.
Qed.

(** After [ExecuteMove] the cube is the one passed in or one turn of it. *)
Lemma ExecuteMove_cases (c : Cube) (move : Move) :
  fst (ExecuteMove c move) = c
  \/ exists t, fst (ExecuteMove c move) = Cube_turn c t.
Proof.
  unfold ExecuteMove.
  destruct ((if Wide move then _ else _) <? 0); [left; reflexivity |].
  destruct (if isAny move [rlit "L"; rlit "B"; rlit "D"; rlit "E"]
            then _ else _) as [lo hi].
  destruct (isAny move [rlit "M"; rlit "E"; rlit "S"]);
    [destruct (Z.rem (max c) 2 =? 1); [left; reflexivity |] |];
    right; eexists; reflexivity.
Qed.

Lemma ExecuteMove_ok (c : Cube) (move : Move) :
  cube_ok N c -> cube_ok N (fst (ExecuteMove c move)).
Proof.
  intros Hc. destruct (ExecuteMove_cases c move) as [-> | [t ->]];
    [assumption | apply Cube_turn_ok, Hc].
Qed.

Lemma ExecuteMove_length (c : Cube) (move : Move) :
  List.length (pieces (fst (ExecuteMove c move))) = List.length (pieces c).
Proof.
  destruct (ExecuteMove_cases c move) as [-> | [t ->]];
    [reflexivity | apply Cube_turn_length].
Qed.

Lemma ExecuteMoves_ok (moves : list Move) : forall c,
  cube_ok N c -> cube_ok N (ExecuteMoves c moves).
Proof.
  unfold ExecuteMoves.
  induction moves as [| m ms IH]; intros c Hc; cbn [fold_left].
  - exact Hc.
  - apply IH, ExecuteMove_ok, Hc.
Qed.

Lemma ExecuteMoves_length (moves : list Move) : forall c,
  List.length (pieces (ExecuteMoves c moves)) = List.length (pieces c).
Proof.
  unfold ExecuteMoves.
  induction moves as [| m ms IH]; intros c; cbn [fold_left].
  - reflexivity.
  - rewrite IH. apply ExecuteMove_length.
Qed.
End Invariant.

(** C1.  For every cube made by [NewCube N] with [N >= 1] and then changed
    by any sequence of calls of [ExecuteMove] and [ExecuteMoves], with any
    moves: [max] is [N-1], every piece has exactly 3 tiles, every tile
    coordinate is within [[0, N-1]], and the number of pieces is the one
    [NewCube] made. *)
Theorem reachable_cube_ok (N : Z) (c : Cube) :
  1 <= N -> in_int N ->
  reachable N c ->
  cube_ok N c
  /\ List.length (pieces c) = List.length (pieces (NewCube N)).
Proof.
  intros HN Hint Hreach.
  induction Hreach as [| c m Hreach [IHok IHlen] | c ms Hreach [IHok IHlen]].
  - split; [apply NewCube_ok; assumption | reflexivity].
  - split; [apply ExecuteMove_ok; assumption |].
    rewrite ExecuteMove_length. exact IHlen.
  - split; [apply ExecuteMoves_ok; assumption |].
    rewrite ExecuteMoves_length. exact IHlen.
Qed.

Lemma reachable_cube_ok_witness :
  cube_ok 3
    (ExecuteMoves (fst (ExecuteMove (NewCube 3) (mv "M" 3 true)))
       [mv "U" 1 false; mkMove 2 (rlit "F") true 2 false; mv "x" 1 true]).
Proof.
  refine (proj1 (reachable_cube_ok 3 _ _ _ _)).
  - lia.
  - unfold in_int. lia.
  - apply reach_ExecuteMoves, reach_ExecuteMove, reach_NewCube.
Defined.

(* ================================================================= *)
(** ** The pieces that [NewCube] makes *)

Lemma isInner3 (mx x y z : Z) :
  isInner mx [x; y; z] = inner1 mx x && inner1 mx y && inner1 mx z.
Proof.
  unfold inner1. cbn [isInner].
  destruct ((x =? 0) || (x =? mx)), ((y =? 0) || (y =? mx)),
    ((z =? 0) || (z =? mx)); reflexivity.
Qed.

Lemma inner1_false (mx v : Z) : inner1 mx v = false <-> v = 0 \/ v = mx.
Proof.
  unfold inner1.
  destruct (Z.eqb_spec v 0), (Z.eqb_spec v mx); cbn; split;
    try tauto; try discriminate; intros [? | ?]; contradiction.
Qed.

Section Counting.
Local Open Scope nat_scope.
Context {A B : Type}.

(** The length of a [flat_map] whose pieces have one of two lengths. *)
Lemma length_flat_map_two (q : A -> bool) (f : A -> list B) (ka kb : nat)
  (l : list A) :
  (forall x, In x l -> List.length (f x) = if q x then ka else kb) ->
  List.length (flat_map f l)
  = List.length (filter q l) * ka
    + (List.length l - List.length (filter q l)) * kb.
Proof.
  induction l as [| a l IH]; intros Hf; [reflexivity |].
  cbn [flat_map filter]. rewrite length_app, (Hf a (or_introl eq_refl)).
  rewrite IH by (intros x Hx; apply Hf; right; exact Hx).
  pose proof (filter_length_le q l) as Hle.
  destruct (q a); cbn [List.length]; nia.
Qed.

Lemma filter_all (q : A -> bool) (l : list A) :
  (forall x, In x l -> q x = true) -> filter q l = l.
Proof.
  induction l as [| a l IH]; intros H; [reflexivity |].
  cbn [filter]. rewrite (H a (or_introl eq_refl)).
  rewrite IH by (intros x Hx; apply H; right; exact Hx). reflexivity.
Qed.

(** A [flat_map] has no duplicate when the element it came from can be read
    off every result. *)
Lemma NoDup_flat_map_key (f : A -> list B) (key : B -> A) (l : list A) :
  NoDup l ->
  (forall a b, In b (f a) -> key b = a) ->
  (forall a, In a l -> NoDup (f a)) ->
  NoDup (flat_map f l).
Proof.
  intros Hnd Hkey. induction Hnd as [| a l Hnotin Hnd IH]; intros Hf.
  - constructor.
  - cbn [flat_map]. apply NoDup_app.
    + apply Hf. left. reflexivity.
    + apply IH. intros x Hx. apply Hf. right. exact Hx.
    + intros b Hb Hb'. apply in_flat_map in Hb'.
      destruct Hb' as [a' [Ha' Hb']].
      apply Hkey in Hb. apply Hkey in Hb'. congruence.
Qed.
End Counting.

Lemma NoDup_range (size : Z) : NoDup (range size).
Proof.
  unfold range. apply NoDup_map_NoDup_ForallPairs.
  - intros a b _ _ H. lia.
  - apply seq_NoDup.
Qed.

Lemma length_range (size : Z) : List.length (range size) = Z.to_nat size.
Proof.
  unfold range. rewrite length_map, length_seq. reflexivity.
Qed.

(** Of the [size] coordinates, [size - 2] are strictly inside. *)
Lemma count_inner1 (size : Z) :
  2 <= size ->
  List.length (filter (inner1 (size - 1)) (range size))
  = (Z.to_nat size - 2)%nat.
Proof.
  intros Hsize. unfold range.
  destruct (Z.to_nat size) as [| [| k]] eqn:Hn; [lia | lia |].
  rewrite seq_S. cbn [seq]. rewrite map_app. cbn [map].
  rewrite filter_app. cbn [filter].
  replace (inner1 (size - 1) (Z.of_nat 0)) with false by reflexivity.
  replace (inner1 (size - 1) (Z.of_nat (0 + S k))) with false.
  2: { symmetry. apply inner1_false. right. lia. }
  rewrite app_nil_r, filter_all.
  - rewrite length_map, length_seq. lia.
  - intros v Hv. apply in_map_iff in Hv. destruct Hv as [i [<- Hi]].
    apply in_seq in Hi.
    destruct (inner1 (size - 1) (Z.of_nat i)) eqn:E; [reflexivity |].
    apply inner1_false in E. lia.
Qed.

Lemma length_pieces_NewCube (size : Z) :
  2 <= size -> in_int size ->
  Z.of_nat (List.length (pieces (NewCube size))) = size ^ 3 - (size - 2) ^ 3.
Proof.
  intros Hsize Hint.
  pose proof (NewCube_max size ltac:(lia) Hint) as Hmax.
  unfold NewCube in *. cbn [max pieces] in *. rewrite Hmax.
  set (mx := size - 1). set (n := Z.to_nat size).
  set (a := (n - 2)%nat).
  pose proof (count_inner1 size Hsize) as Hcount. fold mx n a in Hcount.
  pose proof (length_range size) as Hlen. fold n in Hlen.
  (* the innermost loop, for given x and y *)
  assert (Hz : forall x y,
    List.length
      (flat_map (fun z => if isInner mx [x; y; z] then []
                          else [newPiece mx x y z]) (range size))
    = if inner1 mx y then (if inner1 mx x then n - a else n)%nat else n).
  { intros x y.
    rewrite (length_flat_map_two (inner1 mx) _
               (if inner1 mx x && inner1 mx y then 0 else 1)%nat 1%nat).
    - rewrite Hcount, Hlen. destruct (inner1 mx x), (inner1 mx y); cbn; lia.
    - intros z _. rewrite isInner3.
      destruct (inner1 mx x), (inner1 mx y), (inner1 mx z); reflexivity. }
  (* the middle loop, for given x *)
  assert (Hy : forall x,
    List.length
      (flat_map (fun y =>
         flat_map (fun z => if isInner mx [x; y; z] then []
                            else [newPiece mx x y z]) (range size))
         (range size))
    = if inner1 mx x then (a * (n - a) + (n - a) * n)%nat else (n * n)%nat).
  { intros x.
    rewrite (length_flat_map_two (inner1 mx) _
               (if inner1 mx x then n - a else n)%nat n).
    - rewrite Hcount, Hlen. destruct (inner1 mx x); lia.
    - intros y _. apply Hz. }
  rewrite (length_flat_map_two (inner1 mx) _
             (a * (n - a) + (n - a) * n)%nat (n * n)%nat)
    by (intros x _; apply Hy).
  rewrite Hcount, Hlen.
  assert (Hn : n = (a + 2)%nat) by (subst a n; lia).
  assert (Hs : size = Z.of_nat a + 2) by (subst a n; lia).
  rewrite Hn, Hs.
  replace (a + 2 - a)%nat with 2%nat by lia.
  rewrite Nat2Z.inj_add, !Nat2Z.inj_mul, !Nat2Z.inj_add, !Nat2Z.inj_mul,
    !Nat2Z.inj_add.
  change (Z.of_nat 2) with 2.
  replace (Z.of_nat a + 2 - 2) with (Z.of_nat a) by lia.
  generalize (Z.of_nat a). intros w. ring.
Qed.

Lemma isInner_false (mx x y z : Z) :
  isInner mx [x; y; z] = false
  <-> x = 0 \/ x = mx \/ y = 0 \/ y = mx \/ z = 0 \/ z = mx.
Proof.
  rewrite isInner3.
  pose proof (inner1_false mx x) as Hx.
  pose proof (inner1_false mx y) as Hy.
  pose proof (inner1_false mx z) as Hz.
  destruct (inner1 mx x), (inner1 mx y), (inner1 mx z); cbn [andb];
    intuition discriminate.
Qed.

Lemma In_pieces_NewCube (size : Z) (p : piece) :
  1 <= size -> in_int size ->
  In p (pieces (NewCube size))
  <-> exists x y z, shellPoint size x y z /\ p = newPiece (size - 1) x y z.
Proof.
  intros Hsize Hint.
  pose proof (NewCube_max size Hsize Hint) as Hmax.
  unfold NewCube in *. cbn [max pieces] in *. rewrite Hmax.
  unfold shellPoint. split.
  - intros Hp.
    apply in_flat_map in Hp. destruct Hp as [x [Hx Hp]].
    apply in_flat_map in Hp. destruct Hp as [y [Hy Hp]].
    apply in_flat_map in Hp. destruct Hp as [z [Hz Hp]].
    apply In_range in Hx, Hy, Hz.
    destruct (isInner (size - 1) [x; y; z]) eqn:Hin; [contradiction |].
    destruct Hp as [<- | []]. apply isInner_false in Hin.
    exists x, y, z. split; [split; [lia | exact Hin] | reflexivity].
  - intros [x [y [z [[[Hx [Hy Hz]] Hshell] ->]]]].
    apply in_flat_map. exists x. split; [apply In_range; lia |].
    apply in_flat_map. exists y. split; [apply In_range; lia |].
    apply in_flat_map. exists z. split; [apply In_range; lia |].
    apply isInner_false in Hshell. rewrite Hshell. left. reflexivity.
Qed.

Lemma NoDup_pieces_NewCube (size : Z) : NoDup (pieces (NewCube size)).
Proof.
  unfold NewCube. cbn [pieces].
  apply (NoDup_flat_map_key _ (fun p => coordinate (p_x p)));
    [apply NoDup_range | |].
  - intros x p Hp.
    apply in_flat_map in Hp. destruct Hp as [y [_ Hp]].
    apply in_flat_map in Hp. destruct Hp as [z [_ Hp]].
    destruct (isInner _ _); [contradiction |].
    destruct Hp as [<- | []]. reflexivity.
  - intros x _.
    apply (NoDup_flat_map_key _ (fun p => coordinate (p_y p)));
      [apply NoDup_range | |].
    + intros y p Hp.
      apply in_flat_map in Hp. destruct Hp as [z [_ Hp]].
      destruct (isInner _ _); [contradiction |].
      destruct Hp as [<- | []]. reflexivity.
    + intros y _.
      apply (NoDup_flat_map_key _ (fun p => coordinate (p_z p)));
        [apply NoDup_range | |].
      * intros z p Hp.
        destruct (isInner _ _); [contradiction |].
        destruct Hp as [<- | []]. reflexivity.
      * intros z _. destruct (isInner _ _); repeat constructor.
        intros [].
Qed.

(** Two lattice points give two different pieces. *)
Lemma newPiece_inj (mx x y z x' y' z' : Z) :
  newPiece mx x y z = newPiece mx x' y' z' -> x = x' /\ y = y' /\ z = z'.
Proof.
  unfold newPiece, newTile. intros H. injection H. auto.
Qed.

Lemma wrap_mod (z : Z) : wrap z mod 2 ^ 64 = z mod 2 ^ 64.
Proof.
  unfold wrap.
  rewrite <- Zminus_mod_idemp_l, Z.mod_mod by lia.
  rewrite Zminus_mod_idemp_l. f_equal. lia.
Qed.

Lemma wrap_congr (a b : Z) : a mod 2 ^ 64 = b mod 2 ^ 64 -> wrap a = wrap b.
Proof.
  intros H. unfold wrap.
  rewrite <- (Zplus_mod_idemp_l a), H, Zplus_mod_idemp_l. reflexivity.
Qed.

Lemma wrap_mul_l (a v : Z) : wrap (wrap a * v) = wrap (a * v).
Proof.
  apply wrap_congr.
  rewrite <- Zmult_mod_idemp_l, wrap_mod, Zmult_mod_idemp_l. reflexivity.
Qed.

Lemma pow_wraps (v exp : Z) :
  pow v exp = wrap (v ^ Z.max 0 exp)
  /\ (exp <= 0 -> pow v exp = 1)
  /\ (0 <= exp -> in_int (v ^ exp) -> pow v exp = v ^ exp).
Proof.
  assert (H : pow v exp = wrap (v ^ Z.max 0 exp)).
  { unfold pow.
    replace (Z.max 0 exp) with (Z.of_nat (Z.to_nat exp)) by lia.
    induction (Z.to_nat exp) as [| n IH]; [reflexivity |].
    rewrite Nat.iter_succ, IH, wrap_mul_l, Nat2Z.inj_succ, Z.pow_succ_r by lia.
    f_equal. lia. }
  split; [exact H |]. split.
  - intros Hle. rewrite H. replace (Z.max 0 exp) with 0 by lia. reflexivity.
  - intros Hge Hint. rewrite H. replace (Z.max 0 exp) with exp by lia.
    apply wrap_small, Hint.
Qed.

(** Without wrap-around the capacity that [NewCube] computes is the number
    of pieces it appends. *)
Lemma NewCube_n_length (size : Z) :
  2 <= size -> size ^ 3 < 2 ^ 63 ->
  NewCube_n size = Z.of_nat (List.length (pieces (NewCube size))).
Proof.
  intros Hsize Hcube.
  assert (Hlt : size < 2 ^ 63) by nia.
  assert (Hint : in_int size) by (unfold in_int; lia).
  rewrite (length_pieces_NewCube size Hsize Hint).
  unfold NewCube_n.
  rewrite (wrap_small (size - 2)) by (unfold in_int; lia).
  assert (H2 : 0 <= (size - 2) ^ 3 <= size ^ 3).
  { split; [apply Z.pow_nonneg; lia |].
    apply Z.pow_le_mono_l. lia. }
  destruct (pow_wraps size 3) as [_ [_ ->]];
    [| lia | unfold in_int; split; [| lia];
             pose proof (Z.pow_nonneg size 3); lia].
  destruct (pow_wraps (size - 2) 3) as [_ [_ ->]];
    [| lia | unfold in_int; lia].
  apply wrap_small. unfold in_int. lia.
Qed.

(** [make] does not panic in [NewCube] when the cube fits in an [int]. *)
Lemma NewCube_run_returns (size : Z) :
  1 <= size -> size ^ 3 < 2 ^ 63 ->
  NewCube_run size = Some (NewCube size).
Proof.
  intros Hsize Hcube. unfold NewCube_run, makePanics.
  destruct (Z.ltb_spec (NewCube_n size) 0) as [Hneg | _]; [| reflexivity].
  exfalso. destruct (Z.eq_dec size 1) as [-> | Hne].
  - vm_compute in Hneg. discriminate Hneg.
  - rewrite (NewCube_n_length size) in Hneg by (assumption || lia). lia.
Qed.

(** Beyond that bound the capacity can wrap around to a negative number,
    and [NewCube] panics: so it does for the size [2^32]. *)
Lemma NewCube_run_panics : NewCube_run (2 ^ 32) = None.
Proof. vm_compute. reflexivity. Qed.

(** C4 (as amended).  For every [size >= 1] whose cube fits in an [int]
    ([size^3 < 2^63], so that the capacity that [NewCube] computes with
    [pow] does not wrap around), [NewCube size] does not panic in [make]
    and returns a cube with exactly [size^3 - (size-2)^3] pieces when
    [size >= 2], and with exactly one piece when [size = 1].  The pieces
    are, without repetition, the pieces of the lattice points of
    [[0, size-1]^3] that have a coordinate equal to 0 or to [size-1]: one
    piece for each of them and none for an interior point. *)
Theorem NewCube_pieces (size : Z) :
  1 <= size -> size ^ 3 < 2 ^ 63 ->
  NewCube_run size = Some (NewCube size)
  /\ Z.of_nat (List.length (pieces (NewCube size)))
     = (if size =? 1 then 1 else size ^ 3 - (size - 2) ^ 3)
  /\ (forall p, In p (pieces (NewCube size))
       <-> exists x y z,
             shellPoint size x y z /\ p = newPiece (size - 1) x y z)
  /\ NoDup (pieces (NewCube size)).
Proof.
  intros Hsize Hcube.
  assert (Hint : in_int size) by (unfold in_int; nia).
  split; [apply NewCube_run_returns; assumption |]. split; [| split].
  - destruct (Z.eqb_spec size 1) as [-> | Hne]; [reflexivity |].
    apply length_pieces_NewCube; [lia | exact Hint].
  - intros p. apply In_pieces_NewCube; assumption.
  - apply NoDup_pieces_NewCube.
Qed.

Lemma NewCube_pieces_witness :
  NewCube_run 3 = Some (NewCube 3)
  /\ Z.of_nat (List.length (pieces (NewCube 3))) = 3 ^ 3 - (3 - 2) ^ 3
  /\ In (newPiece 2 0 1 2) (pieces (NewCube 3)).
Proof.
  destruct (NewCube_pieces 3) as [Hrun [Hlen [Hin _]]].
  - lia.
  - reflexivity.
  - split; [exact Hrun |]. split; [exact Hlen |].
    apply Hin. exists 0, 1, 2. split; [| reflexivity].
    unfold shellPoint. lia.
Defined.

(** C4 (counterexample).  [NewCube 1] has one piece, the single lattice
    point, while [1^3 - (1-2)^3] is 2 (which is also the capacity that
    [NewCube] computes for its slice). *)
Lemma NewCube_one_piece :
  Z.of_nat (List.length (pieces (NewCube 1))) = 1
  /\ 1 ^ 3 - (1 - 2) ^ 3 = 2
  /\ NewCube_n 1 = 2
  /\ Z.of_nat (List.length (pieces (NewCube 1))) <> 1 ^ 3 - (1 - 2) ^ 3.
Proof.
  repeat split; try reflexivity. discriminate.
Qed.

(* ================================================================= *)
(** * Further properties *)

(* ================================================================= *)
(** ** [reverse] and [ReverseMoves] *)

(** X1.  [reverse] returns the elements of its argument in the opposite
    order ([rev]); the result has the length of the argument, and reversing
    twice gives the argument back. *)
Theorem reverse_reverses (A : Type) (l : list A) :
  reverse l = rev l
  /\ List.length (reverse l) = List.length l
  /\ reverse (reverse l) = l.
Proof.
  rewrite !reverse_rev. rewrite length_rev, rev_involutive. auto.
Qed.

Lemma invertMove_involutive (m : Move) : invertMove (invertMove m) = m.
Proof.
  destruct m as [sl op wd rot inv]. unfold invertMove, with_Inverted.
  cbn [Slices Operator Wide Rotations Inverted]. rewrite negb_involutive.
  reflexivity.
Qed.

Lemma ReverseMoves_map (moves : list Move) :
  ReverseMoves moves = map invertMove (rev moves).
Proof. apply ReverseMoves_rev. Qed.

(** X2.  [ReverseMoves] is its own inverse, keeps the number of moves, and
    on a concatenation it is the reversed second part followed by the
    reversed first part; it changes the inverted flag of each move and no
    other field. *)
Theorem ReverseMoves_involutive (A B : list Move) :
  ReverseMoves (ReverseMoves A) = A
  /\ List.length (ReverseMoves A) = List.length A
  /\ ReverseMoves (A ++ B) = ReverseMoves B ++ ReverseMoves A
  /\ Forall (fun m => exists m', In m' A
               /\ Slices m = Slices m' /\ Operator m = Operator m'
               /\ Wide m = Wide m' /\ Rotations m = Rotations m'
               /\ Inverted m = negb (Inverted m'))
       (ReverseMoves A).
Proof.
  rewrite !ReverseMoves_map. split; [| split; [| split]].
  - rewrite <- map_rev, rev_involutive, map_map.
    rewrite <- (map_id A) at 2. apply map_ext. apply invertMove_involutive.
  - rewrite length_map, length_rev. reflexivity.
  - rewrite rev_app_distr, map_app. reflexivity.
  - apply Forall_forall. intros m Hm. apply in_map_iff in Hm.
    destruct Hm as [m' [<- Hin]]. apply in_rev in Hin.
    exists m'. split; [exact Hin |]. destruct m'; cbn. auto.
Qed.

(* ================================================================= *)
(** ** More on [Expand] *)

(** X3.  For all move sequences A and B, expanding the commutator group
    [[A , B]] gives the sequence normalization of
    [A ++ B ++ ReverseMoves A ++ ReverseMoves B]. *)
Theorem Expand_commutator (A B : list Move) :
  Expand (commutatorGroup A B)
  = NormalizeMoves (A ++ B ++ ReverseMoves A ++ ReverseMoves B).
Proof.
  unfold commutatorGroup. cbn [Expand].
  rewrite expandLoop_app, expandLoop_moves_head. cbn [expandLoop].
  rewrite expandLoop_moves_tail. cbn. rewrite <- !app_assoc. reflexivity.
Qed.

Lemma concat_repeat_comm {A : Type} (l : list A) (n : nat) :
  concat (repeat l n) ++ l = l ++ concat (repeat l n).
Proof.
  induction n as [| n IH]; cbn [repeat concat].
  - rewrite app_nil_r. reflexivity.
  - rewrite <- app_assoc, IH. reflexivity.
Qed.

Lemma repeatMoves_concat (res : list Move) (factor : Z) :
  repeatMoves res factor
  = if factor >? 1 then concat (repeat res (Z.to_nat factor)) else res.
Proof.
  unfold repeatMoves. destruct (factor >? 1); [| reflexivity].
  induction (Z.to_nat factor) as [| n IH]; [reflexivity |].
  rewrite Nat.iter_succ, IH. cbn [repeat concat]. apply concat_repeat_comm.
Qed.

(** X4.  The factor of a group, with the panic of [make] in view
    ([Expand_run]).  A group without separator whose tokens contribute the
    moves [a] (no panic and no error on the way): when [Factor > 1] and the
    capacity [len(a) * Factor] is within the integers, [Expand] returns the
    normalization of [a] repeated [Factor] times; for every other factor,
    1, 0 and negative ones, it returns the normalization of [a] itself;
    and when [Factor > 1] and the capacity wraps around to a negative
    number, [make] panics.  The group type plays no part. *)
Theorem Expand_factor
  (tokens : list Tokenizable) (a : list Move) (factor : Z) (gt : GroupType) :
  expandLoop_run Expand_run tokens ([], [], None) = Some (Ok (a, [], None)) ->
  (factor > 1 -> len a * factor < 2 ^ 63 ->
   Expand_run (mkGroup tokens factor gt)
   = Some (NormalizeMoves (concat (repeat a (Z.to_nat factor)))))
  /\ (factor <= 1 ->
      Expand_run (mkGroup tokens factor gt) = Some (NormalizeMoves a))
  /\ (factor > 1 -> wrap (len a * factor) < 0 ->
      Expand_run (mkGroup tokens factor gt) = None).
Proof.
  intros H.
  assert (E : Expand_run (mkGroup tokens factor gt)
              = if (factor >? 1) && makePanics (wrap (len a * factor))
                then None
                else Some (NormalizeMoves
                             (if factor >? 1
                              then concat (repeat a (Z.to_nat factor))
                              else a))).
  { cbn [Expand_run]. rewrite H. unfold expandFinish_run.
    cbn [isSome andb]. rewrite app_nil_r, repeatMoves_concat. reflexivity. }
  rewrite E. unfold makePanics. split; [| split].
  - intros Hf Hcap.
    rewrite wrap_small by (unfold in_int, len in *; nia).
    destruct (Z.gtb_spec factor 1); [| lia].
    destruct (Z.ltb_spec (len a * factor) 0);
      [unfold len in *; nia | reflexivity].
  - intros Hf. destruct (Z.gtb_spec factor 1); [lia | reflexivity].
  - intros Hf Hneg. destruct (Z.gtb_spec factor 1); [| lia].
    destruct (Z.ltb_spec (wrap (len a * factor)) 0); [reflexivity | lia].
Qed.

Lemma Expand_factor_witness :
  Expand_run (mkGroup [TMove (mv "R" 1 false);
                       TGroup (mkGroup [TMove (mv "U" 1 false)] 0
                                 GroupTypeMove)]
                      3 GroupTypeMove)
  = Some (NormalizeMoves
            (concat (repeat [mv "R" 1 false; mv "U" 1 false] 3))).
Proof.
  apply (proj1 (Expand_factor
                  [TMove (mv "R" 1 false);
                   TGroup (mkGroup [TMove (mv "U" 1 false)] 0 GroupTypeMove)]
                  [mv "R" 1 false; mv "U" 1 false] 3 GroupTypeMove eq_refl)).
  - lia.
  - reflexivity.
Defined.

(** The capacity [len(res) * Factor] is computed in [int]: two moves
    repeated [2^62] times ask for [-2^63], and [make] panics. *)
Lemma Expand_run_panics :
  Expand_run (mkGroup [TMove (mv "R" 1 false); TMove (mv "U" 1 false)]
                      (2 ^ 62) GroupTypeMove)
  = None.
Proof. vm_compute. reflexivity. Qed.



(* ================================================================= *)
(** ** More on [NormalizeMoves] *)

Lemma unsnoc_snoc {A : Type} (l : list A) (a : A) :
  unsnoc (l ++ [a]) = Some (l, a).
Proof.
  unfold unsnoc. rewrite rev_app_distr. cbn. rewrite rev_involutive.
  reflexivity.
Qed.

Lemma unsnoc_Some {A : Type} (l init : list A) (a : A) :
  unsnoc l = Some (init, a) -> l = init ++ [a].
Proof.
  unfold unsnoc. destruct (rev l) as [| b l'] eqn:Hrev; [discriminate |].
  intros H. injection H as <- <-.
  rewrite <- (rev_involutive l), Hrev. reflexivity.
Qed.

Lemma normalizeStep_length (normalized : list Move) (t : Move) :
  (List.length (normalizeStep normalized t) <= S (List.length normalized))%nat.
Proof.
  unfold normalizeStep.
  destruct (unsnoc normalized) as [[init lastMove] |] eqn:Hu.
  - apply unsnoc_Some in Hu. subst normalized. rewrite length_app. cbn.
    destruct (CombineMove lastMove t) as [[combined |] []];
      rewrite ?length_app; cbn; lia.
  - rewrite length_app. cbn. lia.
Qed.

(** X6.  [NormalizeMoves] never fails and never returns more moves than it
    was given. *)
Theorem NormalizeMoves_length (moves : list Move) :
  exists normalized,
    NormalizeMoves moves = Ok normalized
    /\ (List.length normalized <= List.length moves)%nat.
Proof.
  unfold NormalizeMoves. eexists. split; [reflexivity |].
  assert (H : forall acc,
            (List.length (fold_left normalizeStep moves acc)
             <= List.length acc + List.length moves)%nat).
  { induction moves as [| m ms IH]; intros acc; cbn [fold_left List.length].
    - lia.
    - specialize (IH (normalizeStep acc m)).
      pose proof (normalizeStep_length acc m). lia. }
  apply (H []).
Qed.

(** A move cancels against its inverse. *)
Lemma CombineMove_inverse (m : Move) :
  CombineMove m (invertMove m) = (None, true).
Proof.
  destruct m as [sl op wd rot inv]. unfold CombineMove, invertMove.
  cbn [Slices Operator Wide Rotations Inverted with_Inverted with_Rotations].
  rewrite !Z.eqb_refl, eqb_reflx. cbn [negb orb].
  replace (Bool.eqb inv (negb inv)) with false by (destruct inv; reflexivity).
  cbn [Rotations]. rewrite Z.sub_diag. reflexivity.
Qed.

(** The inverse of a sequence removes the sequence from the end of what is
    already placed. *)
Lemma normalize_inverse_suffix (ms : list Move) : forall pre,
  fold_left normalizeStep (ReverseMoves ms) (pre ++ ms) = pre.
Proof.
  induction ms as [| b ms IH] using rev_ind; intros pre.
  - rewrite app_nil_r. reflexivity.
  - rewrite ReverseMoves_map, rev_app_distr. cbn [rev app map fold_left].
    rewrite app_assoc. unfold normalizeStep at 2.
    rewrite unsnoc_snoc, CombineMove_inverse.
    rewrite <- ReverseMoves_map. apply IH.
Qed.

(** X7.  A sequence that normalization leaves as it is, followed by its
    inverse ([ReverseMoves]), normalizes to the empty sequence. *)
Theorem NormalizeMoves_inverse (ms : list Move) :
  NormalizeMoves ms = Ok ms ->
  NormalizeMoves (ms ++ ReverseMoves ms) = Ok [].
Proof.
  unfold NormalizeMoves. intros H. injection H as H.
  rewrite fold_left_app, H. f_equal.
  apply (normalize_inverse_suffix ms []).
Qed.

Lemma NormalizeMoves_inverse_witness :
  NormalizeMoves ([mv "R" 1 false; mv "U" 2 false; mv "F" 1 true]
                  ++ ReverseMoves
                       [mv "R" 1 false; mv "U" 2 false; mv "F" 1 true])
  = Ok [].
Proof.
  exact (NormalizeMoves_inverse
           [mv "R" 1 false; mv "U" 2 false; mv "F" 1 true] eq_refl).
Defined.

(* ================================================================= *)
(** ** The moves that the tokenizer returns *)

Lemma digit_val_bounds (ch : ascii) :
  isDigit ch = true -> 0 <= digit_val ch <= 9.
Proof.
  intros Hd. destruct ch as [[] [] [] [] [] [] [] []];
    cbv in Hd |- *; try discriminate; split; discriminate.
Qed.

Lemma optional_digit_value (input : list ascii) (v : Z) :
  strToInt (fst (optional isDigit input)) = Ok v -> 0 <= v <= 9.
Proof.
  unfold optional. destruct input as [| ch rest]; cbn [fst].
  - intros H. injection H as <-. lia.
  - destruct (isDigit ch) eqn:Hd; cbn [fst].
    + rewrite (strToInt_digit _ Hd). intros H. injection H as <-.
      apply digit_val_bounds, Hd.
    + intros H. injection H as <-. lia.
Qed.

Lemma reToken_values (input : list ascii) (m : submatches) (vs vr : Z) :
  reToken input = Some m ->
  strToInt (sm_slices m) = Ok vs ->
  strToInt (sm_rotations m) = Ok vr ->
  0 <= vs <= 9 /\ 0 <= vr <= 9.
Proof.
  intros Hm Hs Hr.
  assert (Hface : forall sl inp,
            (forall v, strToInt sl = Ok v -> 0 <= v <= 9) ->
            reToken_face sl inp = Some m -> 0 <= vs <= 9 /\ 0 <= vr <= 9).
  { intros sl inp Hsl H. apply reToken_face_Some in H.
    destruct H as [E [rest E']]. rewrite E in Hs. rewrite E' in Hr.
    split; [apply Hsl, Hs | apply (optional_digit_value rest), Hr]. }
  assert (Hnil : forall v, strToInt [] = Ok v -> 0 <= v <= 9).
  { intros v H. injection H as <-. lia. }
  unfold reToken in Hm. destruct input as [| d rest]; [apply (Hface [] []); auto |].
  destruct (isDigit d) eqn:Hd; [| apply (Hface [] (d :: rest)); auto].
  destruct (reToken_face [d] rest) eqn:Hf;
    [| apply (Hface [] (d :: rest)); auto].
  injection Hm as ->. apply (Hface [d] rest); [| exact Hf].
  intros v H. rewrite (strToInt_digit _ Hd) in H. injection H as <-.
  apply digit_val_bounds, Hd.
Qed.

Lemma validate_None (t : Move) :
  validate t = None ->
  (isAny t [rlit "x"; rlit "y"; rlit "z"] = true ->
   Slices t <= 0 /\ Wide t = false)
  /\ (Wide t = false -> Slices t = 0).
Proof.
  unfold validate.
  destruct (isAny t [rlit "x"; rlit "y"; rlit "z"]), (Wide t),
    (Z.gtb_spec (Slices t) 0), (Z.eqb_spec (Slices t) 0);
    cbn [andb orb negb]; intros Hval; try discriminate;
    split; intros; try discriminate; try split; try lia; reflexivity.
Qed.

Lemma extractToken_canonicalMove (input : list ascii) (t : Move) (n : Z) :
  extractToken input = Ok (t, n) ->
  canonicalMove t /\ 1 <= n <= len input.
Proof.
  intros H. split; [| apply (extractToken_length _ _ _ H)].
  unfold extractToken in H.
  destruct (reToken input) as [m |] eqn:Hm; [| discriminate].
  destruct (strToInt (sm_slices m)) as [vs | ?] eqn:Hs; [| discriminate].
  destruct (strToInt (sm_rotations m)) as [vr | ?] eqn:Hr; [| discriminate].
  destruct (reToken_values _ _ _ _ Hm Hs Hr) as [Hvs Hvr].
  match type of H with context [validate ?t0] =>
    set (t1 := t0) in *; destruct (validate t1) eqn:Hv; [discriminate |] end.
  injection H as <- _.
  match goal with t1 := Normalize ?t0 |- _ => set (m0 := t0) in * end.
  assert (Hrem : Z.rem (Rotations m0) 4 <> -3).
  { pose proof (Z.rem_nonneg (Rotations m0) 4 ltac:(lia) (proj1 Hvr)). lia. }
  assert (Hnorm : Normalize t1 = t1)
    by (apply Normalize_idempotent_except, Hrem).
  assert (Hrot : Rotations t1 = 1 \/ Rotations t1 = 2).
  { destruct (Normalize_Rotations m0) as [? | [? | [_ ?]]]; auto.
    contradiction. }
  assert (Hsl : Slices t1 = if (vs =? 0) && Wide t1 then 2 else vs).
  { subst t1. rewrite Normalize_fields. reflexivity. }
  destruct (validate_None _ Hv) as [Hxyz Hnw].
  assert (Hbound : 0 <= Slices t1 <= 9 /\ (Wide t1 = true -> 1 <= Slices t1)).
  { rewrite Hsl. destruct (Z.eqb_spec vs 0), (Wide t1); cbn [andb];
      split; try lia; intros; try discriminate; lia. }
  unfold canonicalMove. destruct Hbound as [Hb Hw].
  split; [exact Hrot |]. split; [exact Hb |]. split; [exact Hnw |].
  split; [exact Hw |]. split; [| exact Hnorm].
  intros Hx. destruct (Hxyz Hx) as [Hle Hwf]. split; [lia | exact Hwf].
Qed.

(** X8.  Every move that [extractToken] returns is canonical: its rotation
    count is 1 or 2, its slice count is between 0 and 9, it has a slice
    count only when it is wide (and then at least 1), a whole-cube rotation
    x, y or z is never wide and has no slices, and [Normalize] leaves it as
    it is.  The length returned is at least 1 and at most the length of the
    input. *)
Theorem extractToken_canonical (input : list ascii) (t : Move) (n : Z) :
  extractToken input = Ok (t, n) ->
  canonicalMove t /\ 1 <= n <= len input.
Proof. apply extractToken_canonicalMove. Qed.

Lemma extractToken_canonical_witness :
  extractToken (str "2Rw3' U") = Ok (mkMove 2 (rlit "R") true 1 false, 5)
  /\ canonicalMove (mkMove 2 (rlit "R") true 1 false).
Proof.
  split; [reflexivity |].
  exact (proj1 (extractToken_canonical (str "2Rw3' U")
                  (mkMove 2 (rlit "R") true 1 false) 5 eq_refl)).
Defined.

(* ================================================================= *)
(** ** [ExecuteMove] as one turn *)

Lemma ExecuteMove_moveTurn (c : Cube) (move : Move) :
  ExecuteMove c move
  = match moveTurn c move with
    | Some t => (Cube_turn c t, None)
    | None => (c, if guardLayerMin c move <? 0 then Some ErrSliceParam
                  else None)
    end.
Proof.
  unfold ExecuteMove, moveTurn, guardLayerMin.
  destruct ((if Wide move then _ else _) <? 0); [reflexivity |].
  destruct (if isAny move [rlit "L"; rlit "B"; rlit "D"; rlit "E"]
            then _ else _) as [lo hi].
  destruct (isAny move [rlit "M"; rlit "E"; rlit "S"]);
    [destruct (Z.rem (max c) 2 =? 1) |]; reflexivity.
Qed.

Lemma ExecuteMove_fst (c : Cube) (move : Move) :
  fst (ExecuteMove c move)
  = match moveTurn c move with Some t => Cube_turn c t | None => c end.
Proof.
  rewrite ExecuteMove_moveTurn. destruct (moveTurn c move); reflexivity.
Qed.

Lemma moveTurn_max_ext (c c' : Cube) (move : Move) :
  max c = max c' -> moveTurn c move = moveTurn c' move.
Proof.
  intros H. unfold moveTurn. rewrite H. reflexivity.
Qed.

(** The inverse move asks for the same turn in the other direction. *)
Lemma moveTurn_invertMove (c : Cube) (move : Move) :
  moveTurn c (invertMove move) = option_map flipTurn (moveTurn c move).
Proof.
  destruct move as [sl op wd rot inv].
  unfold moveTurn, invertMove, with_Inverted, isAny.
  cbn [Slices Operator Wide Rotations Inverted].
  destruct ((if wd then _ else _) <? 0); [reflexivity |].
  destruct (if existsb (Z.eqb op) [rlit "L"; rlit "B"; rlit "D"; rlit "E"]
            then _ else _) as [lo hi].
  destruct (existsb (Z.eqb op) [rlit "M"; rlit "E"; rlit "S"]);
    [destruct (Z.rem (max c) 2 =? 1); [reflexivity |] |];
    unfold flipTurn; cbn [option_map turn_axis layerMin layerMax rotations
                          clockwise];
    repeat match goal with |- context [existsb (Z.eqb op) ?l] =>
      destruct (existsb (Z.eqb op) l) end; reflexivity.
Qed.

(* ================================================================= *)
(** ** Integers stay integers *)

Lemma turnAxisStep_int (m : Z) (d : bool) (s : tile * tile) :
  pair_int s -> pair_int (turnAxisStep m d s).
Proof.
  destruct s as [t1 t2]. unfold pair_int, tile_int, turnAxisStep.
  cbn [fst snd]. intros [H1 H2].
  destruct d; cbn [fst snd coordinate]; split;
    try assumption; apply wrap_in_int.
Qed.

Lemma iter_int (m : Z) (d : bool) (n : nat) (s : tile * tile) :
  pair_int s -> pair_int (Nat.iter n (turnAxisStep m d) s).
Proof.
  intros Hs. induction n as [| n IH]; [exact Hs |].
  rewrite Nat.iter_succ. apply turnAxisStep_int, IH.
Qed.

Lemma rotatePiece_proj (c : Cube) (a : axis) (d : bool) (rots : Z)
  (tx ty tz : tile) :
  rotatePiece c a d rots (mkPiece tx ty tz)
  = match a with
    | axisX => mkPiece tx (fst (turnAxis c ty tz d rots))
                          (snd (turnAxis c ty tz d rots))
    | axisY => mkPiece (fst (turnAxis c tx tz d rots)) ty
                       (snd (turnAxis c tx tz d rots))
    | axisZ => mkPiece (fst (turnAxis c tx ty d rots))
                       (snd (turnAxis c tx ty d rots)) tz
    end.
Proof.
  unfold rotatePiece. cbn [p_x p_y p_z].
  destruct a;
    match goal with |- context [turnAxis c ?u ?v d rots] =>
      destruct (turnAxis c u v d rots) end; reflexivity.
Qed.

Lemma tiles_int_inv (tx ty tz : tile) :
  Forall tile_int (tiles (mkPiece tx ty tz))
  <-> tile_int tx /\ tile_int ty /\ tile_int tz.
Proof.
  unfold tiles. cbn [p_x p_y p_z]. split.
  - intros H. inversion H as [| ? ? Hx H1]; subst.
    inversion H1 as [| ? ? Hy H2]; subst.
    inversion H2 as [| ? ? Hz _]; subst. auto.
  - intros [Hx [Hy Hz]]. repeat apply Forall_cons; auto.
Qed.

Lemma rotatePiece_int (c : Cube) (a : axis) (d : bool) (rots : Z) (p : piece) :
  Forall tile_int (tiles p) ->
  Forall tile_int (tiles (rotatePiece c a d rots p)).
Proof.
  destruct p as [tx ty tz]. intros H. apply tiles_int_inv in H.
  destruct H as [Hx [Hy Hz]]. rewrite rotatePiece_proj. unfold turnAxis.
  destruct a; apply tiles_int_inv;
    match goal with |- context [Nat.iter ?n (turnAxisStep ?m d) (?u, ?v)] =>
      destruct (iter_int m d n (u, v)) as [H1 H2]; [split; assumption |]
    end; auto.
Qed.

Lemma Cube_turn_int (c : Cube) (t : turn) :
  cube_int c -> cube_int (Cube_turn c t).
Proof.
  intros [Hm Hp]. split; [exact Hm |]. unfold Cube_turn. cbn [pieces].
  apply Forall_forall. intros q Hq. apply in_map_iff in Hq.
  destruct Hq as [p [<- Hin]]. rewrite Forall_forall in Hp.
  rewrite turnPiece_rotatePiece.
  destruct (inRange t _); [apply rotatePiece_int |]; apply Hp, Hin.
Qed.

Lemma ExecuteMove_int (c : Cube) (move : Move) :
  cube_int c -> cube_int (fst (ExecuteMove c move)).
Proof.
  intros H. rewrite ExecuteMove_fst.
  destruct (moveTurn c move); [apply Cube_turn_int |]; exact H.
Qed.

Lemma ExecuteMoves_int (moves : list Move) : forall c,
  cube_int c -> cube_int (ExecuteMoves c moves).
Proof.
  unfold ExecuteMoves.
  induction moves as [| m ms IH]; intros c Hc; cbn [fold_left];
    [exact Hc | apply IH, ExecuteMove_int, Hc].
Qed.

(* ================================================================= *)
(** ** Undoing and repeating moves *)

Lemma turnAxisStep_undo (m : Z) (d : bool) (s : tile * tile) :
  pair_int s -> turnAxisStep m (negb d) (turnAxisStep m d s) = s.
Proof.
  destruct s as [[c1 s1 k1] [c2 s2 k2]]. unfold pair_int, tile_int.
  cbn [fst snd coordinate]. intros [H1 H2].
  destruct d; cbn [turnAxisStep negb coordinate coordinateStart color];
    rewrite wrap_sub_sub by assumption; reflexivity.
Qed.

Lemma turnAxisStep_four_pair (m : Z) (d : bool) (s : tile * tile) :
  pair_int s ->
  turnAxisStep m d (turnAxisStep m d (turnAxisStep m d (turnAxisStep m d s)))
  = s.
Proof.
  destruct s as [t1 t2]. intros [H1 H2]. apply turnAxisStep_four; assumption.
Qed.

Section Iterate.
Variable m : Z.
Variable d : bool.
Let f := turnAxisStep m d.
Let g := turnAxisStep m (negb d).

Lemma iter_undo (n : nat) (s : tile * tile) :
  pair_int s -> Nat.iter n g (Nat.iter n f s) = s.
Proof.
  intros Hs. induction n as [| n IH]; [reflexivity |].
  rewrite Nat.iter_succ_r, Nat.iter_succ. unfold g at 2, f at 1.
  rewrite turnAxisStep_undo by (apply iter_int, Hs). exact IH.
Qed.

Lemma iter_four (n : nat) (s : tile * tile) :
  pair_int s ->
  Nat.iter n f (Nat.iter n f (Nat.iter n f (Nat.iter n f s))) = s.
Proof.
  intros Hs. induction n as [| n IH]; [reflexivity |].
  rewrite !Nat.iter_succ, !Nat.iter_swap, IH.
  apply turnAxisStep_four_pair, Hs.
Qed.
End Iterate.

Lemma turnAxis_pair (c : Cube) (d : bool) (rots : Z) (s : tile * tile) :
  turnAxis c (fst s) (snd s) d rots
  = Nat.iter (Z.to_nat rots) (turnAxisStep (max c) d) s.
Proof.
  unfold turnAxis. rewrite <- surjective_pairing. reflexivity.
Qed.

Lemma rotatePiece_undo (c : Cube) (a : axis) (d : bool) (rots : Z) (p : piece) :
  Forall tile_int (tiles p) ->
  rotatePiece c a (negb d) rots (rotatePiece c a d rots p) = p.
Proof.
  destruct p as [tx ty tz]. intros H. apply tiles_int_inv in H.
  destruct H as [Hx [Hy Hz]].
  destruct a; rewrite (rotatePiece_proj c _ d), rotatePiece_proj,
    turnAxis_pair; unfold turnAxis; rewrite iter_undo by (split; assumption);
    reflexivity.
Qed.

Lemma rotatePiece_four_times
  (c : Cube) (a : axis) (d : bool) (rots : Z) (p : piece) :
  Forall tile_int (tiles p) ->
  rotatePiece c a d rots (rotatePiece c a d rots (rotatePiece c a d rots
    (rotatePiece c a d rots p))) = p.
Proof.
  destruct p as [tx ty tz]. intros H. apply tiles_int_inv in H.
  destruct H as [Hx [Hy Hz]].
  destruct a;
    repeat (rewrite rotatePiece_proj; rewrite ?turnAxis_pair);
    unfold turnAxis; rewrite iter_four by (split; assumption); reflexivity.
Qed.

Lemma turnPiece_in_layer (c : Cube) (t : turn) (p q : piece) :
  inRange t (axisCoordinate (turn_axis t) p) = true ->
  axisCoordinate (turn_axis t) q = axisCoordinate (turn_axis t) p ->
  turnPiece c t q = rotatePiece c (turn_axis t) (clockwise t) (rotations t) q.
Proof.
  intros Hr Hq. rewrite turnPiece_rotatePiece, Hq, Hr. reflexivity.
Qed.

Lemma turnPiece_undo (c : Cube) (t : turn) (p : piece) :
  Forall tile_int (tiles p) ->
  turnPiece c (flipTurn t) (turnPiece c t p) = p.
Proof.
  intros Hint.
  destruct (inRange t (axisCoordinate (turn_axis t) p)) eqn:Hr.
  - rewrite (turnPiece_in_layer c t p p Hr eq_refl).
    rewrite (turnPiece_in_layer c (flipTurn t) p)
      by (try exact Hr; apply rotatePiece_axisCoordinate).
    apply rotatePiece_undo, Hint.
  - assert (H1 : turnPiece c t p = p)
      by (rewrite turnPiece_rotatePiece, Hr; reflexivity).
    rewrite H1, turnPiece_rotatePiece.
    change (inRange (flipTurn t) (axisCoordinate (turn_axis (flipTurn t)) p))
      with (inRange t (axisCoordinate (turn_axis t) p)).
    rewrite Hr. reflexivity.
Qed.

Lemma turnPiece_four_times (c : Cube) (t : turn) (p : piece) :
  Forall tile_int (tiles p) ->
  turnPiece c t (turnPiece c t (turnPiece c t (turnPiece c t p))) = p.
Proof.
  intros Hint.
  destruct (inRange t (axisCoordinate (turn_axis t) p)) eqn:Hr.
  - rewrite (turnPiece_in_layer c t p p Hr eq_refl).
    rewrite (turnPiece_in_layer c t p (rotatePiece _ _ _ _ p) Hr)
      by apply rotatePiece_axisCoordinate.
    rewrite (turnPiece_in_layer c t p
               (rotatePiece _ _ _ _ (rotatePiece _ _ _ _ p)) Hr)
      by (rewrite !rotatePiece_axisCoordinate; reflexivity).
    rewrite (turnPiece_in_layer c t p
               (rotatePiece _ _ _ _ (rotatePiece _ _ _ _
                  (rotatePiece _ _ _ _ p))) Hr)
      by (rewrite !rotatePiece_axisCoordinate; reflexivity).
    apply rotatePiece_four_times, Hint.
  - assert (H1 : turnPiece c t p = p)
      by (rewrite turnPiece_rotatePiece, Hr; reflexivity).
    rewrite !H1. reflexivity.
Qed.

Lemma map_id_on {A : Type} (h : A -> A) (l : list A) :
  (forall a, In a l -> h a = a) -> map h l = l.
Proof.
  intros H. rewrite <- (map_id l) at 2. apply map_ext_in, H.
Qed.

Lemma Cube_turn_undo (c : Cube) (t : turn) :
  cube_int c -> Cube_turn (Cube_turn c t) (flipTurn t) = c.
Proof.
  intros [_ Hint]. destruct c as [m ps]. unfold Cube_turn.
  cbn [max pieces] in *. f_equal. rewrite map_map.
  apply map_id_on. intros p Hp. rewrite Forall_forall in Hint.
  rewrite (turnPiece_max_ext (mkCube m (map _ _)) (mkCube m ps))
    by reflexivity.
  apply turnPiece_undo, Hint, Hp.
Qed.

Lemma Cube_turn_four_times (c : Cube) (t : turn) :
  cube_int c -> Cube_turn (Cube_turn (Cube_turn (Cube_turn c t) t) t) t = c.
Proof.
  intros [_ Hint]. destruct c as [m ps]. unfold Cube_turn.
  cbn [max pieces] in *. f_equal. rewrite !map_map.
  apply map_id_on. intros p Hp. rewrite Forall_forall in Hint.
  rewrite !(turnPiece_max_ext (mkCube m (map _ _)) (mkCube m ps))
    by reflexivity.
  apply turnPiece_four_times, Hint, Hp.
Qed.

Lemma ExecuteMove_inverse_pair (c : Cube) (move : Move) :
  cube_int c ->
  fst (ExecuteMove (fst (ExecuteMove c move)) (invertMove move)) = c
  /\ snd (ExecuteMove (fst (ExecuteMove c move)) (invertMove move))
     = snd (ExecuteMove c move).
Proof.
  intros Hint.
  assert (Hmax : max (fst (ExecuteMove c move)) = max c).
  { rewrite ExecuteMove_fst. destruct (moveTurn c move); reflexivity. }
  assert (Hg : guardLayerMin (fst (ExecuteMove c move)) (invertMove move)
               = guardLayerMin c move).
  { unfold guardLayerMin. rewrite Hmax. destruct move; reflexivity. }
  rewrite (ExecuteMove_moveTurn _ (invertMove move)), moveTurn_invertMove.
  rewrite (moveTurn_max_ext _ c move Hmax), Hg.
  rewrite ExecuteMove_fst, (ExecuteMove_moveTurn c move).
  destruct (moveTurn c move) as [t |]; cbn [option_map fst snd].
  - split; [apply Cube_turn_undo, Hint | reflexivity].
  - split; reflexivity.
Qed.

(** X9.  On every cube, executing a move and then the same move with the
    inverted flag flipped gives back the cube: every tile coordinate and
    color is as before.  Neither call fails unless both fail. *)
Theorem ExecuteMove_undo (c : Cube) (move : Move) :
  cube_int c ->
  fst (ExecuteMove (fst (ExecuteMove c move)) (invertMove move)) = c
  /\ snd (ExecuteMove (fst (ExecuteMove c move)) (invertMove move))
     = snd (ExecuteMove c move).
Proof. apply ExecuteMove_inverse_pair. Qed.

Lemma ExecuteMove_undo_witness :
  fst (ExecuteMove
         (fst (ExecuteMove (ExecuteMoves (NewCube 3) [mv "F" 1 false])
                           (mkMove 2 (rlit "U") true 2 true)))
         (invertMove (mkMove 2 (rlit "U") true 2 true)))
  = ExecuteMoves (NewCube 3) [mv "F" 1 false].
Proof.
  refine (proj1 (ExecuteMove_undo
                   (ExecuteMoves (NewCube 3) [mv "F" 1 false])
                   (mkMove 2 (rlit "U") true 2 true) _)).
  apply cube_intb_sound. vm_compute. reflexivity.
Defined.

(** X10.  On every cube, executing a sequence of moves and then its inverse
    ([ReverseMoves]) gives back the cube. *)
Theorem ExecuteMoves_then_ReverseMoves (moves : list Move) (c : Cube) :
  cube_int c ->
  ExecuteMoves c (moves ++ ReverseMoves moves) = c.
Proof.
  revert c. induction moves as [| m ms IH]; intros c Hint.
  - reflexivity.
  - rewrite ReverseMoves_map. cbn [rev]. rewrite map_app, <- ReverseMoves_map.
    cbn [map app]. rewrite app_assoc.
    change (ExecuteMoves c (m :: (ms ++ ReverseMoves ms) ++ [invertMove m]))
      with (ExecuteMoves (fst (ExecuteMove c m))
              ((ms ++ ReverseMoves ms) ++ [invertMove m])).
    rewrite ExecuteMoves_app, IH by (apply ExecuteMove_int, Hint).
    apply (ExecuteMove_inverse_pair c m Hint).
Qed.

Lemma ExecuteMoves_then_ReverseMoves_witness :
  ExecuteMoves (NewCube 4)
    ([mv "R" 1 false; mkMove 2 (rlit "U") true 2 false; mv "x" 1 true]
     ++ ReverseMoves
          [mv "R" 1 false; mkMove 2 (rlit "U") true 2 false; mv "x" 1 true])
  = NewCube 4.
Proof.
  apply (ExecuteMoves_then_ReverseMoves
           [mv "R" 1 false; mkMove 2 (rlit "U") true 2 false; mv "x" 1 true]
           (NewCube 4)).
  apply cube_intb_sound. vm_compute. reflexivity.
Defined.

(** X11.  On every cube, executing any one move four times in a row gives
    back the cube, whatever the face, the slice count and the rotation
    count of the move. *)
Theorem ExecuteMoves_four_times (c : Cube) (move : Move) :
  cube_int c ->
  ExecuteMoves c [move; move; move; move] = c.
Proof.
  intros Hint. unfold ExecuteMoves. cbn [fold_left].
  assert (H : forall c', max c' = max c ->
            fst (ExecuteMove c' move)
            = match moveTurn c move with
              | Some t => Cube_turn c' t
              | None => c'
              end).
  { intros c' Hc'. rewrite ExecuteMove_fst, (moveTurn_max_ext c' c move Hc').
    reflexivity. }
  destruct (moveTurn c move) as [t |].
  - rewrite (H c) by reflexivity.
    rewrite (H (Cube_turn c t)) by reflexivity.
    rewrite (H (Cube_turn (Cube_turn c t) t)) by reflexivity.
    rewrite (H (Cube_turn (Cube_turn (Cube_turn c t) t) t)) by reflexivity.
    apply Cube_turn_four_times, Hint.
  - rewrite !(H c) by reflexivity. reflexivity.
Qed.

Lemma ExecuteMoves_four_times_witness :
  ExecuteMoves (NewCube 3)
    [mkMove 2 (rlit "F") true 3 true; mkMove 2 (rlit "F") true 3 true;
     mkMove 2 (rlit "F") true 3 true; mkMove 2 (rlit "F") true 3 true]
  = NewCube 3.
Proof.
  apply (ExecuteMoves_four_times (NewCube 3) (mkMove 2 (rlit "F") true 3 true)).
  apply cube_intb_sound. vm_compute. reflexivity.
Defined.

(* ================================================================= *)
(** ** What a turn keeps *)

Lemma iter_kept (m : Z) (d : bool) (n : nat) (s : tile * tile) :
  pair_kept s (Nat.iter n (turnAxisStep m d) s).
Proof.
  induction n as [| n IH].
  - repeat split; apply Permutation_refl.
  - rewrite Nat.iter_succ.
    destruct (Nat.iter n (turnAxisStep m d) s) as [u v].
    destruct IH as [H1 [H2 HP]]. unfold pair_kept, turnAxisStep.
    cbn [fst snd] in *.
    destruct d; cbn [fst snd coordinateStart color];
      (split; [exact H1 |]; split; [exact H2 |];
       eapply Permutation_trans; [apply perm_swap | exact HP]).
Qed.

Lemma rotatePiece_kept (c : Cube) (a : axis) (d : bool) (rots : Z) (p : piece) :
  pieceStarts (rotatePiece c a d rots p) = pieceStarts p
  /\ Permutation (pieceColors (rotatePiece c a d rots p)) (pieceColors p).
Proof.
  destruct p as [tx ty tz]. rewrite rotatePiece_proj.
  unfold pieceStarts, pieceColors, tiles, turnAxis.
  destruct a; cbn [p_x p_y p_z map];
    match goal with |- context [Nat.iter ?n (turnAxisStep ?m d) ?s] =>
      destruct (iter_kept m d n s) as [H1 [H2 HP]] end;
    cbn [fst snd] in *; rewrite H1, H2; (split; [reflexivity |]).
  - apply perm_skip, HP.
  - eapply Permutation_trans; [apply perm_swap |].
    eapply Permutation_trans; [apply perm_skip, HP |]. apply perm_swap.
  - apply (Permutation_app_tail [color tz]) in HP. exact HP.
Qed.

Lemma piece_kept_refl (p : piece) : piece_kept p p.
Proof. split; [reflexivity | apply Permutation_refl]. Qed.

Lemma piece_kept_trans (p q u : piece) :
  piece_kept p q -> piece_kept q u -> piece_kept p u.
Proof.
  intros [H1 P1] [H2 P2]. split; [congruence |].
  eapply Permutation_trans; eassumption.
Qed.

Lemma Forall2_kept_refl (ps : list piece) : Forall2 piece_kept ps ps.
Proof.
  induction ps; constructor; [apply piece_kept_refl | assumption].
Qed.

Lemma Forall2_kept_trans (ps qs us : list piece) :
  Forall2 piece_kept ps qs -> Forall2 piece_kept qs us ->
  Forall2 piece_kept ps us.
Proof.
  intros H. revert us. induction H as [| p q ps qs Hpq _ IH]; intros us H2.
  - inversion H2. constructor.
  - inversion H2 as [| ? u ? us' Hqu Hrest]; subst. constructor.
    + eapply piece_kept_trans; eassumption.
    + apply IH, Hrest.
Qed.

Lemma Cube_turn_kept (c : Cube) (t : turn) :
  Forall2 piece_kept (pieces c) (pieces (Cube_turn c t)).
Proof.
  unfold Cube_turn. cbn [pieces].
  induction (pieces c) as [| p ps IH]; cbn [map]; constructor; [| exact IH].
  rewrite turnPiece_rotatePiece.
  destruct (inRange t _); [apply rotatePiece_kept | apply piece_kept_refl].
Qed.

Lemma ExecuteMove_kept (c : Cube) (move : Move) :
  Forall2 piece_kept (pieces c) (pieces (fst (ExecuteMove c move))).
Proof.
  rewrite ExecuteMove_fst.
  destruct (moveTurn c move); [apply Cube_turn_kept | apply Forall2_kept_refl].
Qed.

(** X12.  Moves never recolor and never renumber: after any sequence of
    moves the cube has the same pieces in the same order, each piece has
    the start coordinates of its three tiles unchanged, and its three
    colors are the three colors it had, in some order. *)
Theorem ExecuteMoves_keeps_colors (moves : list Move) (c : Cube) :
  Forall2 (fun p q =>
             pieceStarts q = pieceStarts p
             /\ Permutation (pieceColors q) (pieceColors p))
          (pieces c) (pieces (ExecuteMoves c moves)).
Proof.
  change (Forall2 piece_kept (pieces c) (pieces (ExecuteMoves c moves))).
  revert c. unfold ExecuteMoves.
  induction moves as [| m ms IH]; intros c; cbn [fold_left].
  - apply Forall2_kept_refl.
  - eapply Forall2_kept_trans; [apply ExecuteMove_kept | apply IH].
Qed.

(* ================================================================= *)
(** ** The slice error in numbers *)

(** X13.  On a cube with at least one layer, and for slice counts far from
    the ends of the integer range, [ExecuteMove] returns the SliceParam
    error exactly when the move is wide and its slice count is larger than
    the dimension of the cube; a move that is not wide never fails. *)
Theorem ExecuteMove_SliceParam_iff (c : Cube) (move : Move) :
  0 <= max c < 2 ^ 62 ->
  - 2 ^ 62 < Slices move < 2 ^ 62 ->
  (snd (ExecuteMove c move) = Some ErrSliceParam
   <-> Wide move = true /\ Slices move > Dimension c)
  /\ (snd (ExecuteMove c move) <> None
      <-> Wide move = true /\ Slices move > Dimension c).
Proof.
  intros Hmax Hsl.
  assert (Hdim : Dimension c = max c + 1).
  { unfold Dimension. apply wrap_small. unfold in_int. lia. }
  assert (Hguard : guardLayerMin c move < 0
                   <-> Wide move = true /\ Slices move > Dimension c).
  { unfold guardLayerMin. rewrite Hdim. destruct (Wide move).
    - rewrite (wrap_small (Slices move - 1)) by (unfold in_int; lia).
      rewrite wrap_small by (unfold in_int; lia).
      split; [intros H; split; [reflexivity | lia] | intros [_ H]; lia].
    - split; [lia | intros [H _]; discriminate]. }
  assert (Herr : snd (ExecuteMove c move) = Some ErrSliceParam
                 <-> guardLayerMin c move < 0).
  { split.
    - intros H. apply (ExecuteMove_error _ _ _ H).
    - intros H. rewrite (ExecuteMove_guard_fails _ _ H). reflexivity. }
  split; [rewrite Herr; exact Hguard |].
  rewrite <- Hguard, <- Herr. split.
  - intros H. destruct (snd (ExecuteMove c move)) as [e |] eqn:He;
      [| contradiction].
    destruct (ExecuteMove_error _ _ _ He) as [-> _]. reflexivity.
  - intros H. rewrite H. discriminate.
Qed.

Lemma ExecuteMove_SliceParam_iff_witness :
  snd (ExecuteMove (NewCube 3) (mkMove 4 (rlit "R") true 1 false))
  = Some ErrSliceParam.
Proof.
  apply (proj1 (ExecuteMove_SliceParam_iff (NewCube 3)
                  (mkMove 4 (rlit "R") true 1 false)
                  ltac:(vm_compute; split; [discriminate | reflexivity])
                  ltac:(vm_compute; split; reflexivity))).
  split; reflexivity.
Defined.

(* ================================================================= *)
(** ** [pow] and the capacity of [NewCube] *)

(** X14.  [pow v exp] is [v] to the power [exp] in 64-bit arithmetic; for
    an exponent that is 0 or negative it is 1; and it is the exact power
    whenever that fits in an [int]. *)
Theorem pow_power (v exp : Z) :
  pow v exp = wrap (v ^ Z.max 0 exp)
  /\ (exp <= 0 -> pow v exp = 1)
  /\ (0 <= exp -> in_int (v ^ exp) -> pow v exp = v ^ exp).
Proof. apply pow_wraps. Qed.

Lemma pow_power_witness :
  pow (-3) (-2) = 1 /\ pow (-3) 3 = (-3) ^ 3.
Proof.
  split.
  - apply (proj1 (proj2 (pow_power (-3) (-2)))). lia.
  - apply (proj2 (proj2 (pow_power (-3) 3))); [lia |].
    vm_compute. split; [discriminate | reflexivity].
Defined.

(** X15.  For every size from 2 on whose cube fits in an [int], the
    capacity that [NewCube] computes for its slice of pieces is exactly the
    number of pieces it then appends. *)
Theorem NewCube_capacity (size : Z) :
  2 <= size -> size ^ 3 < 2 ^ 63 ->
  NewCube_n size = Z.of_nat (List.length (pieces (NewCube size))).
Proof. apply NewCube_n_length. Qed.

Lemma NewCube_capacity_witness :
  NewCube_n 5 = Z.of_nat (List.length (pieces (NewCube 5))).
Proof.
  apply (NewCube_capacity 5); [lia | reflexivity].
Defined.

(* ================================================================= *)
(** ** [Validate] *)

(** X16.  [Validate] never returns FaceLengthsDiffer, whatever the lengths
    of the six faces: [isEqualLength] receives one argument and has nothing
    to compare it with.  The result depends on the length of the left face
    alone: it is FaceNotPerfectSquare when [isPerfectSquare] rejects that
    length, and nil otherwise. *)
Theorem Validate_never_lengths_differ
  (isPerfectSquare : Z -> bool) (cf : CubeFaces) :
  Validate isPerfectSquare cf <> Some ErrFaceLengthsDiffer
  /\ (forall T (slice : list (list T)), isEqualLength [slice] = true)
  /\ Validate isPerfectSquare cf
     = if isPerfectSquare (len (Left cf)) then None
       else Some ErrFaceNotPerfectSquare.
Proof.
  unfold Validate. cbn [isEqualLength forallb negb].
  destruct (isPerfectSquare (len (Left cf))); cbn [negb];
    repeat split; discriminate.
Qed.

(* ================================================================= *)
(** ** [Faces] *)


Lemma len_set_nth (buf : list rune) (i : nat) (v : rune) :
  len (set_nth i v buf) = len buf.
Proof. unfold len. rewrite length_set_nth. reflexivity. Qed.

Lemma writeAt_Some (buf : list rune) (index : Z) (v : rune) :
  0 <= index < len buf ->
  writeAt buf index v = Some (set_nth (Z.to_nat index) v buf).
Proof.
  intros H. unfold writeAt.
  destruct (Z.leb_spec 0 index), (Z.ltb_spec index (len buf));
    try lia; reflexivity.
Qed.

(** The writes of one face succeed when every index is in range, and keep
    the length of the buffer. *)
Lemma faceWrites_safe (sel : piece -> option (Z * rune)) (ps : list piece) :
  forall buf,
    (forall p i v, In p ps -> sel p = Some (i, v) -> 0 <= i < len buf) ->
    exists buf', faceWrites sel ps buf = Some buf' /\ len buf' = len buf.
Proof.
  induction ps as [| p ps IH]; intros buf Hb; cbn [faceWrites].
  - eauto.
  - destruct (sel p) as [[i v] |] eqn:Hs; cbn [applyWrite].
    + rewrite writeAt_Some by (apply (Hb p i v); [left; reflexivity | exact Hs]).
      destruct (IH (set_nth (Z.to_nat i) v buf)) as [b' [H1 H2]].
      * intros q j w Hq Hsel. rewrite len_set_nth.
        apply (Hb q j w); [right; exact Hq | exact Hsel].
      * exists b'. rewrite H1, H2, len_set_nth. auto.
    + apply IH. intros q j w Hq Hsel.
      apply (Hb q j w); [right; exact Hq | exact Hsel].
Qed.

(** The loop of [Faces] is the six faces written side by side. *)
Lemma facesLoop_faceWrites (c : Cube) (n : Z) (ps : list piece) :
  forall f u l fr r b d,
    faceWrites (upWrite c n) ps (Up f) = Some u ->
    faceWrites (downWrite c n) ps (Down f) = Some d ->
    faceWrites (leftWrite c n) ps (Left f) = Some l ->
    faceWrites (rightWrite c n) ps (Right f) = Some r ->
    faceWrites (backWrite c n) ps (Back f) = Some b ->
    faceWrites (frontWrite c n) ps (Front f) = Some fr ->
    facesLoop c n ps f = Some (mkCubeFaces u l fr r b d).
Proof.
  induction ps as [| p ps IH]; intros f u l fr r b d;
    cbn [faceWrites facesLoop].
  - destruct f. cbn. intros. congruence.
  - unfold facesStep.
    destruct (applyWrite (Up f) _) as [u1 |]; [| discriminate].
    destruct (applyWrite (Down f) _) as [d1 |]; [| intros; discriminate].
    destruct (applyWrite (Left f) _) as [l1 |]; [| intros; discriminate].
    destruct (applyWrite (Right f) _) as [r1 |]; [| intros; discriminate].
    destruct (applyWrite (Back f) _) as [b1 |]; [| intros; discriminate].
    destruct (applyWrite (Front f) _) as [f1 |]; [| intros; discriminate].
    intros. apply IH; assumption.
Qed.

Lemma Dimension_ok (N : Z) (c : Cube) :
  1 <= N -> in_int N -> max c = N - 1 -> Dimension c = N.
Proof.
  intros HN Hint Hmax. unfold Dimension. rewrite Hmax.
  replace (N - 1 + 1) with N by lia. apply wrap_small, Hint.
Qed.

(** Rewrites the innermost [wrap] first. *)
Ltac unwrap :=
  repeat match goal with
  | |- context [wrap ?z] =>
      lazymatch z with
      | context [wrap _] => fail
      | _ => rewrite (wrap_small z) by (unfold in_int; nia)
      end
  end.

Section FaceIndex.
Variable N : Z.
Variable c : Cube.
Hypothesis N_pos : 1 <= N.
Hypothesis N_square : N * N < 2 ^ 63.
Hypothesis c_max : max c = N - 1.

Lemma cell_bounds (u v : Z) :
  0 <= u <= N - 1 -> 0 <= v <= N - 1 -> 0 <= u + v * N < N * N.
Proof. intros Hu Hv. nia. Qed.

(** Each write of [Faces] on a well-shaped piece, without wrap-around: the
    cell [u + v * N] of row [v] and column [u]. *)
Lemma writes_plain (p : piece) :
  piece_ok N p ->
  let x := coordinate (p_x p) in
  let y := coordinate (p_y p) in
  let z := coordinate (p_z p) in
  upWrite c N p
    = (if y =? N - 1 then Some (x + z * N, color (p_y p)) else None)
  /\ downWrite c N p
    = (if y =? 0 then Some (x + (N - 1 - z) * N, color (p_y p)) else None)
  /\ leftWrite c N p
    = (if x =? 0 then Some (z + (N - 1 - y) * N, color (p_x p)) else None)
  /\ rightWrite c N p
    = (if x =? N - 1
       then Some ((N - 1 - z) + (N - 1 - y) * N, color (p_x p)) else None)
  /\ backWrite c N p
    = (if z =? 0
       then Some ((N - 1 - x) + (N - 1 - y) * N, color (p_z p)) else None)
  /\ frontWrite c N p
    = (if z =? N - 1 then Some (x + (N - 1 - y) * N, color (p_z p))
       else None).
Proof.
  intros Hp. apply piece_ok_iff in Hp. unfold tile_ok in Hp.
  destruct Hp as [Hx [Hy Hz]]. cbv zeta.
  unfold upWrite, downWrite, leftWrite, rightWrite, backWrite, frontWrite.
  rewrite c_max.
  set (x := coordinate (p_x p)) in *. set (y := coordinate (p_y p)) in *.
  set (z := coordinate (p_z p)) in *.
  repeat split;
    match goal with |- (if ?b then _ else _) = _ => destruct b end;
    try reflexivity; unwrap; do 2 f_equal; lia.
Qed.

Lemma writes_in_bounds (p : piece) (i : Z) (v : rune) :
  piece_ok N p ->
  (upWrite c N p = Some (i, v) \/ downWrite c N p = Some (i, v)
   \/ leftWrite c N p = Some (i, v) \/ rightWrite c N p = Some (i, v)
   \/ backWrite c N p = Some (i, v) \/ frontWrite c N p = Some (i, v)) ->
  0 <= i < N * N.
Proof.
  intros Hp H.
  destruct (writes_plain p Hp) as [E1 [E2 [E3 [E4 [E5 E6]]]]].
  apply piece_ok_iff in Hp. unfold tile_ok in Hp.
  destruct Hp as [Hx [Hy Hz]].
  rewrite E1, E2, E3, E4, E5, E6 in H.
  repeat match type of H with
  | _ \/ _ => destruct H as [H | H]
  end;
    match type of H with (if ?b then _ else _) = _ =>
      destruct b; [| discriminate] end;
    injection H as <- _; apply cell_bounds; lia.
Qed.
End FaceIndex.

(** X17.  On every cube that is well shaped for a size [N >= 1] (as every
    cube made by [NewCube N] and changed by moves is), with [N * N] within
    the integers, [Faces] runs without an index out of range and returns six
    buffers of [N * N] runes each. *)
Theorem Faces_safe (N : Z) (c : Cube) :
  1 <= N -> N * N < 2 ^ 63 ->
  cube_ok N c ->
  exists cf, Faces c = Some cf /\ Forall (fun b => len b = N * N) (All cf).
Proof.
  intros HN HNN [Hmax Hps].
  assert (Hint : in_int N) by (unfold in_int; nia).
  unfold Faces. rewrite (Dimension_ok N c HN Hint Hmax).
  rewrite (wrap_small (N * N)) by (unfold in_int; nia).
  unfold makeRunes. destruct (Z.ltb_spec (N * N) 0) as [Hneg | _]; [nia |].
  set (zero := repeat (0 : rune) (Z.to_nat (N * N))).
  assert (Hzero : @len rune zero = N * N).
  { unfold len, zero. rewrite repeat_length. nia. }
  rewrite Forall_forall in Hps.
  assert (Hsafe : forall sel,
    (forall p i v, In p (pieces c) -> sel p = Some (i, v) ->
                   0 <= i < N * N) ->
    exists b, faceWrites sel (pieces c) zero = Some b /\ len b = N * N).
  { intros sel Hsel. destruct (faceWrites_safe sel (pieces c) zero) as [b [H1 H2]].
    - intros p i v Hp Hs. pose proof (Hsel p i v Hp Hs). lia.
    - exists b. split; [exact H1 | lia]. }
  destruct (Hsafe (upWrite c N)) as [u [Hu Lu]].
  { intros p i v Hp Hs. apply (writes_in_bounds N c HN HNN Hmax p i v); auto. }
  destruct (Hsafe (downWrite c N)) as [d [Hd Ld]].
  { intros p i v Hp Hs. apply (writes_in_bounds N c HN HNN Hmax p i v); auto. }
  destruct (Hsafe (leftWrite c N)) as [l [Hl Ll]].
  { intros p i v Hp Hs. apply (writes_in_bounds N c HN HNN Hmax p i v); auto. }
  destruct (Hsafe (rightWrite c N)) as [r [Hr Lr]].
  { intros p i v Hp Hs. apply (writes_in_bounds N c HN HNN Hmax p i v); auto. }
  destruct (Hsafe (backWrite c N)) as [b [Hb Lb]].
  { intros p i v Hp Hs. apply (writes_in_bounds N c HN HNN Hmax p i v); auto 6. }
  destruct (Hsafe (frontWrite c N)) as [fr [Hf Lf]].
  { intros p i v Hp Hs. apply (writes_in_bounds N c HN HNN Hmax p i v); auto 7. }
  exists (mkCubeFaces u l fr r b d). split.
  - apply facesLoop_faceWrites; assumption.
  - unfold All. cbn. repeat apply Forall_cons; auto.
Qed.

Lemma Faces_safe_witness :
  exists cf,
    Faces (ExecuteMoves (NewCube 3) [mv "R" 1 false; mv "U" 1 true]) = Some cf
    /\ Forall (fun b => len b = 3 * 3) (All cf).
Proof.
  apply (Faces_safe 3); [lia | reflexivity |].
  apply ExecuteMoves_ok; try (unfold in_int; lia).
  apply NewCube_ok; unfold in_int; lia.
Defined.

(* ----------------------------------------------------------------- *)
(** *** The faces of a new cube *)

(** When every write of a face writes the color [k], a cell of the result
    holds [k] or what it held before, and [k] if some piece writes it. *)
Lemma faceWrites_uniform (sel : piece -> option (Z * rune)) (k : rune)
  (ps : list piece) :
  forall buf,
    (forall p i v, In p ps -> sel p = Some (i, v) ->
                   0 <= i < len buf /\ v = k) ->
    exists buf',
      faceWrites sel ps buf = Some buf'
      /\ List.length buf' = List.length buf
      /\ (forall j, nth_error buf' j = nth_error buf j
                    \/ nth_error buf' j = Some k)
      /\ (forall j p, In p ps -> sel p = Some (Z.of_nat j, k) ->
                      nth_error buf' j = Some k).
Proof.
  induction ps as [| p ps IH]; intros buf Hb; cbn [faceWrites].
  - exists buf. repeat split; auto. intros j p [].
  - destruct (sel p) as [[i v] |] eqn:Hs; cbn [applyWrite].
    + destruct (Hb p i v (or_introl eq_refl) Hs) as [Hi ->].
      rewrite writeAt_Some by exact Hi.
      assert (Hlt : (Z.to_nat i < List.length buf)%nat) by (unfold len in Hi; lia).
      destruct (IH (set_nth (Z.to_nat i) k buf)) as [b' [H1 [H2 [H3 H4]]]].
      { intros q j w Hq Hsel. rewrite len_set_nth.
        apply (Hb q j w); [right; exact Hq | exact Hsel]. }
      exists b'. split; [exact H1 |]. rewrite length_set_nth in H2.
      split; [exact H2 |]. split.
      * intros j. destruct (H3 j) as [E | E]; [| right; exact E].
        rewrite E, (nth_error_set_nth buf _ j k Hlt).
        destruct (Nat.eqb j (Z.to_nat i)); auto.
      * intros j q [<- | Hq] Hsel.
        -- rewrite Hs in Hsel. injection Hsel as ->.
           destruct (H3 j) as [E | E]; [| exact E].
           rewrite E, (nth_error_set_nth buf _ j k Hlt), Nat2Z.id, Nat.eqb_refl.
           reflexivity.
        -- apply (H4 j q Hq Hsel).
    + destruct (IH buf) as [b' [H1 [H2 [H3 H4]]]].
      { intros q j w Hq Hsel. apply (Hb q j w); [right; exact Hq | exact Hsel]. }
      exists b'. repeat split; auto.
      intros j q [<- | Hq] Hsel; [congruence | apply (H4 j q Hq Hsel)].
Qed.

(** A face is filled with [k] when every write writes [k] and every cell is
    written. *)
Lemma faceWrites_fill (sel : piece -> option (Z * rune)) (k : rune)
  (ps : list piece) (n : nat) :
  (forall p i v, In p ps -> sel p = Some (i, v) ->
                 0 <= i < Z.of_nat n /\ v = k) ->
  (forall j, (j < n)%nat -> exists p, In p ps /\ sel p = Some (Z.of_nat j, k)) ->
  faceWrites sel ps (repeat 0 n) = Some (repeat k n).
Proof.
  intros Hb Hall.
  destruct (faceWrites_uniform sel k ps (repeat 0 n)) as [b' [H1 [H2 [_ H4]]]].
  { intros p i v Hp Hs. unfold len. rewrite repeat_length.
    apply (Hb p i v Hp Hs). }
  rewrite H1. f_equal. rewrite repeat_length in H2.
  apply nth_error_ext. intros j.
  destruct (Nat.lt_ge_cases j n) as [Hj | Hj].
  - destruct (Hall j Hj) as [p [Hp Hs]].
    rewrite (H4 j p Hp Hs). symmetry. apply nth_error_repeat, Hj.
  - transitivity (@None rune); [| symmetry];
      apply nth_error_None; rewrite ?repeat_length; lia.
Qed.

Lemma colorize_zero (mx : Z) (c0 cMax : rune) : colorize mx 0 c0 cMax = c0.
Proof. reflexivity. Qed.

Lemma colorize_max (mx : Z) (c0 cMax : rune) :
  mx <> 0 -> colorize mx mx c0 cMax = cMax.
Proof.
  intros H. unfold colorize.
  destruct (Z.eqb_spec mx 0); [contradiction |]. rewrite Z.eqb_refl.
  reflexivity.
Qed.

Section NewFaces.
Variable N : Z.
Hypothesis N_two : 2 <= N.
Hypothesis N_square : N * N < 2 ^ 63.

Let n := Z.to_nat (N * N).

Lemma N_in_int : in_int N.
Proof. unfold in_int. nia. Qed.

(** Column and row of a cell. *)
Lemma cell_split (j : nat) :
  (j < n)%nat ->
  0 <= Z.of_nat j mod N <= N - 1
  /\ 0 <= Z.of_nat j / N <= N - 1
  /\ Z.of_nat j mod N + Z.of_nat j / N * N = Z.of_nat j.
Proof.
  intros Hj. subst n.
  pose proof (Z.mod_pos_bound (Z.of_nat j) N ltac:(lia)).
  pose proof (Z.div_mod (Z.of_nat j) N ltac:(lia)).
  assert (0 <= Z.of_nat j / N) by (apply Z.div_pos; lia).
  assert (Z.of_nat j / N < N) by (apply Z.div_lt_upper_bound; lia).
  lia.
Qed.

(** A face of the new cube, given what its write does on the piece of each
    shell point. *)
Lemma face_filled (sel : piece -> option (Z * rune)) (k : rune) :
  (forall x y z i v, shellPoint N x y z ->
     sel (newPiece (N - 1) x y z) = Some (i, v) -> 0 <= i < N * N /\ v = k) ->
  (forall j, (j < n)%nat ->
     exists x y z, shellPoint N x y z
       /\ sel (newPiece (N - 1) x y z) = Some (Z.of_nat j, k)) ->
  faceWrites sel (pieces (NewCube N)) (repeat 0 n) = Some (repeat k n).
Proof.
  intros H1 H2. apply faceWrites_fill.
  - intros p i v Hp Hs.
    apply (In_pieces_NewCube N p ltac:(lia) N_in_int) in Hp.
    destruct Hp as [x [y [z [Hshell ->]]]].
    destruct (H1 x y z i v Hshell Hs) as [Hi Hv]. subst n. split; [lia | exact Hv].
  - intros j Hj. destruct (H2 j Hj) as [x [y [z [Hshell Hs]]]].
    exists (newPiece (N - 1) x y z). split; [| exact Hs].
    apply (In_pieces_NewCube N _ ltac:(lia) N_in_int). eauto.
Qed.

Lemma NewCube_writes (x y z : Z) :
  shellPoint N x y z ->
  let c := NewCube N in
  upWrite c N (newPiece (N - 1) x y z)
    = (if y =? N - 1
       then Some (x + z * N, colorize (N - 1) y (rlit "y") (rlit "w"))
       else None)
  /\ downWrite c N (newPiece (N - 1) x y z)
    = (if y =? 0
       then Some (x + (N - 1 - z) * N,
                  colorize (N - 1) y (rlit "y") (rlit "w"))
       else None)
  /\ leftWrite c N (newPiece (N - 1) x y z)
    = (if x =? 0
       then Some (z + (N - 1 - y) * N,
                  colorize (N - 1) x (rlit "o") (rlit "r"))
       else None)
  /\ rightWrite c N (newPiece (N - 1) x y z)
    = (if x =? N - 1
       then Some ((N - 1 - z) + (N - 1 - y) * N,
                  colorize (N - 1) x (rlit "o") (rlit "r"))
       else None)
  /\ backWrite c N (newPiece (N - 1) x y z)
    = (if z =? 0
       then Some ((N - 1 - x) + (N - 1 - y) * N,
                  colorize (N - 1) z (rlit "b") (rlit "g"))
       else None)
  /\ frontWrite c N (newPiece (N - 1) x y z)
    = (if z =? N - 1
       then Some (x + (N - 1 - y) * N,
                  colorize (N - 1) z (rlit "b") (rlit "g"))
       else None).
Proof.
  intros [[Hx [Hy Hz]] _] c.
  apply (writes_plain N c ltac:(lia) N_square
           (NewCube_max N ltac:(lia) N_in_int)
           (newPiece (N - 1) x y z)).
  apply newPiece_ok; lia.
Qed.
End NewFaces.

Lemma up_filled (N : Z) :
  2 <= N -> N * N < 2 ^ 63 ->
  faceWrites (upWrite (NewCube N) N) (pieces (NewCube N))
    (repeat 0 (Z.to_nat (N * N)))
  = Some (repeat (rlit "w") (Z.to_nat (N * N))).
Proof.
  intros HN HNN. apply (face_filled N HN HNN).
  - intros x y z i v Hshell Hs.
    destruct (NewCube_writes N HN HNN x y z Hshell) as [E _].
    rewrite E in Hs. destruct Hshell as [[Hx [Hy Hz]] _].
    destruct (Z.eqb_spec y (N - 1)) as [-> | _]; [| discriminate].
    injection Hs as <- <-. split; [nia | apply colorize_max; lia].
  - intros j Hj. destruct (cell_split N HN j Hj) as [Hu [Hv Heq]].
    set (u := Z.of_nat j mod N) in *. set (w := Z.of_nat j / N) in *.
    assert (Hshell : shellPoint N u (N - 1) w)
      by (unfold shellPoint; lia).
    exists u, (N - 1), w. split; [exact Hshell |].
    destruct (NewCube_writes N HN HNN _ _ _ Hshell) as [E _].
    rewrite E, Z.eqb_refl. f_equal. f_equal; try lia; apply colorize_max; lia.
Qed.

Lemma down_filled (N : Z) :
  2 <= N -> N * N < 2 ^ 63 ->
  faceWrites (downWrite (NewCube N) N) (pieces (NewCube N))
    (repeat 0 (Z.to_nat (N * N)))
  = Some (repeat (rlit "y") (Z.to_nat (N * N))).
Proof.
  intros HN HNN. apply (face_filled N HN HNN).
  - intros x y z i v Hshell Hs.
    destruct (NewCube_writes N HN HNN x y z Hshell) as [_ [E _]].
    rewrite E in Hs. destruct Hshell as [[Hx [Hy Hz]] _].
    destruct (Z.eqb_spec y (0)) as [-> | _]; [| discriminate].
    injection Hs as <- <-. split; [nia | reflexivity].
  - intros j Hj. destruct (cell_split N HN j Hj) as [Hu [Hv Heq]].
    set (u := Z.of_nat j mod N) in *. set (w := Z.of_nat j / N) in *.
    assert (Hshell : shellPoint N u 0 (N - 1 - w))
      by (unfold shellPoint; lia).
    exists u, 0, (N - 1 - w). split; [exact Hshell |].
    destruct (NewCube_writes N HN HNN _ _ _ Hshell) as [_ [E _]].
    rewrite E, Z.eqb_refl. f_equal. f_equal; try lia; reflexivity.
Qed.

Lemma left_filled (N : Z) :
  2 <= N -> N * N < 2 ^ 63 ->
  faceWrites (leftWrite (NewCube N) N) (pieces (NewCube N))
    (repeat 0 (Z.to_nat (N * N)))
  = Some (repeat (rlit "o") (Z.to_nat (N * N))).
Proof.
  intros HN HNN. apply (face_filled N HN HNN).
  - intros x y z i v Hshell Hs.
    destruct (NewCube_writes N HN HNN x y z Hshell) as [_ [_ [E _]]].
    rewrite E in Hs. destruct Hshell as [[Hx [Hy Hz]] _].
    destruct (Z.eqb_spec x (0)) as [-> | _]; [| discriminate].
    injection Hs as <- <-. split; [nia | reflexivity].
  - intros j Hj. destruct (cell_split N HN j Hj) as [Hu [Hv Heq]].
    set (u := Z.of_nat j mod N) in *. set (w := Z.of_nat j / N) in *.
    assert (Hshell : shellPoint N 0 (N - 1 - w) u)
      by (unfold shellPoint; lia).
    exists 0, (N - 1 - w), u. split; [exact Hshell |].
    destruct (NewCube_writes N HN HNN _ _ _ Hshell) as [_ [_ [E _]]].
    rewrite E, Z.eqb_refl. f_equal. f_equal; try lia; reflexivity.
Qed.

Lemma right_filled (N : Z) :
  2 <= N -> N * N < 2 ^ 63 ->
  faceWrites (rightWrite (NewCube N) N) (pieces (NewCube N))
    (repeat 0 (Z.to_nat (N * N)))
  = Some (repeat (rlit "r") (Z.to_nat (N * N))).
Proof.
  intros HN HNN. apply (face_filled N HN HNN).
  - intros x y z i v Hshell Hs.
    destruct (NewCube_writes N HN HNN x y z Hshell) as [_ [_ [_ [E _]]]].
    rewrite E in Hs. destruct Hshell as [[Hx [Hy Hz]] _].
    destruct (Z.eqb_spec x (N - 1)) as [-> | _]; [| discriminate].
    injection Hs as <- <-. split; [nia | apply colorize_max; lia].
  - intros j Hj. destruct (cell_split N HN j Hj) as [Hu [Hv Heq]].
    set (u := Z.of_nat j mod N) in *. set (w := Z.of_nat j / N) in *.
    assert (Hshell : shellPoint N (N - 1) (N - 1 - w) (N - 1 - u))
      by (unfold shellPoint; lia).
    exists (N - 1), (N - 1 - w), (N - 1 - u). split; [exact Hshell |].
    destruct (NewCube_writes N HN HNN _ _ _ Hshell) as [_ [_ [_ [E _]]]].
    rewrite E, Z.eqb_refl. f_equal. f_equal; try lia; apply colorize_max; lia.
Qed.

Lemma back_filled (N : Z) :
  2 <= N -> N * N < 2 ^ 63 ->
  faceWrites (backWrite (NewCube N) N) (pieces (NewCube N))
    (repeat 0 (Z.to_nat (N * N)))
  = Some (repeat (rlit "b") (Z.to_nat (N * N))).
Proof.
  intros HN HNN. apply (face_filled N HN HNN).
  - intros x y z i v Hshell Hs.
    destruct (NewCube_writes N HN HNN x y z Hshell) as [_ [_ [_ [_ [E _]]]]].
    rewrite E in Hs. destruct Hshell as [[Hx [Hy Hz]] _].
    destruct (Z.eqb_spec z (0)) as [-> | _]; [| discriminate].
    injection Hs as <- <-. split; [nia | reflexivity].
  - intros j Hj. destruct (cell_split N HN j Hj) as [Hu [Hv Heq]].
    set (u := Z.of_nat j mod N) in *. set (w := Z.of_nat j / N) in *.
    assert (Hshell : shellPoint N (N - 1 - u) (N - 1 - w) 0)
      by (unfold shellPoint; lia).
    exists (N - 1 - u), (N - 1 - w), 0. split; [exact Hshell |].
    destruct (NewCube_writes N HN HNN _ _ _ Hshell) as [_ [_ [_ [_ [E _]]]]].
    rewrite E, Z.eqb_refl. f_equal. f_equal; try lia; reflexivity.
Qed.

Lemma front_filled (N : Z) :
  2 <= N -> N * N < 2 ^ 63 ->
  faceWrites (frontWrite (NewCube N) N) (pieces (NewCube N))
    (repeat 0 (Z.to_nat (N * N)))
  = Some (repeat (rlit "g") (Z.to_nat (N * N))).
Proof.
  intros HN HNN. apply (face_filled N HN HNN).
  - intros x y z i v Hshell Hs.
    destruct (NewCube_writes N HN HNN x y z Hshell) as [_ [_ [_ [_ [_ E]]]]].
    rewrite E in Hs. destruct Hshell as [[Hx [Hy Hz]] _].
    destruct (Z.eqb_spec z (N - 1)) as [-> | _]; [| discriminate].
    injection Hs as <- <-. split; [nia | apply colorize_max; lia].
  - intros j Hj. destruct (cell_split N HN j Hj) as [Hu [Hv Heq]].
    set (u := Z.of_nat j mod N) in *. set (w := Z.of_nat j / N) in *.
    assert (Hshell : shellPoint N u (N - 1 - w) (N - 1))
      by (unfold shellPoint; lia).
    exists u, (N - 1 - w), (N - 1). split; [exact Hshell |].
    destruct (NewCube_writes N HN HNN _ _ _ Hshell) as [_ [_ [_ [_ [_ E]]]]].
    rewrite E, Z.eqb_refl. f_equal. f_equal; try lia; apply colorize_max; lia.
Qed.

Lemma Faces_of_NewCube (N : Z) :
  2 <= N -> N * N < 2 ^ 63 ->
  Faces (NewCube N)
  = Some (mkCubeFaces (repeat (rlit "w") (Z.to_nat (N * N)))
                      (repeat (rlit "o") (Z.to_nat (N * N)))
                      (repeat (rlit "g") (Z.to_nat (N * N)))
                      (repeat (rlit "r") (Z.to_nat (N * N)))
                      (repeat (rlit "b") (Z.to_nat (N * N)))
                      (repeat (rlit "y") (Z.to_nat (N * N)))).
Proof.
  intros HN HNN.
  assert (Hint : in_int N) by (unfold in_int; nia).
  unfold Faces.
  rewrite (Dimension_ok N (NewCube N) ltac:(lia) Hint
             (NewCube_max N ltac:(lia) Hint)).
  rewrite (wrap_small (N * N)) by (unfold in_int; nia).
  unfold makeRunes. destruct (Z.ltb_spec (N * N) 0) as [Hneg | _]; [nia |].
  apply facesLoop_faceWrites; cbn [Up Down Left Right Back Front].
  - apply up_filled; assumption.
  - apply down_filled; assumption.
  - apply left_filled; assumption.
  - apply right_filled; assumption.
  - apply back_filled; assumption.
  - apply front_filled; assumption.
Qed.

(** X18.  For every size [N >= 2] whose cube fits in an [int]
    ([N^3 < 2^63], so that [make] does not panic in [NewCube]),
    [NewCube N] returns a cube, and [Faces] of that cube is six buffers of
    [N * N] runes, each filled with one color: up w, left o, front g,
    right r, back b, down y. *)
Theorem Faces_NewCube (N : Z) :
  2 <= N -> N ^ 3 < 2 ^ 63 ->
  exists c,
    NewCube_run N = Some c
    /\ Faces c
       = Some (mkCubeFaces (repeat (rlit "w") (Z.to_nat (N * N)))
                           (repeat (rlit "o") (Z.to_nat (N * N)))
                           (repeat (rlit "g") (Z.to_nat (N * N)))
                           (repeat (rlit "r") (Z.to_nat (N * N)))
                           (repeat (rlit "b") (Z.to_nat (N * N)))
                           (repeat (rlit "y") (Z.to_nat (N * N)))).
Proof.
  intros HN Hcube. exists (NewCube N). split.
  - apply NewCube_run_returns; [lia | exact Hcube].
  - apply Faces_of_NewCube; [exact HN | nia].
Qed.

Lemma Faces_NewCube_witness :
  exists c,
    NewCube_run 3 = Some c
    /\ Faces c
       = Some (mkCubeFaces (repeat (rlit "w") 9) (repeat (rlit "o") 9)
                           (repeat (rlit "g") 9) (repeat (rlit "r") 9)
                           (repeat (rlit "b") 9) (repeat (rlit "y") 9)).
Proof.
  apply (Faces_NewCube 3); [lia | reflexivity].
Defined.

(* ================================================================= *)
(** ** More on [ParseNotation] *)

(** More fuel does not change what the loop returns. *)
Lemma parseLoop_more_fuel (fuel : nat) :
  forall rest stack currentGroup res,
    parseLoop fuel rest stack currentGroup = Some res ->
    forall fuel', (fuel <= fuel')%nat ->
      parseLoop fuel' rest stack currentGroup = Some res.
Proof.
  induction fuel as [| fuel IH]; intros rest stack cur res H fuel' Hle;
    [discriminate |].
  destruct fuel' as [| fuel']; [lia |].
  assert (Hle' : (fuel <= fuel')%nat) by lia.
  cbn [parseLoop] in *.
  destruct rest as [| ch rest']; [exact H |].
  destruct (Ascii.eqb ch " "); [apply (IH _ _ _ _ H _ Hle') |].
  destruct (OpenGroupTypes ch); [apply (IH _ _ _ _ H _ Hle') |].
  destruct (CloseGroupTypes ch).
  - destruct stack as [| top stack']; [exact H |].
    destruct rest' as [| d rest'']; [apply (IH _ _ _ _ H _ Hle') |].
    destruct (isDigit d); apply (IH _ _ _ _ H _ Hle').
  - destruct (Separators ch); [apply (IH _ _ _ _ H _ Hle') |].
    destruct (extractToken (ch :: rest')) as [[t n] | e]; [| exact H].
    apply (IH _ _ _ _ H _ Hle').
Qed.

(** X19.  [ParseNotation] returns on every input: every iteration of its
    loop moves the scan position forward, so a number of iterations above
    the length of the input is enough, and any larger bound gives the same
    result. *)
Theorem ParseNotation_returns (input : list ascii) :
  exists res,
    ParseNotation input = Some res
    /\ forall fuel, (List.length input < fuel)%nat ->
         parseLoop fuel input [] (NewGroup groupTypeNil) = Some res.
Proof.
  destruct (ParseNotation_total input) as [res H]. exists res.
  split; [exact H |]. intros fuel Hf.
  apply (parseLoop_more_fuel _ _ _ _ _ H). lia.
Qed.

Lemma OpenGroupTypes_not_nil (ch : ascii) (v : GroupType) :
  OpenGroupTypes ch = Some v -> v <> groupTypeNil.
Proof.
  unfold OpenGroupTypes.
  destruct (Ascii.eqb ch "("); [intros H; injection H as <-; discriminate |].
  destruct (Ascii.eqb ch "["); [intros H; injection H as <-; discriminate |].
  discriminate.
Qed.

Lemma inProgress_AddToken (g : Group) (t : Tokenizable) :
  inProgress g -> wfToken t -> inProgress (AddToken g t).
Proof.
  destruct g as [ts f gt]. unfold inProgress, AddToken. cbn.
  intros [Hf Hts] Ht. split; [exact Hf |].
  apply Forall_app. split; [exact Hts | repeat constructor; exact Ht].
Qed.

Lemma GroupTypeOf_AddToken (g : Group) (t : Tokenizable) :
  GroupTypeOf (AddToken g t) = GroupTypeOf g.
Proof. destruct g; reflexivity. Qed.

(** The loop of [ParseNotation] keeps the groups in progress well formed. *)
Lemma parseLoop_wf (fuel : nat) :
  forall rest stack currentGroup g,
    chain (GroupTypeOf currentGroup) stack ->
    inProgress currentGroup -> Forall inProgress stack ->
    parseLoop fuel rest stack currentGroup = Some (Ok g) ->
    GroupTypeOf g = groupTypeNil /\ inProgress g.
Proof.
  induction fuel as [| fuel IH]; intros rest stack cur g Hchain Hcur Hstack H;
    [discriminate |].
  cbn [parseLoop] in H.
  destruct rest as [| ch rest'].
  - destruct stack as [| top stack'].
    + cbn in H. injection H as <-. cbn in Hchain. auto.
    + unfold len in H. cbn [List.length] in H.
      destruct (Z.gtb_spec (Z.of_nat (S (List.length stack'))) 0);
        [discriminate | lia].
  - destruct (Ascii.eqb ch " "); [apply (IH _ _ _ _ Hchain Hcur Hstack H) |].
    destruct (OpenGroupTypes ch) as [v |] eqn:Hopen.
    { apply (IH _ _ _ _) in H; [exact H | | | ].
      - cbn. split; [apply (OpenGroupTypes_not_nil _ _ Hopen) | exact Hchain].
      - split; [reflexivity | constructor].
      - constructor; assumption. }
    destruct (CloseGroupTypes ch).
    { destruct stack as [| top stack']; [discriminate |].
      destruct Hchain as [Hnil Hchain].
      inversion Hstack as [| ? ? Htop Hstack']; subst.
      destruct Hcur as [Hfactor Htokens].
      assert (Hgroup : forall f, 0 <= f <= 9 ->
                wfToken (TGroup (with_Factor cur f))).
      { intros f Hf. destruct cur as [ts f0 gt]. cbn in *.
        constructor; assumption. }
      assert (Hcur1 : wfToken (TGroup cur)).
      { destruct cur as [ts f0 gt]. cbn in *. subst f0.
        constructor; [assumption | lia | assumption]. }
      destruct rest' as [| d rest''].
      - apply (IH _ _ _ _) in H; [exact H | | | exact Hstack'].
        + rewrite GroupTypeOf_AddToken. exact Hchain.
        + apply inProgress_AddToken; assumption.
      - destruct (isDigit d) eqn:Hd.
        + apply (IH _ _ _ _) in H; [exact H | | | exact Hstack'].
          * rewrite GroupTypeOf_AddToken. exact Hchain.
          * apply inProgress_AddToken; [assumption |].
            apply Hgroup, digit_val_bounds, Hd.
        + apply (IH _ _ _ _) in H; [exact H | | | exact Hstack'].
          * rewrite GroupTypeOf_AddToken. exact Hchain.
          * apply inProgress_AddToken; assumption. }
    destruct (Separators ch).
    { apply (IH _ _ _ _) in H; [exact H | | | exact Hstack].
      - rewrite GroupTypeOf_AddToken. exact Hchain.
      - apply inProgress_AddToken; [assumption | constructor]. }
    destruct (extractToken (ch :: rest')) as [[t n] | e] eqn:He;
      [| discriminate].
    apply (IH _ _ _ _) in H; [exact H | | | exact Hstack].
    + rewrite GroupTypeOf_AddToken. exact Hchain.
    + apply inProgress_AddToken; [assumption |]. constructor.
      apply (extractToken_canonicalMove _ _ _ He).
Qed.

(** X20.  When [ParseNotation] succeeds, the group it returns is the root:
    its type is nil and its factor is 1; every move in the tree is
    canonical (rotation count 1 or 2, slices only on wide moves, no slices
    and no wide flag on x, y, z), and every nested group has the type of a
    delimiter and a factor between 0 and 9. *)
Theorem ParseNotation_well_formed (input : list ascii) (g : Group) :
  ParseNotation input = Some (Ok g) ->
  GroupTypeOf g = groupTypeNil /\ Factor g = 1
  /\ Forall wfToken (Tokens g).
Proof.
  intros H. unfold ParseNotation in H.
  apply parseLoop_wf in H.
  - destruct H as [Ht [Hf Hts]]. auto.
  - reflexivity.
  - split; [reflexivity | constructor].
  - constructor.
Qed.

Lemma ParseNotation_well_formed_witness :
  Forall wfToken
    [TGroup (mkGroup [TMove (mv "L" 1 false); TMove (mv "U" 1 false);
                      TSeparator SepConjugate;
                      TGroup (mkGroup [TMove (mv "S" 1 true);
                                       TSeparator SepCommutator;
                                       TMove (mv "L" 2 true)]
                                      1 GroupTypeComm)]
                     3 GroupTypeComm)].
Proof.
  exact (proj2 (proj2 (ParseNotation_well_formed
           (str "[L U : [S' , L2']]3")
           (mkGroup
              [TGroup (mkGroup [TMove (mv "L" 1 false); TMove (mv "U" 1 false);
                                TSeparator SepConjugate;
                                TGroup (mkGroup [TMove (mv "S" 1 true);
                                                 TSeparator SepCommutator;
                                                 TMove (mv "L" 2 true)]
                                                1 GroupTypeComm)]
                               3 GroupTypeComm)]
              1 groupTypeNil) eq_refl))).
Defined.

(* ----------------------------------------------------------------- *)
(** *** Delimiters are balanced *)

Lemma tokenChar_not_delimiter (ch : ascii) :
  tokenChar ch = true -> isOpen ch = false /\ isClose ch = false.
Proof.
  destruct ch as [[] [] [] [] [] [] [] []]; cbv; intros H;
    try discriminate; split; reflexivity.
Qed.

Lemma optional_tokenChar (p : ascii -> bool) (input : list ascii) :
  (forall ch, p ch = true -> tokenChar ch = true) ->
  Forall (fun ch => tokenChar ch = true) (fst (optional p input))
  /\ input = fst (optional p input) ++ snd (optional p input).
Proof.
  intros Hp. unfold optional. destruct input as [| ch rest]; cbn.
  - split; [constructor | reflexivity].
  - destruct (p ch) eqn:E; cbn; split; try reflexivity; repeat constructor.
    apply Hp, E.
Qed.

Lemma tokenChar_digit (ch : ascii) : isDigit ch = true -> tokenChar ch = true.
Proof. unfold tokenChar. intros ->. reflexivity. Qed.

Lemma tokenChar_face (ch : ascii) : isFace ch = true -> tokenChar ch = true.
Proof.
  unfold tokenChar. intros ->. destruct (isDigit ch); reflexivity.
Qed.

Lemma tokenChar_w (ch : ascii) : Ascii.eqb "w" ch = true -> tokenChar ch = true.
Proof.
  unfold tokenChar. intros ->. destruct (isDigit ch), (isFace ch); reflexivity.
Qed.

Lemma tokenChar_prime (ch : ascii) :
  Ascii.eqb "'" ch = true -> tokenChar ch = true.
Proof.
  unfold tokenChar. intros ->.
  destruct (isDigit ch), (isFace ch), (Ascii.eqb "w" ch); reflexivity.
Qed.

(** What [reToken_face] matches is at the start of its input and is made
    of token characters up to [end]. *)
Lemma reToken_face_body (slices input : list ascii) (m : submatches) :
  Forall (fun ch => tokenChar ch = true) slices ->
  reToken_face slices input = Some m ->
  Forall (fun ch => tokenChar ch = true) (tokenBody m)
  /\ exists tl, slices ++ input = tokenBody m ++ tl.
Proof.
  intros Hsl. unfold reToken_face.
  destruct input as [| f rest]; [discriminate |].
  destruct (isFace f) eqn:Hf; [| discriminate].
  destruct (optional_tokenChar (Ascii.eqb "w") rest tokenChar_w) as [W1 W2].
  destruct (optional (Ascii.eqb "w") rest) as [w r1]. cbn [fst snd] in *.
  destruct (optional_tokenChar isDigit r1 tokenChar_digit) as [D1 D2].
  destruct (optional isDigit r1) as [d r2]. cbn [fst snd] in *.
  destruct (optional_tokenChar (Ascii.eqb "'") r2 tokenChar_prime) as [Q1 Q2].
  destruct (optional (Ascii.eqb "'") r2) as [q r3]. cbn [fst snd] in *.
  destruct (optional isEnd r3) as [e r4].
  intros H. injection H as <-. unfold tokenBody. cbn. split.
  - apply Forall_app. split; [exact Hsl |].
    constructor; [apply tokenChar_face, Hf |].
    apply Forall_app. split; [exact W1 |].
    apply Forall_app. split; assumption.
  - exists r3. subst rest r1 r2.
    repeat (rewrite <- ?app_assoc; cbn [app]). reflexivity.
Qed.

Lemma reToken_body (input : list ascii) (m : submatches) :
  reToken input = Some m ->
  Forall (fun ch => tokenChar ch = true) (tokenBody m)
  /\ exists tl, input = tokenBody m ++ tl.
Proof.
  unfold reToken. intros H.
  assert (Hnil : forall inp, reToken_face [] inp = Some m ->
            Forall (fun ch => tokenChar ch = true) (tokenBody m)
            /\ exists tl, inp = tokenBody m ++ tl).
  { intros inp Hm. apply (reToken_face_body [] inp m); [constructor | exact Hm]. }
  destruct input as [| d rest]; [apply Hnil, H |].
  destruct (isDigit d) eqn:Hd; [| apply Hnil, H].
  destruct (reToken_face [d] rest) eqn:Hr; [| apply Hnil, H].
  injection H as ->.
  apply (reToken_face_body [d] rest m); [| exact Hr].
  repeat constructor. apply tokenChar_digit, Hd.
Qed.

(** The characters that a token takes from the input are token
    characters. *)
Lemma extractToken_chars (input : list ascii) (t : Move) (n : Z) :
  extractToken input = Ok (t, n) ->
  Forall (fun ch => tokenChar ch = true) (firstn (Z.to_nat n) input).
Proof.
  unfold extractToken.
  destruct (reToken input) as [m |] eqn:Hm; [| discriminate].
  destruct (strToInt (sm_slices m)); [| discriminate].
  destruct (strToInt (sm_rotations m)); [| discriminate].
  destruct (validate _); [discriminate |].
  intros H. injection H as _ <-.
  destruct (reToken_body _ _ Hm) as [Hbody [tl ->]].
  assert (Hn : Z.to_nat (len (match0 m) - len (sm_end m))
               = List.length (tokenBody m)).
  { unfold len, match0, tokenBody. rewrite !length_app. cbn. lia. }
  rewrite Hn, firstn_app, Nat.sub_diag, firstn_all. cbn [firstn].
  rewrite app_nil_r. exact Hbody.
Qed.

Lemma countIf_app (p : ascii -> bool) (a b : list ascii) :
  countIf p (a ++ b) = (countIf p a + countIf p b)%nat.
Proof. unfold countIf. rewrite filter_app, length_app. reflexivity. Qed.

Lemma countIf_none (p : ascii -> bool) (a : list ascii) :
  Forall (fun ch => p ch = false) a -> countIf p a = 0%nat.
Proof.
  unfold countIf. induction 1 as [| ch a Hch _ IH]; [reflexivity |].
  cbn [filter]. rewrite Hch. exact IH.
Qed.

Lemma countIf_skip_token (p : ascii -> bool) (input : list ascii) (n : nat) :
  (forall ch, tokenChar ch = true -> p ch = false) ->
  Forall (fun ch => tokenChar ch = true) (firstn n input) ->
  countIf p (skipn n input) = countIf p input.
Proof.
  intros Hp Hf.
  assert (E : countIf p input
              = (countIf p (firstn n input) + countIf p (skipn n input))%nat)
    by (rewrite <- countIf_app, firstn_skipn; reflexivity).
  rewrite E, (countIf_none p (firstn n input)); [reflexivity |].
  eapply Forall_impl; [| exact Hf]. intros ch. apply Hp.
Qed.

Lemma open_close_cases (ch : ascii) :
  (Ascii.eqb ch " " = true -> isOpen ch = false /\ isClose ch = false)
  /\ (isOpen ch = true -> isClose ch = false)
  /\ (isDigit ch = true -> isOpen ch = false /\ isClose ch = false).
Proof.
  destruct ch as [[] [] [] [] [] [] [] []]; cbv;
    repeat split; intros; try discriminate; reflexivity.
Qed.

Lemma countIf_cons (p : ascii -> bool) (ch : ascii) (rest : list ascii) :
  countIf p (ch :: rest)
  = ((if p ch then 1 else 0) + countIf p rest)%nat.
Proof. unfold countIf. cbn [filter]. destruct (p ch); reflexivity. Qed.

(** The depth of the stack follows the delimiters. *)
Lemma parseLoop_balanced (fuel : nat) :
  forall rest stack currentGroup g,
    parseLoop fuel rest stack currentGroup = Some (Ok g) ->
    (List.length stack + countIf isOpen rest = countIf isClose rest)%nat.
Proof.
  induction fuel as [| fuel IH]; intros rest stack cur g H; [discriminate |].
  cbn [parseLoop] in H.
  destruct rest as [| ch rest'].
  - destruct stack; [reflexivity |].
    unfold len in H. cbn [List.length] in H.
    destruct (Z.gtb_spec (Z.of_nat (S (List.length stack))) 0);
      [discriminate | lia].
  - destruct (open_close_cases ch) as [Hsp [Hoc Hdig]].
    rewrite !countIf_cons. unfold isOpen, isClose in *.
    destruct (Ascii.eqb ch " ").
    { destruct (Hsp eq_refl) as [-> ->]. apply IH in H. exact H. }
    destruct (OpenGroupTypes ch) as [v |] eqn:Ho.
    { rewrite (Hoc eq_refl). apply IH in H. cbn [List.length isSome] in *. lia. }
    destruct (CloseGroupTypes ch) eqn:Hcl.
    { destruct stack as [| top stack']; [discriminate |].
      cbn [isSome List.length].
      destruct rest' as [| d rest''].
      - apply IH in H. lia.
      - destruct (isDigit d) eqn:Hd.
        + apply IH in H. rewrite !countIf_cons.
          destruct (open_close_cases d) as [_ [_ Hdd]].
          unfold isOpen, isClose in Hdd. destruct (Hdd Hd) as [-> ->]. lia.
        + apply IH in H. lia. }
    cbn [isSome].
    destruct (Separators ch).
    { apply IH in H. lia. }
    destruct (extractToken (ch :: rest')) as [[t n] | e] eqn:He;
      [| discriminate].
    apply IH in H. apply extractToken_chars in He.
    rewrite (countIf_skip_token isOpen) in H;
      [| intros c Hc; apply (tokenChar_not_delimiter c Hc) | exact He].
    rewrite (countIf_skip_token isClose) in H;
      [| intros c Hc; apply (tokenChar_not_delimiter c Hc) | exact He].
    rewrite !countIf_cons in H. unfold isOpen, isClose in H.
    rewrite Ho, Hcl in H. cbn [isSome] in H. lia.
Qed.

(** X21.  When [ParseNotation] succeeds, its input has as many closing
    delimiters as opening delimiters (the two kinds of bracket counted
    together). *)
Theorem ParseNotation_balanced (input : list ascii) (g : Group) :
  ParseNotation input = Some (Ok g) ->
  countIf isOpen input = countIf isClose input.
Proof.
  intros H. apply parseLoop_balanced in H. exact H.
Qed.

Lemma ParseNotation_balanced_witness :
  countIf isOpen (str "[(R U)2 : F]") = countIf isClose (str "[(R U)2 : F]").
Proof.
  apply (ParseNotation_balanced (str "[(R U)2 : F]")
           (mkGroup
              [TGroup (mkGroup
                 [TGroup (mkGroup [TMove (mv "R" 1 false);
                                   TMove (mv "U" 1 false)] 2 GroupTypeMove);
                  TSeparator SepConjugate; TMove (mv "F" 1 false)]
                 1 GroupTypeComm)]
              1 groupTypeNil)).
  reflexivity.
Defined.

Lemma ParseNotation_returns_witness :
  parseLoop 10 (str "R (U") [] (NewGroup groupTypeNil)
  = ParseNotation (str "R (U").
Proof.
  destruct (ParseNotation_returns (str "R (U")) as [res [H1 H2]].
  rewrite H1. apply H2. cbn. lia.
Defined.

(* ================================================================= *)
(** ** Canonical moves from the text to the cube *)

(** A canonical move with another rotation count (1 or 2) and any inverted
    flag is canonical. *)
Lemma canonicalMove_with (l : Move) (R : Z) (inv : bool) :
  canonicalMove l -> R = 1 \/ R = 2 ->
  canonicalMove (mkMove (Slices l) (Operator l) (Wide l) R inv).
Proof.
  intros [_ [Hb [Hnw [Hw [Hxyz _]]]]] HR. unfold canonicalMove.
  cbn [Slices Operator Wide Rotations Inverted].
  split; [exact HR |]. split; [exact Hb |]. split; [exact Hnw |].
  split; [exact Hw |]. split; [exact Hxyz |].
  rewrite Normalize_fields. cbn [Slices Operator Wide Rotations Inverted].
  assert (Hs : (Slices l =? 0) && Wide l = false).
  { destruct (Wide l); [| apply andb_false_r].
    specialize (Hw eq_refl). destruct (Z.eqb_spec (Slices l) 0); [lia |].
    reflexivity. }
  rewrite Hs. destruct HR as [-> | ->]; reflexivity.
Qed.

(** A single-layer move of one or two quarter turns, with no slice count,
    is canonical. *)
Lemma canonicalMove_mv (op : ascii) (R : Z) (inv : bool) :
  R = 1 \/ R = 2 -> canonicalMove (mv op R inv).
Proof.
  intros HR. unfold canonicalMove, mv.
  cbn [Slices Operator Wide Rotations Inverted].
  split; [exact HR |]. split; [lia |]. split; [reflexivity |].
  split; [discriminate |]. split; [intros _; split; reflexivity |].
  rewrite Normalize_fields. cbn [Slices Operator Wide Rotations Inverted].
  destruct HR as [-> | ->]; reflexivity.
Qed.

Lemma canonicalMove_invertMove (m : Move) :
  canonicalMove m -> canonicalMove (invertMove m).
Proof.
  intros H. destruct H as [HR H'].
  apply (canonicalMove_with m (Rotations m) (negb (Inverted m))
           (conj HR H') HR).
Qed.

Lemma ReverseMoves_canonical (ms : list Move) :
  Forall canonicalMove ms -> Forall canonicalMove (ReverseMoves ms).
Proof.
  intros H. rewrite ReverseMoves_map. apply Forall_map, Forall_rev.
  eapply Forall_impl; [| exact H]. apply canonicalMove_invertMove.
Qed.

(** Two canonical moves that combine give a move that [Normalize] makes
    canonical. *)
Lemma CombineMove_canonical (l t combined : Move) :
  canonicalMove l -> canonicalMove t ->
  CombineMove l t = (Some combined, true) ->
  canonicalMove (Normalize combined).
Proof.
  intros Hl Ht. unfold CombineMove.
  destruct (negb (Operator l =? Operator t) || _ || _); [discriminate |].
  pose proof Hl as [HRl _]. pose proof Ht as [HRt _].
  assert (Hs : (Slices l =? 0) && Wide l = false).
  { destruct Hl as [_ [_ [_ [Hw _]]]].
    destruct (Wide l); [| apply andb_false_r].
    specialize (Hw eq_refl). destruct (Z.eqb_spec (Slices l) 0); [lia |].
    reflexivity. }
  assert (Hgoal : forall R,
            (fst (normRotations (Z.rem R 4) (Inverted l)) = 1
             \/ fst (normRotations (Z.rem R 4) (Inverted l)) = 2) ->
            canonicalMove (Normalize (with_Rotations l R))).
  { intros R HR'. rewrite Normalize_fields.
    cbn [with_Rotations Slices Operator Wide Rotations Inverted].
    rewrite Hs. apply canonicalMove_with; assumption. }
  set (R := if Bool.eqb (Inverted l) (Inverted t)
            then wrap (Rotations l + Rotations t)
            else wrap (Rotations l - Rotations t)).
  replace (if Bool.eqb (Inverted l) (Inverted t)
           then with_Rotations l (wrap (Rotations l + Rotations t))
           else with_Rotations l (wrap (Rotations l - Rotations t)))
    with (with_Rotations l R)
    by (subst R; destruct (Bool.eqb (Inverted l) (Inverted t)); reflexivity).
  cbn [with_Rotations Rotations].
  destruct (Z.rem R 4 =? 0) eqn:E; [discriminate |].
  intros H. injection H as <-.
  change (canonicalMove (Normalize (with_Rotations l R))).
  apply Hgoal. clear Hgoal. subst R. revert E.
  destruct (Bool.eqb (Inverted l) (Inverted t));
    destruct HRl as [-> | ->], HRt as [-> | ->];
    intros E; vm_compute in E; try discriminate;
    destruct (Inverted l); vm_compute; auto.
Qed.

Lemma Forall_one {A : Type} (P : A -> Prop) (a : A) : P a -> Forall P [a].
Proof. intros H. apply Forall_cons; [exact H | apply Forall_nil]. Qed.

Lemma normalizeStep_canonical (normalized : list Move) (t : Move) :
  Forall canonicalMove normalized -> canonicalMove t ->
  Forall canonicalMove (normalizeStep normalized t).
Proof.
  intros Hn Ht. unfold normalizeStep.
  destruct (unsnoc normalized) as [[init lastMove] |] eqn:Hu.
  - apply unsnoc_Some in Hu. subst normalized.
    apply Forall_app in Hn. destruct Hn as [Hinit Hlast].
    inversion Hlast as [| ? ? Hl _]; subst.
    destruct (CombineMove lastMove t) as [[combined |] []] eqn:Hc.
    + apply Forall_app. split; [exact Hinit |]. apply Forall_one.
      apply (CombineMove_canonical lastMove t combined Hl Ht Hc).
    + apply Forall_app. split; [| apply Forall_one; exact Ht].
      apply Forall_app. split; assumption.
    + exact Hinit.
    + apply Forall_app. split; [| apply Forall_one; exact Ht].
      apply Forall_app. split; assumption.
  - apply Forall_app. split; [exact Hn | apply Forall_one; exact Ht].
Qed.

Lemma NormalizeMoves_canonical (moves ms : list Move) :
  Forall canonicalMove moves ->
  NormalizeMoves moves = Ok ms -> Forall canonicalMove ms.
Proof.
  unfold NormalizeMoves. intros Hm H. injection H as <-.
  assert (Hfold : forall acc, Forall canonicalMove acc ->
            Forall canonicalMove (fold_left normalizeStep moves acc)).
  { induction Hm as [| m moves Hm _ IH]; intros acc Hacc; cbn [fold_left].
    - exact Hacc.
    - apply IH, normalizeStep_canonical; assumption. }
  apply Hfold. constructor.
Qed.

Lemma repeatMoves_canonical (res : list Move) (factor : Z) :
  Forall canonicalMove res -> Forall canonicalMove (repeatMoves res factor).
Proof.
  intros H. rewrite repeatMoves_concat. destruct (factor >? 1); [| exact H].
  induction (Z.to_nat factor) as [| n IH]; cbn [repeat concat].
  - constructor.
  - apply Forall_app. split; assumption.
Qed.

Lemma expandFinish_canonical
  (gt : GroupType) (factor : Z) (head tail : list Move)
  (separator : option Separator) (ms : list Move) :
  Forall canonicalMove head -> Forall canonicalMove tail ->
  expandFinish gt factor (head, tail, separator) = Ok ms ->
  Forall canonicalMove ms.
Proof.
  intros Hh Ht. unfold expandFinish.
  destruct (isSome separator && negb (GroupType_eqb gt GroupTypeComm));
    [discriminate |].
  apply NormalizeMoves_canonical, repeatMoves_canonical.
  pose proof (ReverseMoves_canonical head Hh) as Hrh.
  pose proof (ReverseMoves_canonical tail Ht) as Hrt.
  destruct separator as [[] |]; repeat (apply Forall_app; split); assumption.
Qed.

(** Induction on groups with the nested groups as hypothesis. *)
Lemma Group_nested_ind (P : Group -> Prop) :
  (forall ts factor gt,
     Forall (fun t => match t with TGroup g => P g | _ => True end) ts ->
     P (mkGroup ts factor gt)) ->
  forall g, P g.
Proof.
  intros H.
  refine (fix IH (g : Group) : P g :=
            match g with
            | mkGroup ts factor gt =>
                H ts factor gt
                  ((fix all (ts : list Tokenizable)
                      : Forall (fun t => match t with
                                         | TGroup g => P g
                                         | _ => True
                                         end) ts :=
                      match ts with
                      | [] => Forall_nil _
                      | t :: ts' =>
                          Forall_cons t
                            (match t return
                               match t with TGroup g => P g | _ => True end
                             with
                             | TGroup g' => IH g'
                             | _ => I
                             end)
                            (all ts')
                      end) ts)
            end).
Qed.

Lemma expandLoop_canonical (ts : list Tokenizable) :
  Forall wfToken ts ->
  Forall (fun t => match t with
                   | TGroup g =>
                       Forall wfToken (Tokens g) ->
                       forall ms, Expand g = Ok ms -> Forall canonicalMove ms
                   | _ => True
                   end) ts ->
  forall head tail sep head' tail' sep',
    Forall canonicalMove head -> Forall canonicalMove tail ->
    expandLoop Expand ts (head, tail, sep) = Ok (head', tail', sep') ->
    Forall canonicalMove head' /\ Forall canonicalMove tail'.
Proof.
  intros Hwf Hsub. induction ts as [| t ts IH];
    intros head tail sep head' tail' sep' Hh Ht H; cbn [expandLoop] in H.
  - injection H as <- <- _. auto.
  - inversion Hwf as [| ? ? Hwt Hwts]; subst.
    inversion Hsub as [| ? ? Hst Hsts]; subst.
    specialize (IH Hwts Hsts).
    destruct t as [v | v | v].
    + inversion Hwt; subst.
      destruct sep; apply IH in H; auto;
        apply Forall_app; split; auto.
    + destruct sep; [discriminate |]. apply IH in H; auto.
    + destruct (Expand v) as [toks |] eqn:He; [| discriminate].
      assert (Htoks : Forall canonicalMove toks).
      { apply (Hst ltac:(inversion Hwt; subst; assumption) toks eq_refl). }
      destruct sep; apply IH in H; auto; apply Forall_app; split; auto.
Qed.

Lemma Expand_canonical_group (g : Group) :
  Forall wfToken (Tokens g) ->
  forall ms, Expand g = Ok ms -> Forall canonicalMove ms.
Proof.
  induction g as [ts factor gt IH] using Group_nested_ind.
  cbn [Tokens]. intros Hwf ms H. cbn [Expand] in H.
  destruct (expandLoop Expand ts ([], [], None)) as [[[h t] sep] |] eqn:Hl;
    [| discriminate].
  destruct (expandLoop_canonical ts Hwf IH _ _ _ _ _ _
              (Forall_nil _) (Forall_nil _) Hl) as [Hh Ht].
  apply (expandFinish_canonical gt factor h t sep ms Hh Ht H).
Qed.

(** X22.  From the text to the cube: every move of the sequence that
    [Expand] returns for a group parsed by [ParseNotation] is canonical
    (rotation count 1 or 2, a slice count only on wide moves, neither on
    x, y, z), whatever was combined, reversed or repeated on the way. *)
Theorem parseExpand_canonical (input : list ascii) (ms : list Move) :
  parseExpand input = Some (Ok ms) -> Forall canonicalMove ms.
Proof.
  unfold parseExpand.
  destruct (ParseNotation input) as [[g | e] |] eqn:Hp; try discriminate.
  intros H. injection H as H.
  apply parseLoop_wf in Hp.
  - destruct Hp as [_ [_ Hts]]. apply (Expand_canonical_group g Hts ms H).
  - reflexivity.
  - split; [reflexivity | constructor].
  - constructor.
Qed.

Lemma parseExpand_canonical_witness :
  Forall canonicalMove
    [mv "R" 1 false; mv "U" 1 false; mv "R" 1 true; mv "U" 1 true].
Proof.
  exact (parseExpand_canonical (str "[R , U]")
           [mv "R" 1 false; mv "U" 1 false; mv "R" 1 true; mv "U" 1 true]
           eq_refl).
Defined.

(* ================================================================= *)
(** ** Normalization does not change what the moves do *)

(** Two moves of the same face, slices and wide flag ask for the same
    layers; the second turn has its own rotation count, and the direction
    of the first or the other one as the inverted flags agree or not. *)
Lemma moveTurn_same_face (c : Cube) (l t : Move) :
  Operator l = Operator t -> Slices l = Slices t -> Wide l = Wide t ->
  moveTurn c t
  = option_map (fun tl => retarget tl (Rotations t)
                            (negb (Bool.eqb (Inverted l) (Inverted t))))
               (moveTurn c l).
Proof.
  destruct l as [sl op wd rl il], t as [st ot wt rt it].
  cbn [Slices Operator Wide Rotations Inverted]. intros <- <- <-.
  unfold moveTurn, isAny, retarget.
  cbn [Slices Operator Wide Rotations Inverted].
  destruct ((if wd then _ else _) <? 0); [reflexivity |].
  destruct (if existsb (Z.eqb op) [rlit "L"; rlit "B"; rlit "D"; rlit "E"]
            then _ else _) as [lo hi].
  destruct (existsb (Z.eqb op) [rlit "M"; rlit "E"; rlit "S"]);
    [destruct (Z.rem (max c) 2 =? 1); [reflexivity |] |];
    cbn [option_map turn_axis layerMin layerMax rotations clockwise];
    repeat match goal with |- context [existsb (Z.eqb op) ?l] =>
      destruct (existsb (Z.eqb op) l) end;
    destruct il, it; reflexivity.
Qed.

Lemma moveTurn_rotations (c : Cube) (l : Move) (tl : turn) :
  moveTurn c l = Some tl -> rotations tl = Rotations l.
Proof.
  unfold moveTurn.
  destruct ((if Wide l then _ else _) <? 0); [discriminate |].
  destruct (if isAny l [rlit "L"; rlit "B"; rlit "D"; rlit "E"]
            then _ else _) as [lo hi].
  destruct (isAny l [rlit "M"; rlit "E"; rlit "S"]);
    [destruct (Z.rem (max c) 2 =? 1); [discriminate |] |];
    intros H; injection H as <-; reflexivity.
Qed.

(** A turn of no rotation changes nothing. *)
Lemma Cube_turn_zero (c : Cube) (t : turn) :
  rotations t = 0 -> Cube_turn c t = c.
Proof.
  intros H0. destruct c as [m ps]. unfold Cube_turn. cbn [max pieces].
  f_equal. apply map_id_on. intros p _. rewrite turnPiece_rotatePiece.
  destruct (inRange t _); [| reflexivity].
  destruct p as [tx ty tz]. rewrite rotatePiece_proj, H0.
  destruct (turn_axis t); reflexivity.
Qed.

(** Two turns of the same layers, one after the other, are one turn when
    their passes over a pair of tiles are. *)
Lemma Cube_turn_compose (c : Cube) (t1 t2 t3 : turn) :
  cube_int c ->
  turn_axis t2 = turn_axis t1 -> layerMin t2 = layerMin t1 ->
  layerMax t2 = layerMax t1 ->
  turn_axis t3 = turn_axis t1 -> layerMin t3 = layerMin t1 ->
  layerMax t3 = layerMax t1 ->
  (forall s, pair_int s ->
     Nat.iter (Z.to_nat (rotations t2)) (turnAxisStep (max c) (clockwise t2))
       (Nat.iter (Z.to_nat (rotations t1))
          (turnAxisStep (max c) (clockwise t1)) s)
     = Nat.iter (Z.to_nat (rotations t3))
         (turnAxisStep (max c) (clockwise t3)) s) ->
  Cube_turn (Cube_turn c t1) t2 = Cube_turn c t3.
Proof.
  intros [_ Hint] A2 L2 M2 A3 L3 M3 Hs.
  destruct c as [m ps]. unfold Cube_turn. cbn [max pieces] in *. f_equal.
  rewrite map_map. apply map_ext_in. intros p Hp.
  rewrite Forall_forall in Hint. specialize (Hint p Hp).
  rewrite (turnPiece_max_ext (mkCube m (map _ _)) (mkCube m ps))
    by reflexivity.
  rewrite !turnPiece_rotatePiece.
  assert (R2 : forall n, inRange t2 n = inRange t1 n)
    by (intros n; unfold inRange; rewrite L2, M2; reflexivity).
  assert (R3 : forall n, inRange t3 n = inRange t1 n)
    by (intros n; unfold inRange; rewrite L3, M3; reflexivity).
  rewrite A2, A3, R2, R3.
  destruct (inRange t1 (axisCoordinate (turn_axis t1) p)) eqn:Hr.
  - rewrite rotatePiece_axisCoordinate, Hr.
    destruct p as [tx ty tz]. apply tiles_int_inv in Hint.
    destruct Hint as [Hx [Hy Hz]].
    destruct (turn_axis t1);
      rewrite (rotatePiece_proj _ _ (clockwise t1)), !rotatePiece_proj,
        turnAxis_pair; unfold turnAxis; cbn [max] in Hs |- *;
      rewrite Hs by (split; assumption); reflexivity.
  - rewrite Hr. reflexivity.
Qed.

(** Quarter turns of a pair of tiles. *)
Section Quarters.
Variable m : Z.
Variable d : bool.
Let f := turnAxisStep m d.
Let g := turnAxisStep m (negb d).

Lemma quarter_undo (s : tile * tile) : pair_int s -> g (f s) = s.
Proof. apply turnAxisStep_undo. Qed.

Lemma quarter_redo (s : tile * tile) : pair_int s -> f (g s) = s.
Proof.
  intros Hs. unfold f, g.
  rewrite <- (negb_involutive d) at 1. apply turnAxisStep_undo, Hs.
Qed.

Lemma quarter_three (s : tile * tile) : pair_int s -> f (f (f s)) = g s.
Proof.
  intros Hs.
  rewrite <- (turnAxisStep_four_pair m d s Hs) at 2.
  unfold g. rewrite turnAxisStep_undo; [reflexivity |].
  repeat apply turnAxisStep_int. exact Hs.
Qed.

End Quarters.

Lemma quarter_three_back (m : Z) (d : bool) (s : tile * tile) :
  pair_int s ->
  turnAxisStep m (negb d) (turnAxisStep m (negb d) (turnAxisStep m (negb d) s))
  = turnAxisStep m d s.
Proof.
  intros Hs. rewrite (quarter_three m (negb d) s Hs), negb_involutive.
  reflexivity.
Qed.

Lemma ExecuteMove_max (c : Cube) (move : Move) :
  max (fst (ExecuteMove c move)) = max c.
Proof.
  rewrite ExecuteMove_fst. destruct (moveTurn c move); reflexivity.
Qed.

Lemma ExecuteMove_twice (c : Cube) (l t : Move) :
  Operator l = Operator t -> Slices l = Slices t -> Wide l = Wide t ->
  fst (ExecuteMove (fst (ExecuteMove c l)) t)
  = match moveTurn c l with
    | Some tl =>
        Cube_turn (Cube_turn c tl)
          (retarget tl (Rotations t)
             (negb (Bool.eqb (Inverted l) (Inverted t))))
    | None => c
    end.
Proof.
  intros Ho Hs Hw.
  rewrite (ExecuteMove_fst (fst (ExecuteMove c l)) t).
  rewrite (moveTurn_max_ext _ c t (ExecuteMove_max c l)).
  rewrite (moveTurn_same_face c l t Ho Hs Hw), ExecuteMove_fst.
  destruct (moveTurn c l); reflexivity.
Qed.

Ltac quarters :=
  cbn [rotations clockwise retarget Bool.eqb];
  change (Z.to_nat 0) with 0%nat;
  change (Z.to_nat 1) with 1%nat;
  change (Z.to_nat 2) with 2%nat;
  cbn [Nat.iter nat_rect];
  let s := fresh "s" in
  let Hq := fresh "Hq" in
  intros s Hq;
  repeat first
    [ reflexivity
    | rewrite turnAxisStep_four_pair by exact Hq
    | rewrite quarter_undo
        by (repeat apply turnAxisStep_int; exact Hq)
    | rewrite quarter_redo
        by (repeat apply turnAxisStep_int; exact Hq)
    | rewrite quarter_three by exact Hq
    | rewrite quarter_three_back by exact Hq ].

(** Two canonical moves that combine: executing one after the other is
    executing the combined move, or nothing when they cancel. *)
Lemma CombineMove_sound (c : Cube) (l t : Move) (combined : option Move) :
  cube_int c -> canonicalMove l -> canonicalMove t ->
  CombineMove l t = (combined, true) ->
  fst (ExecuteMove (fst (ExecuteMove c l)) t)
  = match combined with
    | Some out => fst (ExecuteMove c (Normalize out))
    | None => c
    end.
Proof.
  intros Hint Hl Ht. unfold CombineMove.
  destruct (negb (Operator l =? Operator t) || negb (Slices l =? Slices t)
            || negb (Bool.eqb (Wide l) (Wide t))) eqn:Hc; [discriminate |].
  apply orb_false_elim in Hc. destruct Hc as [Hc Hw].
  apply orb_false_elim in Hc. destruct Hc as [Ho Hs].
  apply negb_false_iff in Ho, Hs, Hw.
  apply Z.eqb_eq in Ho, Hs. apply eqb_prop in Hw.
  rewrite (ExecuteMove_twice c l t Ho Hs Hw).
  pose proof Hl as [HRl [_ [_ [Hwl _]]]]. pose proof Ht as [HRt _].
  assert (Hsl : (Slices l =? 0) && Wide l = false).
  { destruct (Wide l); [| apply andb_false_r].
    specialize (Hwl eq_refl). destruct (Z.eqb_spec (Slices l) 0); [lia |].
    reflexivity. }
  assert (Hout : forall R,
    fst (ExecuteMove c (Normalize (with_Rotations l R)))
    = match moveTurn c l with
      | Some tl =>
          Cube_turn c
            (retarget tl (fst (normRotations (Z.rem R 4) (Inverted l)))
               (negb (Bool.eqb (Inverted l)
                       (snd (normRotations (Z.rem R 4) (Inverted l))))))
      | None => c
      end).
  { intros R. rewrite ExecuteMove_fst, Normalize_fields.
    cbn [with_Rotations Slices Operator Wide Rotations Inverted].
    rewrite Hsl.
    rewrite (moveTurn_same_face c l
               (mkMove (Slices l) (Operator l) (Wide l) _ _)
               eq_refl eq_refl eq_refl).
    destruct (moveTurn c l); reflexivity. }
  destruct (moveTurn c l) as [tl |] eqn:Htl.
  2: { intros H.
       destruct (Z.rem _ 4 =? 0); injection H as <-; [reflexivity |].
       destruct (Bool.eqb (Inverted l) (Inverted t)); apply (eq_sym (Hout _)). }
  pose proof (moveTurn_rotations c l tl Htl) as Hrot.
  destruct (Bool.eqb (Inverted l) (Inverted t)) eqn:Hinv;
    destruct HRl as [Hrl | Hrl], HRt as [Hrt | Hrt];
    rewrite Hrl, Hrt; cbn [with_Rotations Rotations];
    match goal with
    | |- context [Z.rem (wrap ?z) 4 =? 0] =>
        let v := eval vm_compute in (wrap z) in
        change (wrap z) with v
    end;
    match goal with
    | |- context [Z.rem ?z 4 =? 0] =>
        let b := eval vm_compute in (Z.rem z 4 =? 0) in
        change (Z.rem z 4 =? 0) with b
    end;
    cbv iota; intros H; injection H as <-.
  all: try rewrite Hout.
  all: try match goal with
    | |- context [normRotations (Z.rem ?z 4) ?i] =>
        destruct i;
        match goal with
        | |- context [normRotations (Z.rem ?z' 4) ?i'] =>
            let v := eval vm_compute in (normRotations (Z.rem z' 4) i') in
            change (normRotations (Z.rem z' 4) i') with v
        end
    end.
  all: cbn [fst snd Bool.eqb negb].
  all: try match goal with
    | |- _ = ?x =>
        is_var x;
        transitivity (Cube_turn x (retarget tl 0 false));
          [| apply Cube_turn_zero; reflexivity]
    end.
  all: apply Cube_turn_compose; try reflexivity; try exact Hint.
  all: rewrite Hrot, Hrl.
  all: quarters.
Qed.

Lemma ExecuteMoves_snoc (c : Cube) (ms : list Move) (m : Move) :
  ExecuteMoves c (ms ++ [m]) = fst (ExecuteMove (ExecuteMoves c ms) m).
Proof. rewrite ExecuteMoves_app. reflexivity. Qed.

Lemma normalizeStep_sound (c : Cube) (normalized : list Move) (t : Move) :
  cube_int c -> Forall canonicalMove normalized -> canonicalMove t ->
  ExecuteMoves c (normalizeStep normalized t)
  = ExecuteMoves c (normalized ++ [t]).
Proof.
  intros Hint Hn Ht. unfold normalizeStep.
  destruct (unsnoc normalized) as [[init lastMove] |] eqn:Hu; [| reflexivity].
  apply unsnoc_Some in Hu. subst normalized.
  apply Forall_app in Hn. destruct Hn as [_ Hlast].
  inversion Hlast as [| ? ? Hl _]; subst.
  destruct (CombineMove lastMove t) as [combined []] eqn:Hc.
  - pose proof (CombineMove_sound (ExecuteMoves c init) lastMove t combined
                  (ExecuteMoves_int init c Hint) Hl Ht Hc) as Hsound.
    rewrite !ExecuteMoves_snoc, Hsound.
    destruct combined; [rewrite ExecuteMoves_snoc |]; reflexivity.
  - destruct combined; reflexivity.
Qed.

Lemma NormalizeMoves_executes (c : Cube) (moves normalized : list Move) :
  cube_int c -> Forall canonicalMove moves ->
  NormalizeMoves moves = Ok normalized ->
  ExecuteMoves c normalized = ExecuteMoves c moves.
Proof.
  intros Hint Hm H. unfold NormalizeMoves in H. injection H as <-.
  assert (Hfold : forall acc, Forall canonicalMove acc ->
            ExecuteMoves c (fold_left normalizeStep moves acc)
            = ExecuteMoves c (acc ++ moves)).
  { induction Hm as [| m moves Hm _ IH]; intros acc Hacc; cbn [fold_left].
    - rewrite app_nil_r. reflexivity.
    - rewrite IH by (apply normalizeStep_canonical; assumption).
      rewrite !ExecuteMoves_app, normalizeStep_sound by assumption.
      rewrite ExecuteMoves_app. reflexivity. }
  apply (Hfold [] (Forall_nil _)).
Qed.

(** X23.  Normalization does not change what a sequence of canonical moves
    does: on every cube, executing the sequence that [NormalizeMoves]
    returns leaves the cube exactly as executing the sequence it was given
    does. *)
Theorem NormalizeMoves_sound (c : Cube) (moves normalized : list Move) :
  cube_int c -> Forall canonicalMove moves ->
  NormalizeMoves moves = Ok normalized ->
  ExecuteMoves c normalized = ExecuteMoves c moves.
Proof. apply NormalizeMoves_executes. Qed.

Lemma NormalizeMoves_sound_witness :
  ExecuteMoves (NewCube 3) [mv "R" 1 true; mv "U" 2 true]
  = ExecuteMoves (NewCube 3)
      [mv "R" 1 false; mv "R" 2 false; mv "U" 1 true; mv "U" 1 true].
Proof.
  apply (NormalizeMoves_sound (NewCube 3)
           [mv "R" 1 false; mv "R" 2 false; mv "U" 1 true; mv "U" 1 true]
           [mv "R" 1 true; mv "U" 2 true]).
  - apply cube_intb_sound. vm_compute. reflexivity.
  - repeat apply Forall_cons; try apply Forall_nil;
      apply canonicalMove_mv; try (left; reflexivity);
      try (right; reflexivity); intros H; vm_compute in H; discriminate H.
  - reflexivity.
Defined.

(* ================================================================= *)
(** ** Bracket groups on the cube *)

(** X24.  What the bracket groups do to a cube: for canonical move
    sequences A and B, [Expand] of the conjugate [[A : B]] returns a
    sequence that acts as A, then B, then A undone ([ReverseMoves A]), and
    [Expand] of the commutator [[A , B]] one that acts as A, B, A undone,
    B undone, although [NormalizeMoves] may have combined or removed moves
    of the returned sequence. *)
Theorem Expand_brackets_on_cube (c : Cube) (A B : list Move) :
  cube_int c -> Forall canonicalMove A -> Forall canonicalMove B ->
  (exists ms, Expand (conjugateGroup A B) = Ok ms
     /\ ExecuteMoves c ms
        = ExecuteMoves (ExecuteMoves (ExecuteMoves c A) B) (ReverseMoves A))
  /\ (exists ms, Expand (commutatorGroup A B) = Ok ms
       /\ ExecuteMoves c ms
          = ExecuteMoves
              (ExecuteMoves (ExecuteMoves (ExecuteMoves c A) B)
                 (ReverseMoves A))
              (ReverseMoves B)).
Proof.
  intros Hint HA HB.
  pose proof (ReverseMoves_canonical A HA) as HA'.
  pose proof (ReverseMoves_canonical B HB) as HB'.
  split.
  - exists (fold_left normalizeStep (A ++ B ++ ReverseMoves A) []). split.
    + unfold conjugateGroup. cbn [Expand].
      rewrite expandLoop_app, expandLoop_moves_head. cbn [expandLoop].
      rewrite expandLoop_moves_tail. cbn. rewrite <- app_assoc. reflexivity.
    + rewrite (NormalizeMoves_executes c (A ++ B ++ ReverseMoves A) _ Hint).
      * rewrite !ExecuteMoves_app. reflexivity.
      * repeat (apply Forall_app; split); assumption.
      * reflexivity.
  - exists (fold_left normalizeStep
              (A ++ B ++ ReverseMoves A ++ ReverseMoves B) []). split.
    + unfold commutatorGroup. cbn [Expand].
      rewrite expandLoop_app, expandLoop_moves_head. cbn [expandLoop].
      rewrite expandLoop_moves_tail. cbn. rewrite <- !app_assoc.
      reflexivity.
    + rewrite (NormalizeMoves_executes c
                 (A ++ B ++ ReverseMoves A ++ ReverseMoves B) _ Hint).
      * rewrite !ExecuteMoves_app. reflexivity.
      * repeat (apply Forall_app; split); assumption.
      * reflexivity.
Qed.

Lemma Expand_brackets_on_cube_witness :
  (exists ms, Expand (conjugateGroup [mv "R" 1 false] [mv "R" 1 true]) = Ok ms
     /\ ExecuteMoves (NewCube 3) ms
        = ExecuteMoves
            (ExecuteMoves (ExecuteMoves (NewCube 3) [mv "R" 1 false])
               [mv "R" 1 true])
            (ReverseMoves [mv "R" 1 false]))
  /\ (exists ms,
        Expand (commutatorGroup [mv "R" 1 false] [mv "R" 1 true]) = Ok ms
       /\ ExecuteMoves (NewCube 3) ms
          = ExecuteMoves
              (ExecuteMoves
                 (ExecuteMoves (ExecuteMoves (NewCube 3) [mv "R" 1 false])
                    [mv "R" 1 true])
                 (ReverseMoves [mv "R" 1 false]))
              (ReverseMoves [mv "R" 1 true])).
Proof.
  apply (Expand_brackets_on_cube (NewCube 3)
           [mv "R" 1 false] [mv "R" 1 true]).
  - apply cube_intb_sound. vm_compute. reflexivity.
  - apply Forall_one, canonicalMove_mv. left. reflexivity.
  - apply Forall_one, canonicalMove_mv. left. reflexivity.
Defined.

(* ================================================================= *)
(** ** Four equal moves cancel *)

Lemma normalizeStep_cancel
  (init : list Move) (sl : Z) (op : rune) (wd : bool)
  (r1 : Z) (i1 : bool) (r2 : Z) (i2 : bool) :
  Z.rem (if Bool.eqb i1 i2 then wrap (r1 + r2) else wrap (r1 - r2)) 4 = 0 ->
  normalizeStep (init ++ [mkMove sl op wd r1 i1]) (mkMove sl op wd r2 i2)
  = init.
Proof.
  intros HR. unfold normalizeStep. rewrite unsnoc_snoc. unfold CombineMove.
  cbn [Slices Operator Wide Rotations Inverted].
  rewrite !Z.eqb_refl, Bool.eqb_reflx. cbn [negb orb].
  destruct (Bool.eqb i1 i2); cbn [with_Rotations Rotations];
    rewrite HR; reflexivity.
Qed.

Lemma normalizeStep_merge
  (init : list Move) (sl : Z) (op : rune) (wd : bool)
  (r1 : Z) (i1 : bool) (r2 : Z) (i2 : bool) (r : Z) (i : bool) :
  (sl =? 0) && wd = false ->
  Z.rem (if Bool.eqb i1 i2 then wrap (r1 + r2) else wrap (r1 - r2)) 4 <> 0 ->
  normRotations
    (Z.rem (if Bool.eqb i1 i2 then wrap (r1 + r2) else wrap (r1 - r2)) 4) i1
  = (r, i) ->
  normalizeStep (init ++ [mkMove sl op wd r1 i1]) (mkMove sl op wd r2 i2)
  = init ++ [mkMove sl op wd r i].
Proof.
  intros Hs HR Hn. unfold normalizeStep. rewrite unsnoc_snoc.
  unfold CombineMove. cbn [Slices Operator Wide Rotations Inverted].
  rewrite !Z.eqb_refl, Bool.eqb_reflx. cbn [negb orb].
  apply Z.eqb_neq in HR.
  destruct (Bool.eqb i1 i2); cbn [with_Rotations Rotations];
    rewrite HR, Normalize_fields;
    cbn [with_Rotations Slices Operator Wide Rotations Inverted];
    rewrite Hs, Hn; reflexivity.
Qed.

(** X25.  Four equal canonical moves in a row cancel: [NormalizeMoves]
    returns the empty sequence for them, for quarter turns (which pass
    through the half turn and the inverted quarter turn) and for half
    turns (which cancel in pairs) alike. *)
Theorem NormalizeMoves_four_equal (m : Move) :
  canonicalMove m -> NormalizeMoves [m; m; m; m] = Ok [].
Proof.
  destruct m as [sl op wd r i]. intros [HR [_ [_ [Hw _]]]].
  cbn [Slices Operator Wide Rotations Inverted] in HR, Hw.
  assert (Hs : (sl =? 0) && wd = false).
  { destruct wd; [| apply andb_false_r].
    specialize (Hw eq_refl). destruct (Z.eqb_spec sl 0); [lia | reflexivity]. }
  unfold NormalizeMoves. f_equal. cbn [fold_left].
  change (normalizeStep [] (mkMove sl op wd r i))
    with ([] ++ [mkMove sl op wd r i]).
  destruct HR as [-> | ->].
  - rewrite (normalizeStep_merge [] sl op wd 1 i 1 i 2 i Hs);
      [| destruct i; vm_compute; discriminate
       | destruct i; vm_compute; reflexivity].
    rewrite (normalizeStep_merge [] sl op wd 2 i 1 i 1 (negb i) Hs);
      [| destruct i; vm_compute; discriminate
       | destruct i; vm_compute; reflexivity].
    apply normalizeStep_cancel. destruct i; vm_compute; reflexivity.
  - rewrite (normalizeStep_cancel [] sl op wd 2 i 2 i)
      by (destruct i; vm_compute; reflexivity).
    change (normalizeStep [] (mkMove sl op wd 2 i))
      with ([] ++ [mkMove sl op wd 2 i]).
    apply normalizeStep_cancel. destruct i; vm_compute; reflexivity.
Qed.

Lemma NormalizeMoves_four_equal_witness :
  NormalizeMoves [mv "F" 1 true; mv "F" 1 true; mv "F" 1 true; mv "F" 1 true]
  = Ok [].
Proof.
  apply (NormalizeMoves_four_equal (mv "F" 1 true)).
  apply canonicalMove_mv. left. reflexivity.
Defined.

(* ================================================================= *)
(** ** Stickers stay on the surface *)

Lemma tiles_Forall (P : tile -> Prop) (tx ty tz : tile) :
  Forall P (tiles (mkPiece tx ty tz)) <-> P tx /\ P ty /\ P tz.
Proof.
  unfold tiles. cbn [p_x p_y p_z]. split.
  - intros H. inversion H as [| ? ? Hx H1]; subst.
    inversion H1 as [| ? ? Hy H2]; subst.
    inversion H2 as [| ? ? Hz _]; subst. auto.
  - intros [Hx [Hy Hz]]. repeat apply Forall_cons; auto.
Qed.

Lemma flipTurn_flipTurn (t : turn) : flipTurn (flipTurn t) = t.
Proof.
  destruct t. unfold flipTurn. cbn. rewrite negb_involutive. reflexivity.
Qed.

Lemma turnAxisStep_coords_ext (m : Z) (d : bool) (s s' : tile * tile) :
  pairCoords s = pairCoords s' ->
  pairCoords (turnAxisStep m d s) = pairCoords (turnAxisStep m d s').
Proof.
  destruct s as [[a1 ? ?] [a2 ? ?]], s' as [[b1 ? ?] [b2 ? ?]].
  unfold pairCoords. cbn [fst snd coordinate]. intros H.
  injection H as -> ->. destruct d; reflexivity.
Qed.

Lemma iter_coords_ext (m : Z) (d : bool) (n : nat) (s s' : tile * tile) :
  pairCoords s = pairCoords s' ->
  pairCoords (Nat.iter n (turnAxisStep m d) s)
  = pairCoords (Nat.iter n (turnAxisStep m d) s').
Proof.
  intros H. induction n as [| n IH]; [exact H |].
  rewrite !Nat.iter_succ. apply turnAxisStep_coords_ext, IH.
Qed.

(** Where a piece goes depends on where it is, not on its colors. *)
Lemma rotatePiece_coords_ext
  (c : Cube) (a : axis) (d : bool) (rots : Z) (p p' : piece) :
  coords p = coords p' ->
  coords (rotatePiece c a d rots p) = coords (rotatePiece c a d rots p').
Proof.
  destruct p as [tx ty tz], p' as [ux uy uz]. unfold coords.
  cbn [p_x p_y p_z]. intros H. injection H as Hx Hy Hz.
  rewrite !rotatePiece_proj. unfold turnAxis.
  destruct a; cbn [p_x p_y p_z];
    match goal with
    | |- context [Nat.iter ?n ?f (?t1, ?t2)] =>
        match goal with
        | |- context [Nat.iter n f (?u1, ?u2)] =>
            lazymatch u1 with
            | t1 => fail
            | _ =>
              pose proof (iter_coords_ext (max c) d n (t1, t2) (u1, u2)) as E
            end
        end
    end;
    unfold pairCoords in E; cbn [fst snd] in E;
    (lapply E; [clear E; intros E | congruence]);
    injection E as E1 E2; congruence.
Qed.

Lemma turnPiece_coords_ext (c : Cube) (t : turn) (p p' : piece) :
  coords p = coords p' ->
  coords (turnPiece c t p) = coords (turnPiece c t p').
Proof.
  intros H. rewrite !turnPiece_rotatePiece.
  assert (Ha : axisCoordinate (turn_axis t) p
               = axisCoordinate (turn_axis t) p').
  { unfold coords in H. injection H as Hx Hy Hz.
    destruct (turn_axis t); assumption. }
  rewrite Ha. destruct (inRange t _);
    [apply rotatePiece_coords_ext |]; exact H.
Qed.

Section Stickers.
Variable N : Z.
Hypothesis N_pos : 1 <= N.
Hypothesis N_int : in_int N.

Lemma onFace_flip (v : Z) : onFace N (N - 1 - v) = onFace N v.
Proof.
  unfold onFace.
  destruct (Z.eqb_spec v 0), (Z.eqb_spec v (N - 1)),
    (Z.eqb_spec (N - 1 - v) 0), (Z.eqb_spec (N - 1 - v) (N - 1));
    try lia; reflexivity.
Qed.

Lemma shellPoint_onFace (x y z : Z) :
  shellPoint N x y z
  <-> (0 <= x <= N - 1 /\ 0 <= y <= N - 1 /\ 0 <= z <= N - 1)
      /\ onFace N x || onFace N y || onFace N z = true.
Proof.
  unfold shellPoint, onFace.
  destruct (Z.eqb_spec x 0), (Z.eqb_spec x (N - 1)),
    (Z.eqb_spec y 0), (Z.eqb_spec y (N - 1)),
    (Z.eqb_spec z 0), (Z.eqb_spec z (N - 1)); cbn [orb];
    split; intros [Hb Hs]; (split; [exact Hb |]);
    try reflexivity; try lia; try discriminate.
Qed.

Lemma sticker_color (t : tile) :
  sticker N t -> coordinate t = 0 \/ coordinate t = N - 1 ->
  isColor (color t) = true.
Proof.
  unfold sticker, onFace. intros H Hc.
  destruct (Z.eqb_spec (coordinate t) 0), (Z.eqb_spec (coordinate t) (N - 1));
    cbn [orb] in H; try exact H; lia.
Qed.

Lemma turnAxisStep_sticker (d : bool) (s : tile * tile) :
  pair_sticker N s -> pair_sticker N (turnAxisStep (N - 1) d s).
Proof.
  destruct s as [[c1 s1 k1] [c2 s2 k2]].
  unfold pair_sticker, tile_ok, sticker.
  cbn [fst snd coordinate color]. intros [H1 [H2 [K1 K2]]].
  destruct d; cbn [turnAxisStep fst snd coordinate coordinateStart color];
    rewrite wrap_small by (unfold in_int in *; lia);
    rewrite ?onFace_flip; repeat split; try lia; assumption.
Qed.

Lemma turnAxisStep_face (e d : bool) (s : tile * tile) :
  pair_face N e s -> pair_face N e (turnAxisStep (N - 1) d s).
Proof.
  destruct s as [[c1 s1 k1] [c2 s2 k2]].
  unfold pair_face, tile_ok.
  cbn [fst snd coordinate color]. intros [H1 [H2 He]].
  destruct d; cbn [turnAxisStep fst snd coordinate coordinateStart color];
    rewrite wrap_small by (unfold in_int in *; lia);
    rewrite ?onFace_flip, orb_comm; repeat split; try lia; assumption.
Qed.

Lemma iter_sticker (d : bool) (n : nat) (s : tile * tile) :
  pair_sticker N s -> pair_sticker N (Nat.iter n (turnAxisStep (N - 1) d) s).
Proof.
  intros Hs. induction n as [| n IH]; [exact Hs |].
  rewrite Nat.iter_succ. apply turnAxisStep_sticker, IH.
Qed.

Lemma iter_face (e d : bool) (n : nat) (s : tile * tile) :
  pair_face N e s -> pair_face N e (Nat.iter n (turnAxisStep (N - 1) d) s).
Proof.
  intros Hs. induction n as [| n IH]; [exact Hs |].
  rewrite Nat.iter_succ. apply turnAxisStep_face, IH.
Qed.

Lemma rotatePiece_sticker
  (c : Cube) (a : axis) (d : bool) (rots : Z) (p : piece) :
  max c = N - 1 -> piece_ok N p -> Forall (sticker N) (tiles p) ->
  Forall (sticker N) (tiles (rotatePiece c a d rots p)).
Proof.
  destruct p as [tx ty tz]. intros Hmax Hok Hst.
  apply piece_ok_iff in Hok. cbn [p_x p_y p_z] in Hok.
  destruct Hok as [Ox [Oy Oz]].
  apply tiles_Forall in Hst. destruct Hst as [Kx [Ky Kz]].
  rewrite rotatePiece_proj. unfold turnAxis. rewrite Hmax.
  destruct a; apply tiles_Forall;
    match goal with
    | |- context [Nat.iter ?n _ ?s] =>
        destruct (iter_sticker d n s) as [_ [_ [K1 K2]]];
          [unfold pair_sticker; cbn [fst snd]; auto |]
    end; auto.
Qed.

Lemma rotatePiece_onShell
  (c : Cube) (a : axis) (d : bool) (rots : Z) (p : piece) :
  max c = N - 1 -> piece_ok N p ->
  onShell N (rotatePiece c a d rots p) = onShell N p.
Proof.
  destruct p as [tx ty tz]. intros Hmax Hok.
  apply piece_ok_iff in Hok. cbn [p_x p_y p_z] in Hok.
  destruct Hok as [Ox [Oy Oz]].
  rewrite rotatePiece_proj. unfold turnAxis, onShell. rewrite Hmax.
  destruct a; cbn [p_x p_y p_z];
    match goal with
    | |- context [Nat.iter ?n _ (?t1, ?t2)] =>
        destruct (iter_face
                    (onFace N (coordinate t1) || onFace N (coordinate t2))
                    d n (t1, t2)) as [_ [_ E]];
          [unfold pair_face; cbn [fst snd]; auto |]
    end;
    revert E;
    repeat match goal with
    | |- context [onFace N ?v] => destruct (onFace N v)
    end;
    cbn [orb]; intros E; try discriminate E; reflexivity.
Qed.

Lemma turnPiece_sticker (c : Cube) (t : turn) (p : piece) :
  max c = N - 1 -> piece_ok N p ->
  Forall (sticker N) (tiles p) /\ onShell N p = true ->
  Forall (sticker N) (tiles (turnPiece c t p))
  /\ onShell N (turnPiece c t p) = true.
Proof.
  intros Hmax Hok [Hst Hsh]. rewrite turnPiece_rotatePiece.
  destruct (inRange t _); [| auto]. split.
  - apply rotatePiece_sticker; assumption.
  - rewrite rotatePiece_onShell; assumption.
Qed.

Lemma pieceAt_ok (x y z : Z) :
  0 <= x <= N - 1 -> 0 <= y <= N - 1 -> 0 <= z <= N - 1 ->
  piece_ok N (pieceAt x y z) /\ Forall tile_int (tiles (pieceAt x y z)).
Proof.
  intros Hx Hy Hz. split.
  - apply piece_ok_iff. unfold tile_ok. cbn. lia.
  - apply tiles_Forall. unfold tile_int, in_int in *. cbn. lia.
Qed.

(** A turn takes the pieces onto every shell point: the piece that ends
    on a point is the one at the point from which the turn leads there. *)
Lemma Cube_turn_covered (c : Cube) (t : turn) :
  cube_ok N c -> covered N c -> covered N (Cube_turn c t).
Proof.
  intros [Hmax Hps] Hcov x y z Hq.
  pose proof (proj1 (shellPoint_onFace x y z) Hq) as [[Hx [Hy Hz]] Hsh].
  destruct (pieceAt_ok x y z Hx Hy Hz) as [Hok Hint].
  set (pq := pieceAt x y z) in *.
  set (p3 := turnPiece c (flipTurn t) pq).
  assert (Hback : turnPiece c t p3 = pq).
  { pose proof (turnPiece_undo c (flipTurn t) pq Hint) as H.
    rewrite flipTurn_flipTurn in H. exact H. }
  assert (Hok3 : piece_ok N p3) by (apply turnPiece_ok; assumption).
  assert (Hsh3 : onShell N p3 = true).
  { unfold p3. rewrite turnPiece_rotatePiece.
    destruct (inRange _ _); [rewrite rotatePiece_onShell by assumption |];
      exact Hsh. }
  apply piece_ok_iff in Hok3. unfold tile_ok in Hok3.
  destruct (Hcov (coordinate (p_x p3)) (coordinate (p_y p3))
              (coordinate (p_z p3))) as [p0 [Hin Hc0]].
  { apply shellPoint_onFace. split; [exact Hok3 | exact Hsh3]. }
  exists (turnPiece c t p0). split.
  - unfold Cube_turn. cbn [pieces]. apply in_map, Hin.
  - rewrite (turnPiece_coords_ext c t p0 p3 Hc0), Hback. reflexivity.
Qed.

Lemma Cube_turn_solid (c : Cube) (t : turn) :
  solid N c -> solid N (Cube_turn c t).
Proof.
  intros [Hok [Hst Hcov]]. split; [apply Cube_turn_ok; assumption |].
  split; [| apply Cube_turn_covered; assumption].
  destruct Hok as [Hmax Hps]. unfold Cube_turn. cbn [pieces].
  rewrite Forall_forall in Hps, Hst.
  apply Forall_forall. intros q Hq. apply in_map_iff in Hq.
  destruct Hq as [p [<- Hp]]. apply turnPiece_sticker; auto.
Qed.

Lemma ExecuteMove_solid (c : Cube) (move : Move) :
  solid N c -> solid N (fst (ExecuteMove c move)).
Proof.
  intros Hc. destruct (ExecuteMove_cases c move) as [-> | [t ->]];
    [assumption | apply Cube_turn_solid, Hc].
Qed.

Lemma ExecuteMoves_solid (moves : list Move) : forall c,
  solid N c -> solid N (ExecuteMoves c moves).
Proof.
  unfold ExecuteMoves.
  induction moves as [| m ms IH]; intros c Hc; cbn [fold_left].
  - exact Hc.
  - apply IH, ExecuteMove_solid, Hc.
Qed.

Lemma colorize_sticker (x : Z) (c0 cMax : rune) :
  isColor c0 = true -> isColor cMax = true ->
  sticker N (newTile x (colorize (N - 1) x c0 cMax)).
Proof.
  intros H0 HM. unfold sticker, newTile, colorize, onFace.
  cbn [coordinate color].
  destruct (x =? 0); [exact H0 |].
  destruct (x =? N - 1); [exact HM | reflexivity].
Qed.

Lemma NewCube_solid : solid N (NewCube N).
Proof.
  split; [apply NewCube_ok; assumption |]. split.
  - apply Forall_forall. intros p Hp.
    apply (In_pieces_NewCube N p N_pos N_int) in Hp.
    destruct Hp as [x [y [z [Hq ->]]]]. split.
    + apply tiles_Forall; repeat split; apply colorize_sticker; reflexivity.
    + apply shellPoint_onFace in Hq. exact (proj2 Hq).
  - intros x y z Hq. exists (newPiece (N - 1) x y z). split.
    + apply (In_pieces_NewCube N _ N_pos N_int). eauto.
    + reflexivity.
Qed.

Lemma reachable_is_solid (c : Cube) : reachable N c -> solid N c.
Proof.
  intros H. induction H as [| c m _ IH | c ms _ IH].
  - apply NewCube_solid.
  - apply ExecuteMove_solid, IH.
  - apply ExecuteMoves_solid, IH.
Qed.
End Stickers.

(** X26.  On every cube made by [NewCube N] ([N >= 1]) and changed by
    moves, the stickers stay on the surface: a tile carries one of the six
    colors exactly when its coordinate is 0 or [N-1] and the zero rune
    otherwise, every piece has a coordinate that is 0 or [N-1], and every
    point of the shell holds a piece. *)
Theorem reachable_solid (N : Z) (c : Cube) :
  1 <= N -> in_int N -> reachable N c ->
  Forall (fun p =>
            Forall (fun t =>
                      if onFace N (coordinate t)
                      then isColor (color t) = true
                      else color t = 0) (tiles p)
            /\ onShell N p = true) (pieces c)
  /\ (forall x y z, shellPoint N x y z ->
        exists p, In p (pieces c) /\ coords p = (x, y, z)).
Proof.
  intros HN Hint Hr.
  destruct (reachable_is_solid N HN Hint c Hr) as [_ [Hst Hcov]].
  split; [exact Hst | exact Hcov].
Qed.

Lemma reachable_solid_witness :
  Forall (fun p =>
            Forall (fun t =>
                      if onFace 3 (coordinate t)
                      then isColor (color t) = true
                      else color t = 0) (tiles p)
            /\ onShell 3 p = true)
    (pieces (ExecuteMoves (NewCube 3) [mv "R" 1 false; mv "U" 2 true]))
  /\ (forall x y z, shellPoint 3 x y z ->
        exists p,
          In p (pieces (ExecuteMoves (NewCube 3)
                          [mv "R" 1 false; mv "U" 2 true]))
          /\ coords p = (x, y, z)).
Proof.
  apply (reachable_solid 3).
  - lia.
  - unfold in_int. lia.
  - apply reach_ExecuteMoves, reach_NewCube.
Defined.

(* ================================================================= *)
(** ** No face cell stays blank *)

(** When every write of a face writes a value with [P], a cell of the
    result holds what it held before or a value with [P], and a value with
    [P] if some piece writes it. *)
Lemma faceWrites_pred (sel : piece -> option (Z * rune)) (P : rune -> Prop)
  (ps : list piece) :
  forall buf,
    (forall p i v, In p ps -> sel p = Some (i, v) ->
                   0 <= i < len buf /\ P v) ->
    exists buf',
      faceWrites sel ps buf = Some buf'
      /\ List.length buf' = List.length buf
      /\ (forall j, nth_error buf' j = nth_error buf j
                    \/ exists v, nth_error buf' j = Some v /\ P v)
      /\ (forall j p v, In p ps -> sel p = Some (Z.of_nat j, v) ->
                        exists v', nth_error buf' j = Some v' /\ P v').
Proof.
  induction ps as [| p ps IH]; intros buf Hb; cbn [faceWrites].
  - exists buf. repeat split; auto. intros j p v [].
  - destruct (sel p) as [[i v] |] eqn:Hs; cbn [applyWrite].
    + destruct (Hb p i v (or_introl eq_refl) Hs) as [Hi Hv].
      rewrite writeAt_Some by exact Hi.
      assert (Hlt : (Z.to_nat i < List.length buf)%nat)
        by (unfold len in Hi; lia).
      destruct (IH (set_nth (Z.to_nat i) v buf)) as [b' [H1 [H2 [H3 H4]]]].
      { intros q j w Hq Hsel. rewrite len_set_nth.
        apply (Hb q j w); [right; exact Hq | exact Hsel]. }
      exists b'. split; [exact H1 |]. rewrite length_set_nth in H2.
      split; [exact H2 |]. split.
      * intros j. destruct (H3 j) as [E | E]; [| right; exact E].
        rewrite E, (nth_error_set_nth buf _ j v Hlt).
        destruct (Nat.eqb j (Z.to_nat i)); eauto.
      * intros j q w [<- | Hq] Hsel.
        -- rewrite Hs in Hsel. injection Hsel as Hi' <-.
           destruct (H3 j) as [E | E]; [| exact E].
           exists v. split; [| exact Hv].
           rewrite E, (nth_error_set_nth buf _ j v Hlt), Hi', Nat2Z.id,
             Nat.eqb_refl.
           reflexivity.
        -- apply (H4 j q w Hq Hsel).
    + destruct (IH buf) as [b' [H1 [H2 [H3 H4]]]].
      { intros q j w Hq Hsel. apply (Hb q j w); [right; exact Hq | exact Hsel]. }
      exists b'. repeat split; auto.
      intros j q w [<- | Hq] Hsel; [congruence | apply (H4 j q w Hq Hsel)].
Qed.

(** A face has a value with [P] in every cell when every write writes one
    and every cell is written. *)
Lemma faceWrites_all (sel : piece -> option (Z * rune)) (P : rune -> Prop)
  (ps : list piece) (n : nat) :
  (forall p i v, In p ps -> sel p = Some (i, v) ->
                 0 <= i < Z.of_nat n /\ P v) ->
  (forall j, (j < n)%nat ->
             exists p v, In p ps /\ sel p = Some (Z.of_nat j, v)) ->
  exists buf,
    faceWrites sel ps (repeat 0 n) = Some buf
    /\ List.length buf = n /\ Forall P buf.
Proof.
  intros Hb Hall.
  destruct (faceWrites_pred sel P ps (repeat 0 n)) as [b' [H1 [H2 [_ H4]]]].
  { intros p i v Hp Hs. unfold len. rewrite repeat_length.
    apply (Hb p i v Hp Hs). }
  rewrite repeat_length in H2.
  exists b'. split; [exact H1 |]. split; [exact H2 |].
  apply Forall_forall. intros v Hv.
  apply In_nth_error in Hv. destruct Hv as [j Hj].
  assert (Hlt : (j < n)%nat).
  { rewrite <- H2. apply nth_error_Some. congruence. }
  destruct (Hall j Hlt) as [p [w [Hp Hs]]].
  destruct (H4 j p w Hp Hs) as [v' [E Hv']]. congruence.
Qed.

Section FacesColored.
Variable N : Z.
Variable c : Cube.
Hypothesis N_pos : 1 <= N.
Hypothesis N_square : N * N < 2 ^ 63.
Hypothesis c_solid : solid N c.

Lemma cell_of (j : nat) :
  (j < Z.to_nat (N * N))%nat ->
  0 <= Z.of_nat j mod N <= N - 1
  /\ 0 <= Z.of_nat j / N <= N - 1
  /\ Z.of_nat j mod N + Z.of_nat j / N * N = Z.of_nat j.
Proof.
  intros Hj.
  pose proof (Z.mod_pos_bound (Z.of_nat j) N ltac:(lia)).
  pose proof (Z.div_mod (Z.of_nat j) N ltac:(lia)).
  assert (0 <= Z.of_nat j / N) by (apply Z.div_pos; lia).
  assert (Z.of_nat j / N < N) by (apply Z.div_lt_upper_bound; lia).
  lia.
Qed.

Lemma solid_max : max c = N - 1.
Proof. exact (proj1 (proj1 c_solid)). Qed.

Lemma solid_piece (p : piece) :
  In p (pieces c) ->
  piece_ok N p
  /\ sticker N (p_x p) /\ sticker N (p_y p) /\ sticker N (p_z p).
Proof.
  intros Hp. destruct c_solid as [[_ Hps] [Hst _]].
  rewrite Forall_forall in Hps, Hst. split; [apply Hps, Hp |].
  destruct (Hst p Hp) as [H _]. destruct p as [tx ty tz].
  apply tiles_Forall in H. exact H.
Qed.

(** Every write of [Faces] writes a color into a cell of its buffer. *)
Lemma writes_colored (p : piece) (i : Z) (v : rune) :
  In p (pieces c) ->
  (upWrite c N p = Some (i, v) \/ downWrite c N p = Some (i, v)
   \/ leftWrite c N p = Some (i, v) \/ rightWrite c N p = Some (i, v)
   \/ backWrite c N p = Some (i, v) \/ frontWrite c N p = Some (i, v)) ->
  0 <= i < Z.of_nat (Z.to_nat (N * N)) /\ isColor v = true.
Proof.
  intros Hp H. destruct (solid_piece p Hp) as [Hok [Kx [Ky Kz]]].
  split.
  - pose proof (writes_in_bounds N c N_pos N_square solid_max p i v Hok H).
    lia.
  - destruct (writes_plain N c N_pos N_square solid_max p Hok)
      as [E1 [E2 [E3 [E4 [E5 E6]]]]].
    rewrite E1, E2, E3, E4, E5, E6 in H.
    repeat match type of H with
    | _ \/ _ => destruct H as [H | H]
    end;
      match type of H with (if ?a =? ?b then _ else _) = _ =>
        destruct (Z.eqb_spec a b) as [Heq | _]; [| discriminate] end;
      injection H as _ <-;
      apply (sticker_color N); auto.
Qed.

(** The piece on a shell point, with what [Faces] writes for it. *)
Lemma piece_on (x y z : Z) :
  shellPoint N x y z ->
  exists p, In p (pieces c)
    /\ coordinate (p_x p) = x /\ coordinate (p_y p) = y
    /\ coordinate (p_z p) = z
    /\ piece_ok N p.
Proof.
  intros Hq. destruct c_solid as [_ [_ Hcov]].
  destruct (Hcov x y z Hq) as [p [Hp Hc]].
  unfold coords in Hc. injection Hc as Hx Hy Hz.
  exists p. split; [exact Hp |]. split; [exact Hx |].
  split; [exact Hy |]. split; [exact Hz |].
  exact (proj1 (solid_piece p Hp)).
Qed.

Ltac written_by x y z :=
  let p := fresh "p" in
  let Hp := fresh "Hp" in
  let Hx := fresh "Hx" in
  let Hy := fresh "Hy" in
  let Hz := fresh "Hz" in
  let Hok := fresh "Hok" in
  let E := fresh "E" in
  destruct (piece_on x y z) as [p [Hp [Hx [Hy [Hz Hok]]]]];
    [unfold shellPoint; lia |];
  pose proof (writes_plain N c N_pos N_square solid_max p Hok) as E;
  cbv zeta in E; rewrite Hx, Hy, Hz, !Z.eqb_refl in E;
  exists p; eexists; split; [exact Hp |].

Lemma faces_written (j : nat) :
  (j < Z.to_nat (N * N))%nat ->
  (exists p v, In p (pieces c) /\ upWrite c N p = Some (Z.of_nat j, v))
  /\ (exists p v, In p (pieces c) /\ downWrite c N p = Some (Z.of_nat j, v))
  /\ (exists p v, In p (pieces c) /\ leftWrite c N p = Some (Z.of_nat j, v))
  /\ (exists p v, In p (pieces c) /\ rightWrite c N p = Some (Z.of_nat j, v))
  /\ (exists p v, In p (pieces c) /\ backWrite c N p = Some (Z.of_nat j, v))
  /\ (exists p v, In p (pieces c) /\ frontWrite c N p = Some (Z.of_nat j, v)).
Proof.
  intros Hj. destruct (cell_of j Hj) as [Hu [Hw Heq]].
  set (u := Z.of_nat j mod N) in *. set (w := Z.of_nat j / N) in *.
  repeat split.
  - written_by u (N - 1) w.
    destruct E as [E _]. rewrite E. do 2 f_equal. lia.
  - written_by u 0 (N - 1 - w).
    destruct E as [_ [E _]]. rewrite E. do 2 f_equal. lia.
  - written_by 0 (N - 1 - w) u.
    destruct E as [_ [_ [E _]]]. rewrite E. do 2 f_equal. lia.
  - written_by (N - 1) (N - 1 - w) (N - 1 - u).
    destruct E as [_ [_ [_ [E _]]]]. rewrite E. do 2 f_equal. lia.
  - written_by (N - 1 - u) (N - 1 - w) 0.
    destruct E as [_ [_ [_ [_ [E _]]]]]. rewrite E. do 2 f_equal. lia.
  - written_by u (N - 1 - w) (N - 1).
    destruct E as [_ [_ [_ [_ [_ E]]]]]. rewrite E. do 2 f_equal. lia.
Qed.

Lemma face_colored (sel : piece -> option (Z * rune)) :
  (forall p i v, sel p = Some (i, v) ->
     upWrite c N p = Some (i, v) \/ downWrite c N p = Some (i, v)
     \/ leftWrite c N p = Some (i, v) \/ rightWrite c N p = Some (i, v)
     \/ backWrite c N p = Some (i, v) \/ frontWrite c N p = Some (i, v)) ->
  (forall j, (j < Z.to_nat (N * N))%nat ->
     exists p v, In p (pieces c) /\ sel p = Some (Z.of_nat j, v)) ->
  exists buf,
    faceWrites sel (pieces c) (repeat 0 (Z.to_nat (N * N))) = Some buf
    /\ len buf = N * N /\ Forall (fun v => isColor v = true) buf.
Proof.
  intros Hsel Hall.
  destruct (faceWrites_all sel (fun v => isColor v = true) (pieces c)
              (Z.to_nat (N * N))) as [buf [H1 [H2 H3]]].
  - intros p i v Hp Hs. apply (writes_colored p i v Hp), Hsel, Hs.
  - exact Hall.
  - exists buf. split; [exact H1 |]. split; [| exact H3].
    unfold len. rewrite H2. nia.
Qed.

Lemma Faces_of_solid :
  exists cf,
    Faces c = Some cf
    /\ Forall (fun b => len b = N * N
                        /\ Forall (fun v => isColor v = true) b) (All cf).
Proof.
  assert (Hint : in_int N) by (unfold in_int; nia).
  unfold Faces. rewrite (Dimension_ok N c N_pos Hint solid_max).
  rewrite (wrap_small (N * N)) by (unfold in_int; nia).
  unfold makeRunes. destruct (Z.ltb_spec (N * N) 0) as [Hneg | _]; [nia |].
  destruct (face_colored (upWrite c N)) as [u [Hu Lu]];
    [auto | intros j Hj; apply (faces_written j Hj) |].
  destruct (face_colored (downWrite c N)) as [d [Hd Ld]];
    [auto | intros j Hj; apply (faces_written j Hj) |].
  destruct (face_colored (leftWrite c N)) as [l [Hl Ll]];
    [auto | intros j Hj; apply (faces_written j Hj) |].
  destruct (face_colored (rightWrite c N)) as [r [Hr Lr]];
    [auto | intros j Hj; apply (faces_written j Hj) |].
  destruct (face_colored (backWrite c N)) as [b [Hb Lb]];
    [auto 6 | intros j Hj; apply (faces_written j Hj) |].
  destruct (face_colored (frontWrite c N)) as [fr [Hf Lf]];
    [auto 7 | intros j Hj; apply (faces_written j Hj) |].
  exists (mkCubeFaces u l fr r b d). split.
  - apply facesLoop_faceWrites; assumption.
  - unfold All. cbn [Up Left Front Right Back Down].
    repeat apply Forall_cons; auto.
Qed.
End FacesColored.

(** X27.  On every cube made by [NewCube N] ([N >= 1], [N * N] within the
    integers) and changed by moves, [Faces] returns six buffers of [N * N]
    runes in which every rune is one of the six colors w, o, g, r, b, y:
    no cell is left with the zero rune of [make]. *)
Theorem Faces_colored (N : Z) (c : Cube) :
  1 <= N -> N * N < 2 ^ 63 -> reachable N c ->
  exists cf,
    Faces c = Some cf
    /\ Forall (fun b => len b = N * N
                        /\ Forall (fun v => isColor v = true) b) (All cf).
Proof.
  intros HN HNN Hr. apply (Faces_of_solid N c HN HNN).
  apply reachable_is_solid; [exact HN | unfold in_int; nia | exact Hr].
Qed.

Lemma Faces_colored_witness :
  exists cf,
    Faces (ExecuteMoves (NewCube 3) [mv "R" 1 false; mv "U" 2 true]) = Some cf
    /\ Forall (fun b => len b = 3 * 3
                        /\ Forall (fun v => isColor v = true) b) (All cf).
Proof.
  apply (Faces_colored 3).
  - lia.
  - reflexivity.
  - apply reach_ExecuteMoves, reach_NewCube.
Defined.

(* ================================================================= *)
(** ** No two pieces at one position *)

Lemma NoDup_map_inj_on {A B C : Type} (g : A -> B) (h : A -> C)
  (l : list A) :
  (forall a a', In a l -> In a' l -> h a = h a' -> g a = g a') ->
  NoDup (map g l) -> NoDup (map h l).
Proof.
  induction l as [| a l IH]; intros Hinj Hg; cbn [map] in *.
  - constructor.
  - apply NoDup_cons_iff in Hg. destruct Hg as [Hna Hg].
    apply NoDup_cons_iff. split.
    + intros Hin. apply in_map_iff in Hin. destruct Hin as [a' [Heq Ha']].
      apply Hna. apply in_map_iff. exists a'. split; [| exact Ha'].
      apply Hinj; [right; exact Ha' | left; reflexivity | exact Heq].
    + apply IH; [| exact Hg]. intros u u' Hu Hu'.
      apply Hinj; right; assumption.
Qed.

Lemma turnPiece_coords_inj (c : Cube) (t : turn) (p p' : piece) :
  Forall tile_int (tiles p) -> Forall tile_int (tiles p') ->
  coords (turnPiece c t p) = coords (turnPiece c t p') ->
  coords p = coords p'.
Proof.
  intros Hp Hp' H.
  apply (turnPiece_coords_ext c (flipTurn t)) in H.
  rewrite !turnPiece_undo in H by assumption. exact H.
Qed.

Section Distinct.
Variable N : Z.
Hypothesis N_pos : 1 <= N.
Hypothesis N_int : in_int N.

Lemma piece_ok_int (p : piece) : piece_ok N p -> Forall tile_int (tiles p).
Proof.
  intros [_ H]. eapply Forall_impl; [| exact H].
  intros t Ht. unfold tile_ok in Ht. unfold tile_int, in_int in *. lia.
Qed.

Lemma Cube_turn_distinct (c : Cube) (t : turn) :
  cube_ok N c -> distinct c -> distinct (Cube_turn c t).
Proof.
  intros [_ Hps] Hd. unfold distinct, Cube_turn in *. cbn [pieces].
  rewrite map_map. rewrite Forall_forall in Hps.
  apply (NoDup_map_inj_on coords); [| exact Hd].
  intros p p' Hp Hp'. apply turnPiece_coords_inj; apply piece_ok_int; auto.
Qed.

Lemma ExecuteMove_distinct (c : Cube) (move : Move) :
  cube_ok N c -> distinct c -> distinct (fst (ExecuteMove c move)).
Proof.
  intros Hok Hd. destruct (ExecuteMove_cases c move) as [-> | [t ->]];
    [assumption | apply Cube_turn_distinct; assumption].
Qed.

Lemma ExecuteMoves_distinct (moves : list Move) : forall c,
  cube_ok N c -> distinct c -> distinct (ExecuteMoves c moves).
Proof.
  unfold ExecuteMoves.
  induction moves as [| m ms IH]; intros c Hok Hd; cbn [fold_left].
  - exact Hd.
  - apply IH; [apply ExecuteMove_ok | apply ExecuteMove_distinct];
      assumption.
Qed.

Lemma NewCube_distinct : distinct (NewCube N).
Proof.
  unfold distinct.
  apply (NoDup_map_inj_on (fun p => p)).
  - intros p p' Hp Hp' Hc.
    apply (In_pieces_NewCube N p N_pos N_int) in Hp.
    apply (In_pieces_NewCube N p' N_pos N_int) in Hp'.
    destruct Hp as [x [y [z [_ ->]]]]. destruct Hp' as [x' [y' [z' [_ ->]]]].
    unfold coords, newPiece, newTile in Hc. cbn in Hc.
    injection Hc as -> -> ->. reflexivity.
  - rewrite map_id. apply NoDup_pieces_NewCube.
Qed.

Lemma reachable_is_distinct (c : Cube) :
  reachable N c -> cube_ok N c /\ distinct c.
Proof.
  intros H. induction H as [| c m _ [IHok IHd] | c ms _ [IHok IHd]].
  - split; [apply NewCube_ok; assumption | apply NewCube_distinct].
  - split; [apply ExecuteMove_ok | apply ExecuteMove_distinct]; assumption.
  - split; [apply ExecuteMoves_ok | apply ExecuteMoves_distinct]; assumption.
Qed.
End Distinct.

(** X28.  On every cube made by [NewCube N] ([N >= 1]) and changed by
    moves, no two pieces are at the same position, and the positions of
    the pieces are exactly the points of the shell. *)
Theorem reachable_distinct (N : Z) (c : Cube) :
  1 <= N -> in_int N -> reachable N c ->
  NoDup (map coords (pieces c))
  /\ (forall x y z,
        shellPoint N x y z
        <-> exists p, In p (pieces c) /\ coords p = (x, y, z)).
Proof.
  intros HN Hint Hr.
  destruct (reachable_is_distinct N HN Hint c Hr) as [_ Hd].
  destruct (reachable_is_solid N HN Hint c Hr) as [[_ Hps] [Hst Hcov]].
  split; [exact Hd |]. intros x y z. split; [apply Hcov |].
  intros [p [Hp Hc]]. rewrite Forall_forall in Hps, Hst.
  unfold coords in Hc. injection Hc as <- <- <-.
  apply (shellPoint_onFace N). split.
  - apply piece_ok_iff, Hps, Hp.
  - apply (Hst p Hp).
Qed.

Lemma reachable_distinct_witness :
  NoDup (map coords
           (pieces (ExecuteMoves (NewCube 3) [mv "R" 1 false; mv "U" 2 true])))
  /\ (forall x y z,
        shellPoint 3 x y z
        <-> exists p,
              In p (pieces (ExecuteMoves (NewCube 3)
                              [mv "R" 1 false; mv "U" 2 true]))
              /\ coords p = (x, y, z)).
Proof.
  apply (reachable_distinct 3).
  - lia.
  - unfold in_int. lia.
  - apply reach_ExecuteMoves, reach_NewCube.
Defined.

(* ================================================================= *)
(** ** Every color keeps its number of cells *)

Lemma In_written (sel : piece -> option (Z * rune)) (ps : list piece)
  (w : Z * rune) :
  In w (written sel ps) <-> exists p, In p ps /\ sel p = Some w.
Proof.
  unfold written. rewrite in_flat_map. split; intros [p [Hp H]]; exists p;
    (split; [exact Hp |]).
  - destruct (sel p) as [iv |]; cbn [oneWrite] in H; [| contradiction].
    destruct H as [-> | []]. reflexivity.
  - rewrite H. left. reflexivity.
Qed.

(** The cells written on a face are pairwise different when the pieces are
    at different positions and the cell tells the position. *)
Lemma written_NoDup (sel : piece -> option (Z * rune)) (ps : list piece) :
  (forall p p' i v v', In p ps -> In p' ps ->
     sel p = Some (i, v) -> sel p' = Some (i, v') -> coords p = coords p') ->
  NoDup (map coords ps) -> NoDup (map fst (written sel ps)).
Proof.
  induction ps as [| p ps IH]; intros Hinj Hd; [constructor |].
  cbn [map] in Hd. apply NoDup_cons_iff in Hd. destruct Hd as [Hnp Hd].
  assert (IH' : NoDup (map fst (written sel ps))).
  { apply IH; [| exact Hd]. intros q q' i v v' Hq Hq'.
    apply Hinj; right; assumption. }
  unfold written. cbn [flat_map]. fold (written sel ps).
  destruct (sel p) as [[i v] |] eqn:Hs; cbn [oneWrite app map fst];
    [| exact IH'].
  apply NoDup_cons_iff. split; [| exact IH'].
  intros Hin. apply in_map_iff in Hin. destruct Hin as [[i' v'] [Hi Hw]].
  cbn [fst] in Hi. subst i'. apply In_written in Hw.
  destruct Hw as [p' [Hp' Hs']]. apply Hnp.
  rewrite (Hinj p p' i v v' (or_introl eq_refl) (or_intror Hp') Hs Hs').
  apply in_map, Hp'.
Qed.

Lemma countRune_app (k : rune) (l1 l2 : list rune) :
  countRune k (l1 ++ l2) = (countRune k l1 + countRune k l2)%nat.
Proof. apply count_occ_app. Qed.

Lemma countRune_cons (k v : rune) (l : list rune) :
  countRune k (v :: l) = (countRune k [v] + countRune k l)%nat.
Proof. apply (countRune_app k [v] l). Qed.

Lemma countRune_one_neq (k v : rune) : v <> k -> countRune k [v] = 0%nat.
Proof.
  intros H. unfold countRune. cbn [count_occ].
  destruct (Z.eq_dec v k); [contradiction | reflexivity].
Qed.

Lemma countRune_repeat_eq (k : rune) (n : nat) :
  countRune k (repeat k n) = n.
Proof.
  induction n as [| n IH]; [reflexivity |]. cbn [repeat].
  rewrite countRune_cons, IH. unfold countRune. cbn [count_occ].
  destruct (Z.eq_dec k k); [reflexivity | contradiction].
Qed.

Lemma countRune_repeat_neq (k v : rune) (n : nat) :
  v <> k -> countRune k (repeat v n) = 0%nat.
Proof.
  intros H. induction n as [| n IH]; [reflexivity |]. cbn [repeat].
  rewrite countRune_cons, IH, countRune_one_neq by exact H. reflexivity.
Qed.

Lemma countRune_set_nth (k v old : rune) (buf : list rune) : forall i,
  nth_error buf i = Some old -> old <> k ->
  countRune k (set_nth i v buf) = (countRune k buf + countRune k [v])%nat.
Proof.
  induction buf as [| a buf IH]; intros [| i] Hn Hk; cbn in Hn;
    try discriminate.
  - injection Hn as ->. cbn [set_nth].
    rewrite (countRune_cons k v), (countRune_cons k old).
    assert (H0 : countRune k [old] = 0%nat).
    { unfold countRune. cbn. destruct (Z.eq_dec old k); [contradiction |].
      reflexivity. }
    rewrite H0. lia.
  - cbn [set_nth]. rewrite (countRune_cons k a), (countRune_cons k a buf).
    rewrite (IH i Hn Hk). lia.
Qed.

(** Writes into cells that hold the zero rune and are written once add
    their values to the buffer. *)
Lemma faceWrites_count (sel : piece -> option (Z * rune)) (k : rune)
  (ps : list piece) :
  k <> 0 ->
  forall buf,
    (forall i v, In (i, v) (written sel ps) ->
       0 <= i < len buf /\ nth_error buf (Z.to_nat i) = Some 0) ->
    NoDup (map fst (written sel ps)) ->
    exists buf',
      faceWrites sel ps buf = Some buf'
      /\ countRune k buf'
         = (countRune k buf + countRune k (map snd (written sel ps)))%nat.
Proof.
  intros Hk. induction ps as [| p ps IH]; intros buf Hb Hnd;
    cbn [faceWrites].
  - exists buf. split; [reflexivity |]. unfold written, countRune.
    cbn [flat_map map count_occ]. lia.
  - unfold written in Hb, Hnd |- *. cbn [flat_map] in Hb, Hnd |- *.
    fold (written sel ps) in Hb, Hnd |- *.
    destruct (sel p) as [[i v] |] eqn:Hs; cbn [oneWrite app applyWrite] in *.
    + destruct (Hb i v (or_introl eq_refl)) as [Hi Hz].
      rewrite writeAt_Some by exact Hi.
      cbn [map fst snd] in Hnd |- *.
      apply NoDup_cons_iff in Hnd. destruct Hnd as [Hni Hnd].
      assert (Hlt : (Z.to_nat i < List.length buf)%nat)
        by (unfold len in Hi; lia).
      destruct (IH (set_nth (Z.to_nat i) v buf)) as [b' [H1 H2]].
      * intros i' v' Hw. destruct (Hb i' v' (or_intror Hw)) as [Hi' Hz'].
        rewrite len_set_nth. split; [exact Hi' |].
        rewrite (nth_error_set_nth buf _ _ v Hlt).
        destruct (Nat.eqb_spec (Z.to_nat i') (Z.to_nat i)) as [E | _];
          [| exact Hz'].
        exfalso. apply Hni. apply in_map_iff. exists (i', v').
        split; [cbn [fst]; lia | exact Hw].
      * exact Hnd.
      * exists b'. split; [exact H1 |]. rewrite H2.
        rewrite (countRune_set_nth k v 0 buf _ Hz) by (intros E; apply Hk; auto).
        rewrite (countRune_cons k v (map snd (written sel ps))). lia.
    + apply IH; assumption.
Qed.

Lemma kept_countRune (k : rune) (ps qs : list piece) :
  Forall2 piece_kept ps qs ->
  countRune k (tileColors qs) = countRune k (tileColors ps).
Proof.
  intros H. induction H as [| p q ps qs [_ Hpq] _ IH]; [reflexivity |].
  unfold tileColors in *. cbn [flat_map]. rewrite !countRune_app, IH.
  f_equal. unfold countRune.
  apply (proj1 (Permutation_count_occ Z.eq_dec _ _) Hpq).
Qed.

Lemma ExecuteMoves_countRune (k : rune) (moves : list Move) : forall c,
  countRune k (tileColors (pieces (ExecuteMoves c moves)))
  = countRune k (tileColors (pieces c)).
Proof.
  unfold ExecuteMoves.
  induction moves as [| m ms IH]; intros c; cbn [fold_left]; [reflexivity |].
  rewrite IH. apply kept_countRune, ExecuteMove_kept.
Qed.

Lemma reachable_countRune (N : Z) (k : rune) (c : Cube) :
  reachable N c ->
  countRune k (tileColors (pieces c))
  = countRune k (tileColors (pieces (NewCube N))).
Proof.
  intros H. induction H as [| c m _ IH | c ms _ IH].
  - reflexivity.
  - rewrite <- IH. apply kept_countRune, ExecuteMove_kept.
  - rewrite <- IH. apply ExecuteMoves_countRune.
Qed.

Lemma isColor_not_zero (k : rune) : isColor k = true -> k <> 0.
Proof. intros H ->. discriminate H. Qed.

Section FaceCounts.
Variable N : Z.
Variable c : Cube.
Variable k : rune.
Hypothesis N_two : 2 <= N.
Hypothesis N_square : N * N < 2 ^ 63.
Hypothesis c_solid : solid N c.
Hypothesis c_distinct : distinct c.
Hypothesis k_color : k <> 0.

Lemma N_one : 1 <= N.
Proof. lia. Qed.

Lemma cell_inj (u v u' v' : Z) :
  0 <= u <= N - 1 -> 0 <= u' <= N - 1 ->
  u + v * N = u' + v' * N -> u = u' /\ v = v'.
Proof.
  intros Hu Hu' H.
  assert (v = v') by nia. subst v'. lia.
Qed.

(** On one face, the cell tells the position of the piece. *)
Lemma writes_inj (sel : piece -> option (Z * rune)) (p p' : piece)
  (i : Z) (v v' : rune) :
  In sel (faceSels c N) ->
  In p (pieces c) -> In p' (pieces c) ->
  sel p = Some (i, v) -> sel p' = Some (i, v') -> coords p = coords p'.
Proof.
  intros Hsel Hp Hp'.
  destruct (solid_piece N c c_solid p Hp) as [Hok _].
  destruct (solid_piece N c c_solid p' Hp') as [Hok' _].
  destruct (writes_plain N c N_one N_square (solid_max N c c_solid) p Hok)
    as [E1 [E2 [E3 [E4 [E5 E6]]]]].
  destruct (writes_plain N c N_one N_square (solid_max N c c_solid) p' Hok')
    as [F1 [F2 [F3 [F4 [F5 F6]]]]].
  apply piece_ok_iff in Hok, Hok'. unfold tile_ok in Hok, Hok'.
  destruct Hok as [Hx [Hy Hz]]. destruct Hok' as [Hx' [Hy' Hz']].
  unfold faceSels in Hsel. cbn [In] in Hsel.
  destruct Hsel as [<- | [<- | [<- | [<- | [<- | [<- | []]]]]]];
    intros H H';
    [rewrite E1 in H; rewrite F1 in H' | rewrite E2 in H; rewrite F2 in H'
     | rewrite E3 in H; rewrite F3 in H' | rewrite E4 in H; rewrite F4 in H'
     | rewrite E5 in H; rewrite F5 in H' | rewrite E6 in H; rewrite F6 in H'];
    match type of H with (if ?a =? ?b then _ else _) = _ =>
      destruct (Z.eqb_spec a b) as [Ha | _]; [| discriminate] end;
    match type of H' with (if ?a =? ?b then _ else _) = _ =>
      destruct (Z.eqb_spec a b) as [Ha' | _]; [| discriminate] end;
    injection H as Hi _; injection H' as Hi' _;
    rewrite <- Hi' in Hi;
    apply cell_inj in Hi; try lia;
    unfold coords;
    replace (coordinate (p_x p)) with (coordinate (p_x p')) by lia;
    replace (coordinate (p_y p)) with (coordinate (p_y p')) by lia;
    replace (coordinate (p_z p)) with (coordinate (p_z p')) by lia;
    reflexivity.
Qed.

(** What a tile gives to the two faces of its axis: its color, to the one
    it is on. *)
Lemma tile_writes (t : tile) (i0 iM : Z) :
  sticker N t ->
  Nat.add
    (countRune k
       (map snd (oneWrite (if coordinate t =? N - 1
                           then Some (iM, color t) else None))))
    (countRune k
       (map snd (oneWrite (if coordinate t =? 0
                           then Some (i0, color t) else None))))
  = countRune k [color t].
Proof.
  unfold sticker, onFace. intros K.
  destruct (Z.eqb_spec (coordinate t) 0) as [H0 | H0],
    (Z.eqb_spec (coordinate t) (N - 1)) as [HM | HM];
    cbn [orb oneWrite map snd] in *; try lia;
    change (countRune k []) with 0%nat; try lia.
  rewrite K. symmetry. apply countRune_one_neq. auto.
Qed.

(** The colors that the six faces receive from the pieces are the colors
    of their tiles. *)
Lemma writes_tiles (ps : list piece) :
  (forall p, In p ps -> In p (pieces c)) ->
  (countRune k (map snd (written (upWrite c N) ps))
   + countRune k (map snd (written (downWrite c N) ps))
   + countRune k (map snd (written (leftWrite c N) ps))
   + countRune k (map snd (written (rightWrite c N) ps))
   + countRune k (map snd (written (backWrite c N) ps))
   + countRune k (map snd (written (frontWrite c N) ps)))%nat
  = countRune k (tileColors ps).
Proof.
  induction ps as [| p ps IH]; intros Hin; [reflexivity |].
  specialize (IH (fun q Hq => Hin q (or_intror Hq))).
  destruct (solid_piece N c c_solid p (Hin p (or_introl eq_refl)))
    as [Hok [Kx [Ky Kz]]].
  destruct (writes_plain N c N_one N_square (solid_max N c c_solid) p Hok)
    as [E1 [E2 [E3 [E4 [E5 E6]]]]].
  unfold written, tileColors in *. cbn [flat_map].
  rewrite !map_app, !countRune_app, <- IH.
  rewrite E1, E2, E3, E4, E5, E6.
  pose proof (tile_writes (p_y p)
                (coordinate (p_x p) + (N - 1 - coordinate (p_z p)) * N)
                (coordinate (p_x p) + coordinate (p_z p) * N) Ky) as Ty.
  pose proof (tile_writes (p_x p)
                (coordinate (p_z p) + (N - 1 - coordinate (p_y p)) * N)
                (N - 1 - coordinate (p_z p)
                 + (N - 1 - coordinate (p_y p)) * N) Kx) as Tx.
  pose proof (tile_writes (p_z p)
                (N - 1 - coordinate (p_x p)
                 + (N - 1 - coordinate (p_y p)) * N)
                (coordinate (p_x p) + (N - 1 - coordinate (p_y p)) * N) Kz)
    as Tz.
  assert (Hc : countRune k (pieceColors p)
               = (countRune k [color (p_x p)] + countRune k [color (p_y p)]
                  + countRune k [color (p_z p)])%nat).
  { unfold pieceColors, tiles. cbn [map].
    rewrite (countRune_cons k (color (p_x p))
               [color (p_y p); color (p_z p)]),
      (countRune_cons k (color (p_y p)) [color (p_z p)]). lia. }
  rewrite Hc. lia.
Qed.

(** One face: its buffer holds the colors written on it. *)
Lemma face_count (sel : piece -> option (Z * rune)) :
  In sel (faceSels c N) ->
  exists buf,
    faceWrites sel (pieces c) (repeat 0 (Z.to_nat (N * N))) = Some buf
    /\ countRune k buf = countRune k (map snd (written sel (pieces c))).
Proof.
  intros Hsel.
  destruct (faceWrites_count sel k (pieces c) k_color
              (repeat 0 (Z.to_nat (N * N)))) as [buf [H1 H2]].
  - intros i v Hw. apply In_written in Hw. destruct Hw as [p [Hp Hs]].
    assert (Hi : 0 <= i < Z.of_nat (Z.to_nat (N * N))).
    { apply (writes_colored N c N_one N_square c_solid p i v Hp).
      unfold faceSels in Hsel. cbn [In] in Hsel.
      destruct Hsel as [<- | [<- | [<- | [<- | [<- | [<- | []]]]]]];
        auto 7. }
    unfold len. rewrite repeat_length. split; [exact Hi |].
    apply nth_error_repeat. lia.
  - apply written_NoDup; [| exact c_distinct].
    intros p p' i v v'. apply writes_inj, Hsel.
  - exists buf. split; [exact H1 |]. rewrite H2.
    unfold countRune at 1.
    rewrite count_occ_repeat_neq by (intros E; apply k_color; auto).
    reflexivity.
Qed.

Lemma Faces_count :
  exists cf,
    Faces c = Some cf
    /\ countRune k (faceCells cf) = countRune k (tileColors (pieces c)).
Proof.
  assert (Hint : in_int N) by (unfold in_int; nia).
  unfold Faces.
  rewrite (Dimension_ok N c N_one Hint (solid_max N c c_solid)).
  rewrite (wrap_small (N * N)) by (unfold in_int; nia).
  unfold makeRunes. destruct (Z.ltb_spec (N * N) 0) as [Hneg | _]; [nia |].
  destruct (face_count (upWrite c N)) as [u [Hu Cu]];
    [unfold faceSels; cbn [In]; auto 7 |].
  destruct (face_count (downWrite c N)) as [d [Hd Cd]];
    [unfold faceSels; cbn [In]; auto 7 |].
  destruct (face_count (leftWrite c N)) as [l [Hl Cl]];
    [unfold faceSels; cbn [In]; auto 7 |].
  destruct (face_count (rightWrite c N)) as [r [Hr Cr]];
    [unfold faceSels; cbn [In]; auto 7 |].
  destruct (face_count (backWrite c N)) as [b [Hb Cb]];
    [unfold faceSels; cbn [In]; auto 7 |].
  destruct (face_count (frontWrite c N)) as [fr [Hf Cf]];
    [unfold faceSels; cbn [In]; auto 7 |].
  exists (mkCubeFaces u l fr r b d). split.
  - apply facesLoop_faceWrites; assumption.
  - unfold faceCells, All. cbn [Up Left Front Right Back Down concat].
    rewrite !countRune_app, Cu, Cd, Cl, Cr, Cb, Cf.
    change (countRune k []) with 0%nat.
    rewrite <- (writes_tiles (pieces c)) by auto. lia.
Qed.
End FaceCounts.

Lemma isColor_cases (k : rune) :
  isColor k = true ->
  k = rlit "w" \/ k = rlit "o" \/ k = rlit "g" \/ k = rlit "r"
  \/ k = rlit "b" \/ k = rlit "y".
Proof.
  unfold isColor. cbn [existsb]. intros H.
  repeat match type of H with
  | (?a =? ?b) || _ = true =>
      apply orb_true_iff in H; destruct H as [H | H];
        [apply Z.eqb_eq in H; auto 7 |]
  end.
  discriminate H.
Qed.

(** X29.  On every cube made by [NewCube N] ([N >= 2], [N * N] within the
    integers) and changed by moves, each of the six colors is in exactly
    [N * N] cells of the six buffers that [Faces] returns: moves carry the
    colors around and never add or remove one. *)
Theorem Faces_color_count (N : Z) (c : Cube) (k : rune) :
  2 <= N -> N * N < 2 ^ 63 -> reachable N c -> isColor k = true ->
  exists cf,
    Faces c = Some cf
    /\ Z.of_nat (countRune k (faceCells cf)) = N * N.
Proof.
  intros HN HNN Hr Hk.
  assert (H1 : 1 <= N) by lia.
  assert (Hint : in_int N) by (unfold in_int; nia).
  pose proof (isColor_not_zero k Hk) as Hk0.
  destruct (Faces_count N c k HN HNN
              (reachable_is_solid N H1 Hint c Hr)
              (proj2 (reachable_is_distinct N H1 Hint c Hr)) Hk0)
    as [cf [Hcf Hcount]].
  destruct (Faces_count N (NewCube N) k HN HNN
              (NewCube_solid N H1 Hint) (NewCube_distinct N H1 Hint) Hk0)
    as [cf0 [Hcf0 Hcount0]].
  exists cf. split; [exact Hcf |].
  rewrite Hcount, (reachable_countRune N k c Hr), <- Hcount0.
  rewrite (Faces_of_NewCube N HN HNN) in Hcf0. injection Hcf0 as <-.
  unfold faceCells, All. cbn [Up Left Front Right Back Down concat].
  rewrite !countRune_app. change (countRune k []) with 0%nat.
  destruct (isColor_cases k Hk) as [-> | [-> | [-> | [-> | [-> | ->]]]]];
    rewrite countRune_repeat_eq;
    rewrite !countRune_repeat_neq
      by (intros E; vm_compute in E; discriminate E);
    lia.
Qed.

Lemma Faces_color_count_witness :
  exists cf,
    Faces (ExecuteMoves (NewCube 3) [mv "R" 1 false; mv "U" 2 true]) = Some cf
    /\ Z.of_nat (countRune (rlit "g") (faceCells cf)) = 3 * 3.
Proof.
  apply (Faces_color_count 3).
  - lia.
  - reflexivity.
  - apply reach_ExecuteMoves, reach_NewCube.
  - reflexivity.
Defined.

(* ================================================================= *)
(** ** The kind of a closing delimiter *)



Section CloseKind.
Variable f : ascii -> ascii.
Hypothesis f_close : forall ch, isClose ch = true -> isClose (f ch) = true.
Hypothesis f_other : forall ch, isClose ch = false -> f ch = ch.








End CloseKind.



(* ================================================================= *)
(** ** The runs and what they return *)

(** What is proved above of [NewCube size] and of [Expand g] is about the
    values these functions return; a run that returns, returns them. *)
Lemma NewCube_run_NewCube (size : Z) (c : Cube) :
  NewCube_run size = Some c -> c = NewCube size.
Proof.
  unfold NewCube_run. destruct (makePanics (NewCube_n size));
    [discriminate | congruence].
Qed.

Lemma expandLoop_run_expandLoop (ts : list Tokenizable) :
  Forall (fun t => match t with
                   | TGroup g =>
                       forall r, Expand_run g = Some r -> Expand g = r
                   | _ => True
                   end) ts ->
  forall st r,
    expandLoop_run Expand_run ts st = Some r ->
    expandLoop Expand ts st = r.
Proof.
  intros Hsub. induction Hsub as [| t ts Ht _ IH];
    intros [[head tail] sep] r H; cbn [expandLoop_run expandLoop] in *.
  - congruence.
  - destruct t as [v | v | v].
    + destruct sep; apply IH, H.
    + destruct sep; [congruence | apply IH, H].
    + destruct (Expand_run v) as [[toks | e] |] eqn:He; [| | discriminate];
        rewrite (Ht _ eq_refl); [| congruence].
      destruct sep; apply IH, H.
Qed.

Lemma expandFinish_run_expandFinish
  (gt : GroupType) (factor : Z) (st : expandState) (r : result (list Move)) :
  expandFinish_run gt factor st = Some r -> expandFinish gt factor st = r.
Proof.
  destruct st as [[head tail] sep]. unfold expandFinish_run, expandFinish.
  destruct (isSome sep && negb (GroupType_eqb gt GroupTypeComm));
    [congruence |].
  match goal with |- (if ?b then _ else _) = _ -> _ => destruct b end;
    [discriminate | congruence].
Qed.

Lemma Expand_run_Expand (g : Group) (r : result (list Move)) :
  Expand_run g = Some r -> Expand g = r.
Proof.
  revert r. induction g as [ts factor gt IH] using Group_nested_ind.
  intros r H. cbn [Expand_run Expand] in *.
  destruct (expandLoop_run Expand_run ts ([], [], None)) as [[st | e] |]
    eqn:Hl; [| | discriminate];
    rewrite (expandLoop_run_expandLoop ts IH _ _ Hl).
  - apply expandFinish_run_expandFinish, H.
  - congruence.
Qed.
